(** * Distributed voting coordinator: vote admission and replication

    A shallow embedding of [server.py] (class [VotingServer]): the Lamport
    clock, the replicator, the voter registry operations, the [heapq]-backed
    vote queue, the scheduler loop and the per-vote admission task.

    Conventions of the embedding.
    - Python [int] is [Z]; wall-clock readings ([time.time()], the client's
      click time, the deadline) are abstracted to [Z].
    - [dict] literals returned by the RPC handlers are association lists of
      [pyval]; [self.active_sessions] is a [gmap], [self.in_progress_votes]
      a [gset], [self.voters_db] and [self.vote_queue] are lists used as
      arrays.
    - Each [with lock:] block is one atomic step of the interleaving
      semantics; the outcome of every replica RPC is supplied by the
      environment as an oracle.
    - The notification log and the logger are write-only and are left out. *)

From stdpp Require Import gmap strings list fin_maps sorting.
From Stdlib Require Import ZArith Lia Ascii Orders OrdersEx Zify ZifyNat.
From Stdlib Require DecimalString DecimalZ DecimalPos.

(** [lia] reasons about the parent index [(pos - 1) / 2]. *)
Ltac Zify.zify_post_hook ::= Z.to_euclidean_division_equations.

(** ** Python values and dict literals *)

Inductive pyval :=
  | VNone
  | VBool (b : bool)
  | VInt (z : Z)
  | VStr (s : string)
  | VStrList (l : list string)
  | VVoters (l : list (Z * string * bool * option string)).

Definition pydict := list (string * pyval).

Fixpoint dict_get (k : string) (d : pydict) : option pyval :=
  match d with
  | [] => None
  | (k', v) :: d' => if String.eqb k k' then Some v else dict_get k d'
  end.

(** ** Data model *)

(** One element of [self.voters_db]. *)
Record voter := Voter {
  v_id : Z;
  v_name : string;
  has_voted : bool;
  vote : option string
}.

(** One value of [self.active_sessions]. *)
Record voter_info := VoterInfo {
  vi_id : Z;
  vi_name : string;
  login_time : Z
}.

(** The tuple [(session_id, candidate, timestamp, click_time)]. *)
Record vote_request := VoteRequest {
  session_id : string;
  candidate : string;
  timestamp : Z;
  click_time : Z
}.

(** A heap entry [(timestamp, voter_id, counter, vote_request)]. *)
Record entry := Entry {
  e_timestamp : Z;
  e_voter_id : Z;
  e_counter : Z;
  e_request : vote_request
}.

(** ** Lamport clock *)

(** [_increment_lamport_clock]: new counter and returned value. *)
Definition _increment_lamport_clock (lamport_clock : Z) : Z * Z :=
  let c := (lamport_clock + 1)%Z in (c, c).

(** [_update_lamport_clock]: new counter and returned value. *)
Definition _update_lamport_clock (lamport_clock received_clock : Z) : Z * Z :=
  let c := (Z.max lamport_clock received_clock + 1)%Z in (c, c).

Inductive clock_call :=
  | Tick
  | Observe (received_clock : Z).

Definition run_call (lamport_clock : Z) (c : clock_call) : Z * Z :=
  match c with
  | Tick => _increment_lamport_clock lamport_clock
  | Observe t => _update_lamport_clock lamport_clock t
  end.

(** A serialized sequence of calls (every call holds [clock_lock]): the final
    counter and the values returned, in order. *)
Fixpoint run_calls (lamport_clock : Z) (cs : list clock_call) : Z * list Z :=
  match cs with
  | [] => (lamport_clock, [])
  | c :: cs' =>
      let '(clk, r) := run_call lamport_clock c in
      let '(clk', rs) := run_calls clk cs' in
      (clk', r :: rs)
  end.

(** ** Replicator *)

(** What one [replica.ReplicateUpdate(operation, data)] call does: it returns
    a value of the given truthiness, or the call raises. *)
Inductive rpc_outcome :=
  | Returned (result : bool)
  | Raised.

(** The environment of one [_replicate_to_replicas] call: the outcome of the
    call made for the endpoint at each index of [replica_ports]. *)
Definition network := nat → rpc_outcome.

(** Loop state: [successful_replicas] and the ports contacted so far. *)
Record loop_state := LoopState {
  successful_replicas : Z;
  attempted : list Z
}.

(** The [for replica_port in self.replica_ports] loop, from index [i] on. *)
Fixpoint replicate_loop (net : network) (i : nat) (ports : list Z)
    (st : loop_state) : loop_state :=
  match ports with
  | [] => st
  | replica_port :: rest =>
      let contacted := attempted st ++ [replica_port] in
      let st' :=
        match net i with
        | Returned true => LoopState (successful_replicas st + 1) contacted
        | Returned false => LoopState (successful_replicas st) contacted
        | Raised => LoopState (successful_replicas st) contacted
        end in
      replicate_loop net (S i) rest st'
  end.

Definition replicate_run (net : network) (replica_ports : list Z) : loop_state :=
  replicate_loop net 0 replica_ports (LoopState 0 []).

(** [_replicate_to_replicas]: [return successful_replicas >= 1]. *)
Definition _replicate_to_replicas (net : network) (replica_ports : list Z) : bool :=
  (1 <=? successful_replicas (replicate_run net replica_ports))%Z.

(** ** Coordinator state *)

Record server := Server {
  replica_ports : list Z;
  lamport_clock : Z;
  voters_db : list voter;
  candidates : list string;
  voting_active : bool;
  voting_deadline : option Z;
  results_published : bool;
  max_concurrent_votes : Z;
  active_votes : Z;
  vote_queue : list entry;
  vote_counter : Z;
  in_progress_votes : gset Z;
  active_sessions : gmap string voter_info
}.

Definition set_lamport_clock (s : server) (x : Z) : server :=
  Server (replica_ports s) x (voters_db s) (candidates s) (voting_active s)
    (voting_deadline s) (results_published s) (max_concurrent_votes s)
    (active_votes s) (vote_queue s) (vote_counter s) (in_progress_votes s)
    (active_sessions s).

Definition set_voters_db (s : server) (x : list voter) : server :=
  Server (replica_ports s) (lamport_clock s) x (candidates s) (voting_active s)
    (voting_deadline s) (results_published s) (max_concurrent_votes s)
    (active_votes s) (vote_queue s) (vote_counter s) (in_progress_votes s)
    (active_sessions s).

Definition set_voting_active (s : server) (x : bool) : server :=
  Server (replica_ports s) (lamport_clock s) (voters_db s) (candidates s) x
    (voting_deadline s) (results_published s) (max_concurrent_votes s)
    (active_votes s) (vote_queue s) (vote_counter s) (in_progress_votes s)
    (active_sessions s).

Definition set_voting_deadline (s : server) (x : option Z) : server :=
  Server (replica_ports s) (lamport_clock s) (voters_db s) (candidates s)
    (voting_active s) x (results_published s) (max_concurrent_votes s)
    (active_votes s) (vote_queue s) (vote_counter s) (in_progress_votes s)
    (active_sessions s).

Definition set_results_published (s : server) (x : bool) : server :=
  Server (replica_ports s) (lamport_clock s) (voters_db s) (candidates s)
    (voting_active s) (voting_deadline s) x (max_concurrent_votes s)
    (active_votes s) (vote_queue s) (vote_counter s) (in_progress_votes s)
    (active_sessions s).

Definition set_active_votes (s : server) (x : Z) : server :=
  Server (replica_ports s) (lamport_clock s) (voters_db s) (candidates s)
    (voting_active s) (voting_deadline s) (results_published s)
    (max_concurrent_votes s) x (vote_queue s) (vote_counter s)
    (in_progress_votes s) (active_sessions s).

Definition set_vote_queue (s : server) (x : list entry) : server :=
  Server (replica_ports s) (lamport_clock s) (voters_db s) (candidates s)
    (voting_active s) (voting_deadline s) (results_published s)
    (max_concurrent_votes s) (active_votes s) x (vote_counter s)
    (in_progress_votes s) (active_sessions s).

Definition set_vote_counter (s : server) (x : Z) : server :=
  Server (replica_ports s) (lamport_clock s) (voters_db s) (candidates s)
    (voting_active s) (voting_deadline s) (results_published s)
    (max_concurrent_votes s) (active_votes s) (vote_queue s) x
    (in_progress_votes s) (active_sessions s).

Definition set_in_progress_votes (s : server) (x : gset Z) : server :=
  Server (replica_ports s) (lamport_clock s) (voters_db s) (candidates s)
    (voting_active s) (voting_deadline s) (results_published s)
    (max_concurrent_votes s) (active_votes s) (vote_queue s) (vote_counter s)
    x (active_sessions s).

Definition set_active_sessions (s : server) (x : gmap string voter_info) : server :=
  Server (replica_ports s) (lamport_clock s) (voters_db s) (candidates s)
    (voting_active s) (voting_deadline s) (results_published s)
    (max_concurrent_votes s) (active_votes s) (vote_queue s) (vote_counter s)
    (in_progress_votes s) x.

(** [VotingServer.__init__] with its default arguments. *)
Definition init_server : server :=
  Server [8001; 8002]%Z 0
    [ Voter 1 "Alice" false None; Voter 2 "Bob" false None;
      Voter 3 "Charlie" false None; Voter 4 "Diana" false None;
      Voter 5 "Eve" false None; Voter 6 "Frank" false None;
      Voter 7 "Grace" false None; Voter 8 "Henry" false None;
      Voter 9 "Ivy" false None; Voter 10 "Jack" false None ]
    [ "Candidate A"; "Candidate B"; "Candidate C"; "Candidate D";
      "Candidate E"; "Candidate F"; "Candidate G"; "Candidate H";
      "Candidate I"; "Candidate J" ]
    false None false 5 0 [] 0 ∅ ∅.

(** [self._increment_lamport_clock()] with the returned value dropped. *)
Definition tick (s : server) : server :=
  set_lamport_clock s (fst (_increment_lamport_clock (lamport_clock s))).

(** ** Voter registry *)

(** The lookup loop of [Login] and [_process_single_vote]: index and record
    of the first voter with [v["id"] == id and v["name"] == name]. *)
Fixpoint find_voter_from (i : nat) (db : list voter) (id : Z) (name : string)
    : option (nat * voter) :=
  match db with
  | [] => None
  | v :: rest =>
      if (v_id v =? id)%Z && String.eqb (v_name v) name then Some (i, v)
      else find_voter_from (S i) rest id name
  end.

Definition find_voter (db : list voter) (id : Z) (name : string) :=
  find_voter_from 0 db id name.

(** The lookup loop of [Register]: first voter with [voter["name"] == name]. *)
Fixpoint find_name (db : list voter) (name : string) : option voter :=
  match db with
  | [] => None
  | v :: rest => if String.eqb (v_name v) name then Some v else find_name rest name
  end.

(** [voter["has_voted"] = True; voter["vote"] = candidate] *)
Definition record_vote (v : voter) (cand : string) : voter :=
  Voter (v_id v) (v_name v) true (Some cand).

(** [voter["has_voted"] = False; voter["vote"] = None] *)
Definition rollback_vote (v : voter) : voter :=
  Voter (v_id v) (v_name v) false None.

(** [list.pop()] on a list: drops the last element. *)
Definition list_pop {A} (l : list A) : list A := take (length l - 1) l.

Definition failure (msg : string) : pydict :=
  [("success", VBool false); ("message", VStr msg)].

Definition success (msg : string) : pydict :=
  [("success", VBool true); ("message", VStr msg)].

(** ** [heapq] on a Python list

    [heappush], [heappop], [_siftdown] and [_siftup] as in CPython's
    [Lib/heapq.py], over an item type compared with [<]. The [while] loops
    take their iteration bound as fuel: [pos] strictly decreases in
    [_siftdown] and strictly increases towards [endpos] in [_siftup]. *)

Section Heapq.
Context {A : Type} (lt : A → A → bool).

(** The [while pos > startpos] loop of [_siftdown]; returns the list and the
    final [pos]. *)
Fixpoint siftdown_loop (fuel : nat) (heap : list A) (startpos pos : nat)
    (newitem : A) : list A * nat :=
  match fuel with
  | O => (heap, pos)
  | S fuel' =>
      if decide (startpos < pos) then
        let parentpos := (pos - 1) / 2 in
        match heap !! parentpos with
        | Some parent =>
            if lt newitem parent
            then siftdown_loop fuel' (<[pos:=parent]> heap) startpos parentpos newitem
            else (heap, pos)
        | None => (heap, pos)
        end
      else (heap, pos)
  end.

Definition _siftdown (heap : list A) (startpos pos : nat) : list A :=
  match heap !! pos with
  | Some newitem =>
      let '(heap', pos') := siftdown_loop pos heap startpos pos newitem in
      <[pos':=newitem]> heap'
  | None => heap
  end.

(** [heap.append(item); _siftdown(heap, 0, len(heap)-1)] *)
Definition heappush (heap : list A) (item : A) : list A :=
  let heap' := heap ++ [item] in
  _siftdown heap' 0 (length heap' - 1).

(** [if rightpos < endpos and not heap[childpos] < heap[rightpos]:
       childpos = rightpos] *)
Definition smaller_child (heap : list A) (childpos endpos : nat) : nat :=
  let rightpos := childpos + 1 in
  if decide (rightpos < endpos) then
    match heap !! childpos, heap !! rightpos with
    | Some l, Some r => if negb (lt l r) then rightpos else childpos
    | _, _ => childpos
    end
  else childpos.

(** The [while childpos < endpos] loop of [_siftup]. *)
Fixpoint siftup_loop (fuel : nat) (heap : list A) (pos endpos : nat)
    : list A * nat :=
  match fuel with
  | O => (heap, pos)
  | S fuel' =>
      let childpos := 2 * pos + 1 in
      if decide (childpos < endpos) then
        let childpos' := smaller_child heap childpos endpos in
        match heap !! childpos' with
        | Some c => siftup_loop fuel' (<[pos:=c]> heap) childpos' endpos
        | None => (heap, pos)
        end
      else (heap, pos)
  end.

Definition _siftup (heap : list A) (pos : nat) : list A :=
  let endpos := length heap in
  let startpos := pos in
  match heap !! pos with
  | Some newitem =>
      let '(heap', pos') := siftup_loop endpos heap pos endpos in
      _siftdown (<[pos':=newitem]> heap') startpos pos'
  | None => heap
  end.

(** [heappop]: [None] stands for the [IndexError] of [heap.pop()] on an
    empty list; otherwise the returned item and the list afterwards. *)
Definition heappop (heap : list A) : option (A * list A) :=
  match last heap with
  | None => None
  | Some lastelt =>
      let heap' := list_pop heap in
      match heap' !! 0 with
      | Some returnitem => Some (returnitem, _siftup (<[0:=lastelt]> heap') 0)
      | None => Some (lastelt, heap')
      end
  end.

End Heapq.

(** Heap order on the list: no element is below its parent, the element at
    index [(i - 1) / 2]. *)
Definition heap_ok {A} (lt : A → A → bool) (l : list A) : Prop :=
  ∀ i x p, 0 < i → l !! i = Some x → l !! ((i - 1) / 2) = Some p →
           lt x p = false.

(** The list during [_siftdown]: heap-ordered but for the slot [pos] that
    waits for [newitem]; what sits under [pos] is above both [newitem] and
    the parent of [pos]. *)
Record hole_down_ok {A} (lt : A → A → bool) (l : list A) (pos : nat)
    (newitem : A) : Prop := HoleDown {
  hd_edges : ∀ i x p, 0 < i → i ≠ pos →
      l !! i = Some x → l !! ((i - 1) / 2) = Some p → lt x p = false;
  hd_grand : ∀ c x g, 0 < pos → 0 < c → (c - 1) / 2 = pos →
      l !! c = Some x → l !! ((pos - 1) / 2) = Some g → lt x g = false;
  hd_item : ∀ c x, 0 < c → (c - 1) / 2 = pos →
      l !! c = Some x → lt x newitem = false
}.

(** The list during the loop of [_siftup]: heap-ordered but below the slot
    [pos], whose children are above the parent of [pos]. *)
Record hole_up_ok {A} (lt : A → A → bool) (l : list A) (pos : nat)
    : Prop := HoleUp {
  hu_edges : ∀ i x p, 0 < i → (i - 1) / 2 ≠ pos →
      l !! i = Some x → l !! ((i - 1) / 2) = Some p → lt x p = false;
  hu_grand : ∀ c x g, 0 < pos → 0 < c → (c - 1) / 2 = pos →
      l !! c = Some x → l !! ((pos - 1) / 2) = Some g → lt x g = false
}.


(** ** Ordering of heap entries

    Python compares tuples lexicographically: the first position where the
    two tuples differ decides. [lex] chains two comparison results. *)

Definition lex (c1 c2 : comparison) : comparison :=
  match c1 with
  | Eq => c2
  | Lt => Lt
  | Gt => Gt
  end.

Definition request_compare (a b : vote_request) : comparison :=
  lex (String_as_OT.compare (session_id a) (session_id b))
    (lex (String_as_OT.compare (candidate a) (candidate b))
       (lex (Z.compare (timestamp a) (timestamp b))
          (Z.compare (click_time a) (click_time b)))).

Definition entry_compare (a b : entry) : comparison :=
  lex (Z.compare (e_timestamp a) (e_timestamp b))
    (lex (Z.compare (e_voter_id a) (e_voter_id b))
       (lex (Z.compare (e_counter a) (e_counter b))
          (request_compare (e_request a) (e_request b)))).

(** [a < b] on heap entries. *)
Definition entry_lt (a b : entry) : bool :=
  match entry_compare a b with
  | Lt => true
  | _ => false
  end.

(** The ordering key named by the claim: (timestamp, voter id, counter). *)
Definition key_compare (a b : entry) : comparison :=
  lex (Z.compare (e_timestamp a) (e_timestamp b))
    (lex (Z.compare (e_voter_id a) (e_voter_id b))
       (Z.compare (e_counter a) (e_counter b))).

(** [a] is at or before [b] in the key order. *)
Definition key_le (a b : entry) : Prop := key_compare a b ≠ Gt.

(** [a] is strictly before [b] in the key order. *)
Definition key_lt (a b : entry) : Prop := key_compare a b = Lt.

(** A three-way comparison that is a total preorder. *)
Record cmp_order {A} (cmp : A → A → comparison) : Prop := CmpOrder {
  cmp_antisym : ∀ x y, cmp y x = CompOpp (cmp x y);
  cmp_lt_trans : ∀ x y z, cmp x y = Lt → cmp y z = Lt → cmp x z = Lt;
  cmp_eq_l : ∀ x y z, cmp x y = Eq → cmp x z = cmp y z
}.

(** ** RPC handlers *)

(** [str(n)] for a Python [int]. *)
Definition py_str (n : Z) : string :=
  DecimalString.NilZero.string_of_int (Z.to_int n).

(** Whether the character [c] occurs in [s]. *)
Fixpoint has_char (c : ascii) (s : string) : bool :=
  match s with
  | EmptyString => false
  | String a s' => Ascii.eqb a c || has_char c s'
  end.

(** [f"session_{voter_id}_{int(time.time())}"]; [now] is [int(time.time())]. *)
Definition make_session_id (voter_id now : Z) : string :=
  "session_" +:+ py_str voter_id +:+ "_" +:+ py_str now.

(** [Register(name)] *)
Definition Register (net : network) (name : string) (s0 : server)
    : server * pydict :=
  let s := tick s0 in
  match find_name (voters_db s) name with
  | Some voter =>
      (s, [("success", VBool true); ("id", VInt (v_id voter));
           ("message", VStr "Voter already registered")])
  | None =>
      let new_id := (Z.of_nat (length (voters_db s)) + 1)%Z in
      let new_voter := Voter new_id name false None in
      let s1 := set_voters_db s (voters_db s ++ [new_voter]) in
      if _replicate_to_replicas net (replica_ports s1) then
        (s1, [("success", VBool true); ("id", VInt new_id);
              ("message", VStr "Registration successful")])
      else
        (set_voters_db s1 (list_pop (voters_db s1)),
         failure "Registration failed due to replication error")
  end.

(** [Login(name, voter_id)]; [now] is [int(time.time())] at the creation of
    the session id and [now'] the later reading stored as [login_time]. *)
Definition Login (now now' : Z) (name : string) (voter_id : Z) (s0 : server)
    : server * pydict :=
  let s := tick s0 in
  match find_voter (voters_db s) voter_id name with
  | None => (s, failure "Invalid credentials")
  | Some (_, voter) =>
      let sid := make_session_id voter_id now in
      let s1 := set_active_sessions s
                  (<[sid := VoterInfo voter_id name now']> (active_sessions s)) in
      (s1, [("success", VBool true); ("session_id", VStr sid);
            ("has_voted", VBool (has_voted voter));
            ("message", VStr "Login successful")])
  end.

(** [GetOptions()] *)
Definition GetOptions (s : server) : pydict :=
  [("success", VBool true); ("candidates", VStrList (candidates s))].

(** [Vote(session_id, candidate, timestamp, click_time)] *)
Definition Vote (sid cand : string) (ts click : Z) (s0 : server)
    : server * pydict :=
  let s := tick s0 in
  if negb (bool_decide (cand ∈ candidates s)) then
    (s, failure "Invalid candidate")
  else
    let vote_request := VoteRequest sid cand ts click in
    match active_sessions s !! sid with
    | None => (s, failure "Invalid session")
    | Some voter_info =>
        let voter_id := vi_id voter_info in
        let s1 := set_vote_queue s
                    (heappush entry_lt (vote_queue s)
                       (Entry ts voter_id (vote_counter s) vote_request)) in
        let s2 := set_vote_counter s1 (vote_counter s1 + 1)%Z in
        (s2, [("success", VBool true);
              ("message", VStr "Vote queued for processing");
              ("queued", VBool true)])
    end.

(** [GetVoterDatabase()] *)
Definition GetVoterDatabase (s : server) : pydict :=
  [("success", VBool true);
   ("voters", VVoters ((λ v, (v_id v, v_name v, has_voted v, vote v)) <$> voters_db s))].

(** [SetTimer(end_time)]: the replication result is not looked at. *)
Definition SetTimer (net : network) (end_time : Z) (s : server) : server * pydict :=
  let s1 := set_voting_deadline s (Some end_time) in
  let _ := _replicate_to_replicas net (replica_ports s1) in
  (s1, success "Timer set successfully").

(** [StartVote()] *)
Definition StartVote (net : network) (s : server) : server * pydict :=
  let s1 := set_results_published (set_voting_active s true) false in
  let _ := _replicate_to_replicas net (replica_ports s1) in
  (s1, success "Voting started").

(** [StopVote()] *)
Definition StopVote (net : network) (s : server) : server * pydict :=
  let s1 := set_voting_active s false in
  let _ := _replicate_to_replicas net (replica_ports s1) in
  (s1, success "Voting stopped").

(** The [for voter in self.voters_db] loop of [PublishResults]. *)
Fixpoint collect_votes (db : list voter) (votes : list string) : list string :=
  match db with
  | [] => votes
  | voter :: rest =>
      match vote voter with
      | Some c =>
          if has_voted voter && negb (String.eqb c "")
          then collect_votes rest (votes ++ [c])
          else collect_votes rest votes
      | None => collect_votes rest votes
      end
  end.

(** [PublishResults()]: what the local [votes] holds when the body ends
    ([None] when the body returns before [votes] is bound) and the value
    returned, which is [None] where the body runs off its end. *)
Definition PublishResults (s : server)
    : option (list string) * option pydict :=
  if voting_active s then
    (None, Some (failure "Cannot publish results while voting is active"))
  else
    let votes := collect_votes (voters_db s) [] in
    (Some votes, None).

(** ** Admission task: [_process_single_vote] *)

(** The deadline test [self.voting_deadline and click_time > self.voting_deadline]:
    [None] and [0] are falsy. *)
Definition after_deadline (deadline : option Z) (click : Z) : bool :=
  match deadline with
  | None => false
  | Some d => negb (d =? 0)%Z && (d <? click)%Z
  end.

(** Lines 201-206: mark the voter in progress unless already marked; the
    second component is [marked_in_progress]. *)
Definition ensure_marked (s : server) (voter_id : option Z) : server * bool :=
  match voter_id with
  | Some id =>
      if bool_decide (id ∉ in_progress_votes s)
      then (set_in_progress_votes s ({[id]} ∪ in_progress_votes s), true)
      else (s, false)
  | None => (s, false)
  end.

(** Lines 210-218: the early returns before the clock update; [None] when
    every check passes. *)
Definition validate (s : server) (voter_info : option voter_info)
    (req : vote_request) : option pydict :=
  match voter_info with
  | None => Some (failure "Invalid session")
  | Some _ =>
      if negb (voting_active s) then Some (failure "Voting is not active")
      else if after_deadline (voting_deadline s) (click_time req)
      then Some (failure "Vote submitted after deadline")
      else None
  end.

(** Lines 224-255: the block under [self.db_lock]. *)
Definition commit_vote (net : network) (s : server) (info : voter_info)
    (req : vote_request) : server * pydict :=
  match find_voter (voters_db s) (vi_id info) (vi_name info) with
  | None => (s, failure "Voter not found")
  | Some (i, voter) =>
      if has_voted voter then (s, failure "Already voted")
      else
        let recorded := record_vote voter (candidate req) in
        let s1 := set_voters_db s (<[i := recorded]> (voters_db s)) in
        if _replicate_to_replicas net (replica_ports s1) then
          (s1, success "Vote recorded successfully")
        else
          (set_voters_db s1 (<[i := rollback_vote recorded]> (voters_db s1)),
           failure "Replication failed")
  end.

(** Lines 262-269: remove the voter's in-progress mark if it is there. *)
Definition clear_mark (s : server) (voter_id : option Z) : server :=
  match voter_id with
  | Some id =>
      if bool_decide (id ∈ in_progress_votes s)
      then set_in_progress_votes s (in_progress_votes s ∖ {[id]})
      else s
  | None => s
  end.

(** [_process_single_vote(vote_request)] run from start to end without
    interruption: the state afterwards and the value returned. *)
Definition _process_single_vote (net : network) (s : server)
    (req : vote_request) : server * option pydict :=
  let voter_info := active_sessions s !! session_id req in
  let voter_id := vi_id <$> voter_info in
  let s1 := set_active_votes s (active_votes s + 1)%Z in
  let '(s2, marked_in_progress) := ensure_marked s1 voter_id in
  let '(s3, result) :=
    (* try: *)
    match validate s2 voter_info req, voter_info with
    | Some r, _ => (s2, Some r)
    | None, Some info =>
        let s2' := set_lamport_clock s2
                     (fst (_update_lamport_clock (lamport_clock s2) (timestamp req))) in
        let '(s', r) := commit_vote net s2' info req in
        (s', Some r)
    | None, None => (s2, None)
    end in
  (* finally: *)
  let s4 := set_active_votes s3 (active_votes s3 - 1)%Z in
  (clear_mark s4 voter_id, result).

(** The same thread body cut at its lock boundaries, for the interleaving
    semantics: [task_pc] names the next block to run and [task] holds the
    thread's local variables. *)
Inductive task_pc :=
  | TLookup      (* with self.session_lock: voter_info = ...get(session_id) *)
  | TIncActive   (* with self.vote_lock: self.active_votes += 1 *)
  | TMark        (* with self.in_progress_lock: ensure the voter is marked *)
  | TValidate    (* session, voting_active and deadline checks *)
  | TObserve     (* self._update_lamport_clock(timestamp) *)
  | TCommit      (* with self.db_lock: find, check, record, replicate *)
  | TDecActive   (* finally: with self.vote_lock: self.active_votes -= 1 *)
  | TClearMark   (* finally: with self.in_progress_lock: remove the mark *)
  | TDone.

#[global] Instance task_pc_eq_dec : EqDecision task_pc.
Proof. solve_decision. Defined.

Record task := Task {
  t_request : vote_request;
  t_voter_info : option voter_info;
  t_voter_id : option Z;
  t_marked_in_progress : bool;
  t_result : option pydict;
  t_pc : task_pc
}.

Definition new_task (req : vote_request) : task :=
  Task req None None false None TLookup.

Definition task_at (t : task) (pc : task_pc) : task :=
  Task (t_request t) (t_voter_info t) (t_voter_id t) (t_marked_in_progress t)
    (t_result t) pc.

Definition task_return (t : task) (r : option pydict) : task :=
  Task (t_request t) (t_voter_info t) (t_voter_id t) (t_marked_in_progress t)
    r TDecActive.

(** One block of the thread body. *)
Definition task_step (net : network) (s : server) (t : task) : server * task :=
  match t_pc t with
  | TLookup =>
      let voter_info := active_sessions s !! session_id (t_request t) in
      (s, Task (t_request t) voter_info (vi_id <$> voter_info) false None TIncActive)
  | TIncActive =>
      (set_active_votes s (active_votes s + 1)%Z, task_at t TMark)
  | TMark =>
      let '(s', marked) := ensure_marked s (t_voter_id t) in
      (s', Task (t_request t) (t_voter_info t) (t_voter_id t) marked
             (t_result t) TValidate)
  | TValidate =>
      match validate s (t_voter_info t) (t_request t) with
      | Some r => (s, task_return t (Some r))
      | None => (s, task_at t TObserve)
      end
  | TObserve =>
      (set_lamport_clock s
         (fst (_update_lamport_clock (lamport_clock s) (timestamp (t_request t)))),
       task_at t TCommit)
  | TCommit =>
      match t_voter_info t with
      | Some info =>
          let '(s', r) := commit_vote net s info (t_request t) in
          (s', task_return t (Some r))
      | None => (s, task_return t None)
      end
  | TDecActive =>
      (set_active_votes s (active_votes s - 1)%Z, task_at t TClearMark)
  | TClearMark => (clear_mark s (t_voter_id t), task_at t TDone)
  | TDone => (s, t)
  end.

Fixpoint run_task (n : nat) (net : network) (s : server) (t : task)
    : server * task :=
  match n with
  | O => (s, t)
  | S n' => let '(s', t') := task_step net s t in run_task n' net s' t'
  end.

(** ** Scheduler: [_process_vote_queue] *)

Inductive sched_pc :=
  | SCheck                                      (* if active_votes < max *)
  | SPop                                        (* with self.vote_queue_lock *)
  | SLookup (req : vote_request)                (* with self.session_lock *)
  | SGuard (req : vote_request) (voter_id : Z)  (* with self.in_progress_lock *)
  | SSpawn (req : vote_request).                (* vote_thread.start() *)

(** One block of the loop body: the state afterwards, the next block and the
    request handed to a newly started thread, if any. *)
Definition sched_step (s : server) (pc : sched_pc)
    : server * sched_pc * option vote_request :=
  match pc with
  | SCheck =>
      if (active_votes s <? max_concurrent_votes s)%Z
      then (s, SPop, None)
      else (s, SCheck, None)
  | SPop =>
      match vote_queue s with
      | [] => (s, SCheck, None)
      | _ =>
          match heappop entry_lt (vote_queue s) with
          | Some (e, queue') => (set_vote_queue s queue', SLookup (e_request e), None)
          | None => (s, SCheck, None)
          end
      end
  | SLookup req =>
      match active_sessions s !! session_id req with
      | None => (s, SCheck, None)
      | Some voter_info => (s, SGuard req (vi_id voter_info), None)
      end
  | SGuard req voter_id =>
      if bool_decide (voter_id ∈ in_progress_votes s) then
        let s1 := set_vote_queue s
                    (heappush entry_lt (vote_queue s)
                       (Entry (timestamp req) voter_id (vote_counter s) req)) in
        (set_vote_counter s1 (vote_counter s1 + 1)%Z, SCheck, None)
      else
        (set_in_progress_votes s ({[voter_id]} ∪ in_progress_votes s),
         SSpawn req, None)
  | SSpawn req => (s, SCheck, Some req)
  end.

(** ** The running coordinator

    One scheduler thread, the admission threads started so far and the RPC
    server, which handles one call at a time. *)

Record system := System {
  srv : server;
  sched : sched_pc;
  tasks : list task
}.

Definition init_system : system := System init_server SCheck [].

Inductive rpc_call :=
  | CallRegister (net : network) (name : string)
  | CallLogin (now now' : Z) (name : string) (voter_id : Z)
  | CallGetOptions
  | CallVote (sid cand : string) (ts click : Z)
  | CallGetVoterDatabase
  | CallSetTimer (net : network) (end_time : Z)
  | CallStartVote (net : network)
  | CallStopVote (net : network)
  | CallPublishResults.

Definition handle (c : rpc_call) (s : server) : server :=
  match c with
  | CallRegister net name => fst (Register net name s)
  | CallLogin now now' name voter_id => fst (Login now now' name voter_id s)
  | CallGetOptions => s
  | CallVote sid cand ts click => fst (Vote sid cand ts click s)
  | CallGetVoterDatabase => s
  | CallSetTimer net end_time => fst (SetTimer net end_time s)
  | CallStartVote net => fst (StartVote net s)
  | CallStopVote net => fst (StopVote net s)
  | CallPublishResults => s
  end.

Inductive action :=
  | ASched
  | ATask (i : nat) (net : network)
  | ARpc (c : rpc_call).

(** One step of one thread; [None] when thread [i] does not exist or has
    finished. *)
Definition exec (a : action) (sys : system) : option system :=
  match a with
  | ASched =>
      let '(s', pc', started) := sched_step (srv sys) (sched sys) in
      Some (System s' pc'
              (tasks sys ++ match started with
                            | Some req => [new_task req]
                            | None => []
                            end))
  | ATask i net =>
      match tasks sys !! i with
      | Some t =>
          match t_pc t with
          | TDone => None
          | _ =>
              let '(s', t') := task_step net (srv sys) t in
              Some (System s' (sched sys) (<[i := t']> (tasks sys)))
          end
      | None => None
      end
  | ARpc c => Some (System (handle c (srv sys)) (sched sys) (tasks sys))
  end.

Definition step (sys sys' : system) : Prop := ∃ a, exec a sys = Some sys'.

Fixpoint exec_all (acts : list action) (sys : system) : option system :=
  match acts with
  | [] => Some sys
  | a :: rest =>
      match exec a sys with
      | Some sys' => exec_all rest sys'
      | None => None
      end
  end.

Inductive reachable : system → Prop :=
  | reachable_init : reachable init_system
  | reachable_step sys sys' : reachable sys → step sys sys' → reachable sys'.

(** Admission threads that have been started and have not finished. *)
Definition outstanding (sys : system) : list task :=
  filter (λ t, t_pc t ≠ TDone) (tasks sys).

(** ** Invariants of the running coordinator *)

(** The request the scheduler holds between popping it and handing it on. *)
Definition sched_request (pc : sched_pc) : option vote_request :=
  match pc with
  | SLookup r | SGuard r _ | SSpawn r => Some r
  | SCheck | SPop => None
  end.

(** The queue is a heap of entries with distinct counters below
    [vote_counter], each keyed by its request's timestamp and carrying a
    listed candidate. *)
Record queue_inv (s : server) : Prop := QueueInv {
  qi_heap : heap_ok entry_lt (vote_queue s);
  qi_counters : ∀ e, e ∈ vote_queue s → (e_counter e < vote_counter s)%Z;
  qi_nodup : NoDup (e_counter <$> vote_queue s);
  qi_key : ∀ e, e ∈ vote_queue s → e_timestamp e = timestamp (e_request e);
  qi_cand : ∀ e, e ∈ vote_queue s → candidate (e_request e) ∈ candidates s
}.

(** Every recorded ballot names a listed candidate. *)
Definition ballots_inv (s : server) : Prop :=
  ∀ v, v ∈ voters_db s → has_voted v = true →
       ∃ c, vote v = Some c ∧ c ∈ candidates s.

(** Every request held by the scheduler or by an admission thread names a
    listed candidate. *)
Definition threads_inv (sys : system) : Prop :=
  (∀ r, sched_request (sched sys) = Some r → candidate r ∈ candidates (srv sys))
  ∧ (∀ t, t ∈ tasks sys → candidate (t_request t) ∈ candidates (srv sys)).

Record coordinator_inv (sys : system) : Prop := CoordinatorInv {
  inv_queue : queue_inv (srv sys);
  inv_ballots : ballots_inv (srv sys);
  inv_threads : threads_inv sys;
  inv_candidates : candidates (srv sys) = candidates init_server
}.

(** The voter identified by [(id, name)] has a recorded ballot. *)
Definition voted (s : server) (id : Z) (name : string) : Prop :=
  ∃ i v, find_voter (voters_db s) id name = Some (i, v) ∧ has_voted v = true.

(** ** Example runs *)

Definition net_up : network := λ _, Returned true.
Definition net_down : network := λ _, Raised.

(** Alice (timestamp 5) and then Bob (timestamp 3) submit a vote; the
    scheduler has passed its budget check and is about to pop. *)
Definition two_votes_schedule : list action :=
  [ ARpc (CallLogin 100 100 "Alice" 1); ARpc (CallLogin 100 100 "Bob" 2);
    ARpc (CallStartVote net_up);
    ARpc (CallVote "session_1_100" "Candidate A" 5 100);
    ARpc (CallVote "session_2_100" "Candidate B" 3 100);
    ASched ].

Definition run_from_init (acts : list action) : system :=
  default init_system (exec_all acts init_system).

Definition two_votes_system : system := run_from_init two_votes_schedule.

(** Alice logs in, voting starts, her vote is queued, scheduled and admitted
    with replication succeeding. *)
Definition one_vote_schedule : list action :=
  [ ARpc (CallLogin 100 100 "Alice" 1); ARpc (CallStartVote net_up);
    ARpc (CallVote "session_1_100" "Candidate A" 5 100) ]
  ++ repeat ASched 5 ++ repeat (ATask 0 net_up) 8.

Definition one_vote_system : system := run_from_init one_vote_schedule.

(** Six voters log in and vote; the scheduler runs six rounds of its loop
    before any admission thread runs, then every thread runs its first two
    blocks. *)
Definition six_logins : list action :=
  [ ARpc (CallLogin 100 100 "Alice" 1); ARpc (CallLogin 100 100 "Bob" 2);
    ARpc (CallLogin 100 100 "Charlie" 3); ARpc (CallLogin 100 100 "Diana" 4);
    ARpc (CallLogin 100 100 "Eve" 5); ARpc (CallLogin 100 100 "Frank" 6) ].

Definition six_votes : list action :=
  [ ARpc (CallStartVote net_up);
    ARpc (CallVote "session_1_100" "Candidate A" 1 100);
    ARpc (CallVote "session_2_100" "Candidate A" 2 100);
    ARpc (CallVote "session_3_100" "Candidate A" 3 100);
    ARpc (CallVote "session_4_100" "Candidate A" 4 100);
    ARpc (CallVote "session_5_100" "Candidate A" 5 100);
    ARpc (CallVote "session_6_100" "Candidate A" 6 100) ].

Definition over_budget_schedule : list action :=
  six_logins ++ six_votes ++ repeat ASched 30
  ++ flat_map (λ i, [ATask i net_up; ATask i net_up]) (seq 0 6).

Definition over_budget_system : system := run_from_init over_budget_schedule.

(** Alice is logged in and voting is open. *)
Definition open_poll_server : server :=
  srv (run_from_init [ ARpc (CallLogin 100 100 "Alice" 1);
                       ARpc (CallStartVote net_up) ]).

(** Alice's vote is committed and voting has been stopped. *)
Definition closed_poll_system : system :=
  run_from_init (one_vote_schedule ++ [ARpc (CallStopVote net_up)]).

(** * Derived notions: registry, sessions, in-progress guard, replica *)

(** Alice is logged in, voting is open and her vote is queued. *)
Definition one_queued_system : system :=
  run_from_init [ ARpc (CallLogin 100 100 "Alice" 1);
                  ARpc (CallStartVote net_up);
                  ARpc (CallVote "session_1_100" "Candidate A" 5 100) ].

(** Whether a thread at block [pc] has run [self.active_votes += 1] and not
    yet [self.active_votes -= 1]. *)
Definition in_budget_window (pc : task_pc) : bool :=
  match pc with
  | TMark | TValidate | TObserve | TCommit | TDecActive => true
  | TLookup | TIncActive | TClearMark | TDone => false
  end.

(** The admission threads counted by [active_votes]. *)
Definition counted (sys : system) : list task :=
  filter (λ t, in_budget_window (t_pc t) = true) (tasks sys).

(** Ids are handed out in order: the record at index [i] has id [i + 1];
    names are pairwise distinct. *)
Definition registry_inv (db : list voter) : Prop :=
  (∀ i v, db !! i = Some v → v_id v = (Z.of_nat i + 1)%Z)
  ∧ NoDup (v_name <$> db).

(** The voter a request is for: the id stored under its session id. *)
Definition request_voter (s : server) (req : vote_request) : option Z :=
  vi_id <$> active_sessions s !! session_id req.

(** Some record of the registry matches [(id, name)]. *)
Definition registered (s : server) (id : Z) (name : string) : Prop :=
  ∃ i v, find_voter (voters_db s) id name = Some (i, v).

(** Every session is stored under an id built from its voter id and names a
    registered voter. *)
Definition session_inv (s : server) : Prop :=
  ∀ sid info, active_sessions s !! sid = Some info →
    (∃ now, sid = make_session_id (vi_id info) now)
    ∧ registered s (vi_id info) (vi_name info).

(** The request held by the scheduler resolves to a voter, and to the voter
    id the scheduler has read for it. *)
Definition sched_resolves (s : server) (pc : sched_pc) : Prop :=
  match pc with
  | SLookup req | SSpawn req => is_Some (request_voter s req)
  | SGuard req voter_id => request_voter s req = Some voter_id
  | SCheck | SPop => True
  end.

(** The request of an admission thread resolves to a voter; past its first
    block the thread holds that session's record; it has not answered
    "Invalid session" or "Voter not found". *)
Record task_resolves (s : server) (t : task) : Prop := TaskResolves {
  tr_session : is_Some (request_voter s (t_request t));
  tr_locals : t_pc t ≠ TLookup →
    ∃ info, t_voter_info t = Some info ∧ t_voter_id t = Some (vi_id info)
            ∧ request_voter s (t_request t) = Some (vi_id info)
            ∧ registered s (vi_id info) (vi_name info);
  tr_result : t_result t ≠ Some (failure "Invalid session")
              ∧ t_result t ≠ Some (failure "Voter not found")
}.

Record resolution_inv (sys : system) : Prop := ResolutionInv {
  ri_sessions : session_inv (srv sys);
  ri_queue : ∀ e, e ∈ vote_queue (srv sys) →
      request_voter (srv sys) (e_request e) = Some (e_voter_id e);
  ri_sched : sched_resolves (srv sys) (sched sys);
  ri_tasks : ∀ t, t ∈ tasks sys → task_resolves (srv sys) t
}.

(** What is known in [s] about sessions and registered voters still holds
    in [s']. *)
Definition extends (s s' : server) : Prop :=
  (∀ req v, request_voter s req = Some v → request_voter s' req = Some v)
  ∧ (∀ id name, registered s id name → registered s' id name).

(** The voter an unfinished admission thread works for. *)
Definition holder_of (s : server) (t : task) : option Z :=
  if decide (t_pc t = TDone) then None else request_voter s (t_request t).

(** The voters for whom an admission is in flight: one per unfinished
    thread, plus the voter the scheduler has marked and is about to start a
    thread for. *)
Definition holders (sys : system) : list Z :=
  omap (holder_of (srv sys)) (tasks sys)
  ++ match sched sys with
     | SSpawn req => option_list (request_voter (srv sys) req)
     | _ => []
     end.

(** The in-progress marks are exactly the voters with an admission in
    flight, each once. *)
Definition guard_inv (sys : system) : Prop :=
  NoDup (holders sys)
  ∧ ∀ v, v ∈ in_progress_votes (srv sys) ↔ v ∈ holders sys.


(** ** The replica ([replica.py])

    The replica keeps its voters as the dicts it was sent, so its database is
    a list of [pydict]. A Python exception inside [ReplicateUpdate] is caught
    by its [try]/[except] and turned into the reply [False]; what was
    assigned before the exception stays assigned. *)

(** [d[k] = v]: an existing key keeps its place, a new one goes last. *)
Fixpoint dict_set (k : string) (v : pyval) (d : pydict) : pydict :=
  match d with
  | [] => [(k, v)]
  | (k', v') :: d' =>
      if String.eqb k k' then (k', v) :: d' else (k', v') :: dict_set k v d'
  end.

(** Python's [a == b] on the values of [pyval]: [bool] is a subtype of [int]
    ([True == 1]), two empty lists are equal whatever they were meant to
    hold, and values of different types are otherwise unequal. *)
Definition py_eq (a b : pyval) : bool :=
  match a, b with
  | VNone, VNone => true
  | VBool x, VBool y => Bool.eqb x y
  | VInt x, VInt y => (x =? y)%Z
  | VBool x, VInt y => ((if x then 1 else 0) =? y)%Z
  | VInt x, VBool y => (x =? (if y then 1 else 0))%Z
  | VStr x, VStr y => String.eqb x y
  | VStrList x, VStrList y => bool_decide (x = y)
  | VVoters x, VVoters y => bool_decide (x = y)
  | VStrList x, VVoters y => bool_decide (x = [] ∧ y = [])
  | VVoters x, VStrList y => bool_decide (x = [] ∧ y = [])
  | _, _ => false
  end.

(** A voter record as the dict it stands for. *)
Definition voter_dict (v : voter) : pydict :=
  [("id", VInt (v_id v)); ("name", VStr (v_name v));
   ("has_voted", VBool (has_voted v));
   ("vote", match vote v with Some c => VStr c | None => VNone end)].

(** The [replication_data] of [_process_single_vote]. *)
Definition vote_payload (v : voter) (candidate : string) (timestamp : Z)
    : pydict :=
  [("voter_id", VInt (v_id v)); ("candidate", VStr candidate);
   ("timestamp", VInt timestamp)].





Module Replica.

Record state := State {
  voters_db : list pydict;
  voting_active : bool;
  voting_deadline : pyval;
  results_published : bool
}.

Definition set_voters_db (r : state) (x : list pydict) : state :=
  State x (voting_active r) (voting_deadline r) (results_published r).

Definition set_voting_active (r : state) (x : bool) : state :=
  State (voters_db r) x (voting_deadline r) (results_published r).

Definition set_voting_deadline (r : state) (x : pyval) : state :=
  State (voters_db r) (voting_active r) x (results_published r).

Definition set_results_published (r : state) (x : bool) : state :=
  State (voters_db r) (voting_active r) (voting_deadline r) x.

(** [ReplicaServer.__init__] *)
Definition init : state :=
  State (voter_dict <$> [ Voter 1 "Alice" false None; Voter 2 "Bob" false None;
      Voter 3 "Charlie" false None; Voter 4 "Diana" false None;
      Voter 5 "Eve" false None; Voter 6 "Frank" false None;
      Voter 7 "Grace" false None; Voter 8 "Henry" false None;
      Voter 9 "Ivy" false None; Voter 10 "Jack" false None ])
    false VNone false.

(** The loop of the ["vote"] branch: the first voter whose id equals
    [voter_id] is marked and the loop stops. [None] is the [KeyError] of a
    voter without an ["id"], raised before anything was assigned. *)
Fixpoint vote_loop (db : list pydict) (voter_id candidate : pyval)
    : option (list pydict) :=
  match db with
  | [] => Some []
  | voter :: rest =>
      match dict_get "id" voter with
      | None => None
      | Some id =>
          if py_eq id voter_id then
            Some (dict_set "vote" candidate
                    (dict_set "has_voted" (VBool true) voter) :: rest)
          else (voter ::.) <$> vote_loop rest voter_id candidate
      end
  end.

(** The loop of the ["register"] branch, giving [exists]; [None] is the
    [KeyError] of [voter["id"] == new_voter["id"]]. *)
Fixpoint exists_loop (db : list pydict) (new_voter : pydict) : option bool :=
  match db with
  | [] => Some false
  | voter :: rest =>
      match dict_get "id" voter, dict_get "id" new_voter with
      | Some a, Some b =>
          if py_eq a b then Some true else exists_loop rest new_voter
      | _, _ => None
      end
  end.

Section ReplicateUpdate.

(** Whether [datetime.fromtimestamp] accepts an integer on this platform. *)
Variable timestamp_in_range : Z → bool.

(** Whether [datetime.fromtimestamp(v)] returns; it raises [TypeError] on
    what is not a number. *)
Definition fromtimestamp_ok (v : pyval) : bool :=
  match v with
  | VInt z => timestamp_in_range z
  | VBool b => timestamp_in_range (if b then 1 else 0)
  | _ => false
  end.

(** [ReplicateUpdate(operation, data)]: the new state and the reply. *)
Definition ReplicateUpdate (operation : string) (data : pydict) (r : state)
    : state * bool :=
  if String.eqb operation "vote" then
    match dict_get "voter_id" data, dict_get "candidate" data with
    | Some voter_id, Some candidate =>
        match vote_loop (voters_db r) voter_id candidate with
        | Some db => (set_voters_db r db, true)
        | None => (r, false)
        end
    | _, _ => (r, false)
    end
  else if String.eqb operation "register" then
    let new_voter := data in
    match exists_loop (voters_db r) new_voter with
    | None => (r, false)
    | Some true => (r, true)
    | Some false =>
        let r1 := set_voters_db r (voters_db r ++ [new_voter]) in
        (* the log line reads new_voter['name'] and new_voter['id'] *)
        match dict_get "name" new_voter, dict_get "id" new_voter with
        | Some _, Some _ => (r1, true)
        | _, _ => (r1, false)
        end
    end
  else if String.eqb operation "set_timer" then
    match dict_get "end_time" data with
    | None => (r, false)
    | Some end_time =>
        (* the log line calls datetime.fromtimestamp(data['end_time']) *)
        (set_voting_deadline r end_time, fromtimestamp_ok end_time)
    end
  else if String.eqb operation "start_vote" then
    (set_results_published (set_voting_active r true) false, true)
  else if String.eqb operation "stop_vote" then
    (set_voting_active r false, true)
  else if String.eqb operation "publish_results" then
    (set_results_published r true, true)
  else (r, false).

End ReplicateUpdate.

End Replica.

(** * Theorems *)

(** ** Logical clock *)

Lemma StronglySorted_lookup_lt {A} (R : A → A → Prop) (l : list A) :
  StronglySorted R l →
  ∀ (i j : nat) x y, l !! i = Some x → l !! j = Some y → i < j → R x y.
Proof.
  induction 1 as [|a l Hs IH Hall]; intros i j x y Hi Hj Hij.
  - by rewrite lookup_nil in Hi.
  - destruct j as [|j]; [lia|]. simpl in Hj.
    destruct i as [|i]; simpl in Hi.
    + injection Hi as <-. rewrite Forall_forall in Hall.
      apply Hall. eapply list_elem_of_lookup_2. exact Hj.
    + eapply IH; eauto. lia.
Qed.

Lemma run_call_fst_snd clk c : fst (run_call clk c) = snd (run_call clk c).
Proof. by destruct c. Qed.

Lemma run_call_gt clk c : (clk < snd (run_call clk c))%Z.
Proof. destruct c; simpl; lia. Qed.

(** Every value returned by a run is above the starting counter, and the
    returned values are strictly increasing. *)
Lemma run_calls_above clk cs :
  Forall (λ r, (clk < r)%Z) (snd (run_calls clk cs))
  ∧ StronglySorted Z.lt (snd (run_calls clk cs)).
Proof.
  revert clk. induction cs as [|c cs IH]; intros clk; simpl.
  - split; constructor.
  - pose proof (run_call_gt clk c) as Hgt.
    pose proof (run_call_fst_snd clk c) as Heq.
    destruct (run_call clk c) as [clk1 r] eqn:Hc. simpl in *. subst r.
    destruct (IH clk1) as [Habove Hsorted].
    destruct (run_calls clk1 cs) as [clk' rs]. simpl in *.
    split.
    + constructor; [done|].
      eapply Forall_impl; [exact Habove|]. simpl. intros. lia.
    + by constructor.
Qed.

(** C6. [tick] increments the counter by one and returns it; [observe t]
    sets the counter to [max(current, t) + 1] and returns it; over any
    serialized sequence of [tick] and [observe] calls every returned value
    is strictly greater than each value returned before it. *)
Theorem lamport_clock_monotone :
  (∀ clk, _increment_lamport_clock clk = ((clk + 1)%Z, (clk + 1)%Z))
  ∧ (∀ clk t, _update_lamport_clock clk t
              = ((Z.max clk t + 1)%Z, (Z.max clk t + 1)%Z))
  ∧ (∀ clk cs, StronglySorted Z.lt (snd (run_calls clk cs)))
  ∧ (∀ clk cs (i j : nat) ri rj,
        snd (run_calls clk cs) !! i = Some ri →
        snd (run_calls clk cs) !! j = Some rj →
        i < j → (ri < rj)%Z).
Proof.
  split; [done|]. split; [done|]. split.
  - intros clk cs. apply run_calls_above.
  - intros clk cs i j ri rj Hi Hj Hij.
    destruct (run_calls_above clk cs) as [_ Hs].
    eapply (StronglySorted_lookup_lt Z.lt); eauto.
Qed.

Lemma lamport_clock_monotone_witness :
  snd (run_calls 4 [Tick; Observe 9; Observe 2; Tick]) = [5; 10; 11; 12]%Z
  ∧ (10 < 12)%Z.
Proof.
  split; [reflexivity|].
  destruct lamport_clock_monotone as (_ & _ & _ & H).
  apply (H 4%Z [Tick; Observe 9; Observe 2; Tick] 1 3); [reflexivity|reflexivity|lia].
Defined.

(** ** Replicator *)

Lemma replicate_loop_attempted net ports : ∀ i st,
  attempted (replicate_loop net i ports st) = attempted st ++ ports.
Proof.
  induction ports as [|p ports IH]; intros i st; simpl.
  - by rewrite app_nil_r.
  - rewrite IH. destruct (net i) as [[]|]; simpl; by rewrite <- app_assoc.
Qed.

Lemma replicate_loop_successful net ports : ∀ i st,
  (successful_replicas st ≤ successful_replicas (replicate_loop net i ports st))%Z
  ∧ ((successful_replicas st < successful_replicas (replicate_loop net i ports st))%Z
     ↔ ∃ k, k < length ports ∧ net (i + k) = Returned true).
Proof.
  induction ports as [|p ports IH]; intros i st; simpl.
  - split; [lia|]. split; [lia|]. intros (k & Hk & _). lia.
  - match goal with |- context [replicate_loop net (S i) ports ?x] =>
      destruct (IH (S i) x) as [Hle Hiff] end.
    destruct (net i) as [[]|] eqn:Hnet; simpl in *.
    + split; [lia|]. split; [|lia]. intros _. exists 0.
      rewrite Nat.add_0_r. split; [lia|done].
    + split; [lia|]. rewrite Hiff. split.
      * intros (k & Hk & Hack). exists (S k). split; [lia|].
        by rewrite Nat.add_succ_r.
      * intros (k & Hk & Hack). destruct k as [|k].
        { rewrite Nat.add_0_r in Hack. congruence. }
        exists k. split; [lia|]. by rewrite Nat.add_succ_r in Hack.
    + split; [lia|]. rewrite Hiff. split.
      * intros (k & Hk & Hack). exists (S k). split; [lia|].
        by rewrite Nat.add_succ_r.
      * intros (k & Hk & Hack). destruct k as [|k].
        { rewrite Nat.add_0_r in Hack. congruence. }
        exists k. split; [lia|]. by rewrite Nat.add_succ_r in Hack.
Qed.

(** C5. For every list of replica endpoints and every behaviour of the
    replicas, delivery is attempted to every configured endpoint, in order,
    whatever the earlier calls did (returned falsy or raised), and the call
    succeeds exactly when at least one replica acknowledges the update. *)
Theorem replicate_attempts_all_and_needs_one_ack net replica_ports :
  attempted (replicate_run net replica_ports) = replica_ports
  ∧ (_replicate_to_replicas net replica_ports = true
     ↔ ∃ i, i < length replica_ports ∧ net i = Returned true).
Proof.
  unfold _replicate_to_replicas, replicate_run. split.
  - by rewrite replicate_loop_attempted.
  - destruct (replicate_loop_successful net replica_ports 0 (LoopState 0 []))
      as [_ Hiff].
    simpl in Hiff. rewrite <- Hiff. rewrite Z.leb_le. lia.
Qed.

(** ** Voter registry *)

Lemma find_voter_from_spec db id name : ∀ i j v,
  find_voter_from i db id name = Some (j, v) →
  ∃ k, j = i + k ∧ db !! k = Some v ∧ v_id v = id ∧ v_name v = name.
Proof.
  induction db as [|w db IH]; intros i j v H; simpl in H; [done|].
  destruct ((v_id w =? id)%Z && String.eqb (v_name w) name) eqn:Hm.
  - injection H as <- <-. exists 0. apply andb_true_iff in Hm as [Hid Hn].
    apply Z.eqb_eq in Hid. apply String.eqb_eq in Hn.
    rewrite Nat.add_0_r. done.
  - destruct (IH _ _ _ H) as (k & -> & Hk & Hid & Hn).
    exists (S k). rewrite Nat.add_succ_r. done.
Qed.

Lemma find_voter_spec db id name j v :
  find_voter db id name = Some (j, v) →
  db !! j = Some v ∧ v_id v = id ∧ v_name v = name.
Proof.
  intros H. apply find_voter_from_spec in H as (k & -> & ? & ? & ?). done.
Qed.

(** Replacing a record by one with the same id and name does not move any
    lookup; the lookup that lands on it sees the new record. *)
Lemma find_voter_from_insert db k v' id name : ∀ i,
  (∀ v, db !! k = Some v → v_id v' = v_id v ∧ v_name v' = v_name v) →
  find_voter_from i (<[k := v']> db) id name
  = (λ p, (p.1, if decide (p.1 = i + k) then v' else p.2))
      <$> find_voter_from i db id name.
Proof.
  revert k. induction db as [|w db IH]; intros k i Hsame; [done|].
  destruct k as [|k]; simpl.
  - destruct (Hsame w eq_refl) as [-> ->].
    destruct ((v_id w =? id)%Z && String.eqb (v_name w) name) eqn:Hm; simpl.
    + rewrite Nat.add_0_r. by rewrite decide_True.
    + destruct (find_voter_from (S i) db id name) as [[j u]|] eqn:Hf; simpl; [|done].
      apply find_voter_from_spec in Hf as (k & -> & _).
      rewrite decide_False; [done|lia].
  - destruct ((v_id w =? id)%Z && String.eqb (v_name w) name) eqn:Hm; simpl.
    + rewrite decide_False; [done|lia].
    + rewrite IH; [|by intros; apply Hsame].
      by rewrite Nat.add_succ_r.
Qed.

Lemma find_voter_insert db k v' id name :
  (∀ v, db !! k = Some v → v_id v' = v_id v ∧ v_name v' = v_name v) →
  find_voter (<[k := v']> db) id name
  = (λ p, (p.1, if decide (p.1 = k) then v' else p.2)) <$> find_voter db id name.
Proof. intros H. unfold find_voter. by rewrite find_voter_from_insert. Qed.

Lemma find_voter_from_app db extra id name : ∀ i p,
  find_voter_from i db id name = Some p →
  find_voter_from i (db ++ extra) id name = Some p.
Proof.
  induction db as [|w db IH]; intros i p H; simpl in *; [done|].
  destruct ((v_id w =? id)%Z && String.eqb (v_name w) name); [done|].
  by apply IH.
Qed.

Lemma find_name_spec db name v :
  find_name db name = Some v → v ∈ db ∧ v_name v = name.
Proof.
  induction db as [|w db IH]; simpl; [done|].
  destruct (String.eqb (v_name w) name) eqn:Hn.
  - intros [= <-]. apply String.eqb_eq in Hn. split; [left|done].
  - intros H. destruct (IH H). split; [by right|done].
Qed.

Lemma find_name_app_new db name v :
  v_name v = name →
  find_name db name = None → find_name (db ++ [v]) name = Some v.
Proof.
  intros Hv. induction db as [|w db IH]; simpl.
  - intros _. by rewrite Hv, String.eqb_refl.
  - destruct (String.eqb (v_name w) name); [done|]. exact IH.
Qed.

Lemma list_pop_app {A} (l : list A) x : list_pop (l ++ [x]) = l.
Proof.
  unfold list_pop. rewrite length_app. simpl.
  replace (length l + 1 - 1) with (length l) by lia.
  by rewrite take_app_length.
Qed.







(** ** Admission task *)

Lemma set_voters_db_id s : set_voters_db s (voters_db s) = s.
Proof. by destruct s. Qed.

(** [commit_vote] touches nothing but the voter table. *)
Lemma commit_vote_frame net s info req :
  fst (commit_vote net s info req)
  = set_voters_db s (voters_db (fst (commit_vote net s info req))).
Proof.
  unfold commit_vote.
  destruct (find_voter _ _ _) as [[i v]|]; simpl; [|by rewrite set_voters_db_id].
  destruct (has_voted v); simpl; [by rewrite set_voters_db_id|].
  by destruct (_replicate_to_replicas _ _).
Qed.

(** [commit_vote] reads only the voter table and the replica list. *)
Lemma commit_vote_reads net s1 s2 info req :
  voters_db s1 = voters_db s2 → replica_ports s1 = replica_ports s2 →
  voters_db (fst (commit_vote net s1 info req))
  = voters_db (fst (commit_vote net s2 info req))
  ∧ snd (commit_vote net s1 info req) = snd (commit_vote net s2 info req).
Proof.
  intros Hdb Hports. unfold commit_vote. rewrite Hdb.
  destruct (find_voter _ _ _) as [[i v]|]; simpl; [|done].
  destruct (has_voted v); simpl; [done|]. rewrite Hports.
  destruct (_replicate_to_replicas _ _); simpl; by rewrite ?Hdb.
Qed.

Ltac task_block :=
  unfold task_step at 1;
  cbn [t_pc t_request t_voter_info t_voter_id t_result t_marked_in_progress
       task_at task_return].

(** Run without interruption, the blocks of the thread body compose to
    [_process_single_vote]. *)
Lemma run_task_process_single_vote net s req :
  run_task 8 net s (new_task req)
  = (fst (_process_single_vote net s req),
     Task req (active_sessions s !! session_id req)
       (vi_id <$> active_sessions s !! session_id req)
       (snd (ensure_marked (set_active_votes s (active_votes s + 1)%Z)
               (vi_id <$> active_sessions s !! session_id req)))
       (snd (_process_single_vote net s req)) TDone).
Proof.
  unfold _process_single_vote, new_task, run_task.
  do 3 task_block.
  destruct (ensure_marked _ _) as [s2 m].
  task_block.
  destruct (validate s2 _ req) as [r|] eqn:Hv.
  - by repeat task_block.
  - do 2 task_block.
    destruct (active_sessions s !! session_id req) as [info|].
    + destruct (commit_vote net _ info req) as [s' r]. by repeat task_block.
    + by repeat task_block.
Qed.

Lemma set_in_progress_votes_id s : set_in_progress_votes s (in_progress_votes s) = s.
Proof. by destruct s. Qed.

Lemma ensure_marked_frame s voter_id :
  fst (ensure_marked s voter_id)
  = set_in_progress_votes s (in_progress_votes (fst (ensure_marked s voter_id))).
Proof.
  unfold ensure_marked. destruct voter_id; [case_bool_decide|]; simpl;
    by rewrite ?set_in_progress_votes_id.
Qed.

Lemma clear_mark_frame s voter_id :
  clear_mark s voter_id
  = set_in_progress_votes s (in_progress_votes (clear_mark s voter_id)).
Proof.
  unfold clear_mark. destruct voter_id; [case_bool_decide|]; simpl;
    by rewrite ?set_in_progress_votes_id.
Qed.

Lemma process_single_vote_reaches_commit net s req info :
  active_sessions s !! session_id req = Some info →
  voting_active s = true →
  after_deadline (voting_deadline s) (click_time req) = false →
  snd (_process_single_vote net s req) = Some (snd (commit_vote net s info req))
  ∧ voters_db (fst (_process_single_vote net s req))
    = voters_db (fst (commit_vote net s info req))
  ∧ active_sessions (fst (_process_single_vote net s req)) = active_sessions s
  ∧ voting_active (fst (_process_single_vote net s req)) = voting_active s
  ∧ voting_deadline (fst (_process_single_vote net s req)) = voting_deadline s
  ∧ replica_ports (fst (_process_single_vote net s req)) = replica_ports s
  ∧ active_votes (fst (_process_single_vote net s req)) = active_votes s.
Proof.
  intros Hsess Hact Hdl.
  unfold _process_single_vote. rewrite Hsess. cbn [fmap option_fmap option_map].
  pose proof (ensure_marked_frame (set_active_votes s (active_votes s + 1)%Z)
                (Some (vi_id info))) as Hm.
  destruct (ensure_marked _ _) as [s2 m]. cbn [fst] in Hm.
  unfold validate. rewrite Hm. cbn [voting_active voting_deadline set_in_progress_votes set_active_votes].
  rewrite Hact, Hdl. cbn [negb].
  match goal with |- context [commit_vote net ?s1 info req] =>
    destruct (commit_vote_reads net s1 s info req) as [Hdb Hres]; [done|done|];
    pose proof (commit_vote_frame net s1 info req) as Hframe
  end.
  destruct (commit_vote net _ info req) as [s' r]. cbn [fst snd] in *.
  rewrite clear_mark_frame, Hframe. cbn. rewrite Hdb, Hres.
  repeat split; try done. lia.
Qed.

(** What [commit_vote] does on each of its four paths. *)
Lemma commit_vote_not_found net s info req :
  find_voter (voters_db s) (vi_id info) (vi_name info) = None →
  commit_vote net s info req = (s, failure "Voter not found").
Proof. intros H. unfold commit_vote. by rewrite H. Qed.

Lemma commit_vote_already_voted net s info req i v :
  find_voter (voters_db s) (vi_id info) (vi_name info) = Some (i, v) →
  has_voted v = true →
  commit_vote net s info req = (s, failure "Already voted").
Proof. intros H Hv. unfold commit_vote. by rewrite H, Hv. Qed.

Lemma commit_vote_recorded net s info req i v :
  find_voter (voters_db s) (vi_id info) (vi_name info) = Some (i, v) →
  has_voted v = false →
  _replicate_to_replicas net (replica_ports s) = true →
  commit_vote net s info req
  = (set_voters_db s (<[i := record_vote v (candidate req)]> (voters_db s)),
     success "Vote recorded successfully").
Proof. intros H Hv Hr. unfold commit_vote. rewrite H, Hv. simpl. by rewrite Hr. Qed.

Lemma commit_vote_rolled_back net s info req i v :
  find_voter (voters_db s) (vi_id info) (vi_name info) = Some (i, v) →
  has_voted v = false →
  _replicate_to_replicas net (replica_ports s) = false →
  commit_vote net s info req
  = (set_voters_db s (<[i := rollback_vote v]> (voters_db s)),
     failure "Replication failed").
Proof.
  intros H Hv Hr. unfold commit_vote. rewrite H, Hv. simpl. rewrite Hr.
  by rewrite list_insert_insert_eq.
Qed.

(** C3. When the registry commit succeeds but replication reports failure,
    the admission rolls the commit back before it completes: it answers
    "Replication failed", the voter's record reads [has_voted = False] and
    [vote = None] afterwards, nothing else in the registry changes, and the
    same request submitted again is recorded once replication succeeds. *)
Theorem replication_failure_rolls_back net s req info i v :
  active_sessions s !! session_id req = Some info →
  voting_active s = true →
  after_deadline (voting_deadline s) (click_time req) = false →
  find_voter (voters_db s) (vi_id info) (vi_name info) = Some (i, v) →
  has_voted v = false →
  _replicate_to_replicas net (replica_ports s) = false →
  snd (_process_single_vote net s req) = Some (failure "Replication failed")
  ∧ voters_db (fst (_process_single_vote net s req))
    = <[i := Voter (v_id v) (v_name v) false None]> (voters_db s)
  ∧ find_voter (voters_db (fst (_process_single_vote net s req)))
      (vi_id info) (vi_name info)
    = Some (i, Voter (v_id v) (v_name v) false None)
  ∧ ∀ net',
      _replicate_to_replicas net' (replica_ports s) = true →
      snd (_process_single_vote net' (fst (_process_single_vote net s req)) req)
      = Some (success "Vote recorded successfully")
      ∧ find_voter
          (voters_db (fst (_process_single_vote net'
                             (fst (_process_single_vote net s req)) req)))
          (vi_id info) (vi_name info)
        = Some (i, Voter (v_id v) (v_name v) true (Some (candidate req))).
Proof.
  intros Hsess Hact Hdl Hfind Hnv Hrep.
  destruct (process_single_vote_reaches_commit net s req info Hsess Hact Hdl)
    as (Hres & Hdb & Hs & Ha & Hd & Hp & _).
  rewrite (commit_vote_rolled_back _ _ _ _ _ _ Hfind Hnv Hrep) in Hres, Hdb.
  simpl in Hres, Hdb. unfold rollback_vote in Hdb.
  destruct (find_voter_spec _ _ _ _ _ Hfind) as (Hi & Hid & Hname).
  assert (Hfind' :
    find_voter (voters_db (fst (_process_single_vote net s req)))
      (vi_id info) (vi_name info)
    = Some (i, Voter (v_id v) (v_name v) false None)).
  { rewrite Hdb, find_voter_insert, Hfind; simpl.
    - by rewrite decide_True.
    - intros w Hw. rewrite Hi in Hw. by injection Hw as <-. }
  split; [done|]. split; [done|]. split; [done|].
  intros net' Hrep'.
  set (s' := fst (_process_single_vote net s req)) in *.
  assert (Hs' : active_sessions s' !! session_id req = Some info)
    by (by rewrite Hs).
  assert (Ha' : voting_active s' = true) by (by rewrite Ha).
  assert (Hd' : after_deadline (voting_deadline s') (click_time req) = false)
    by (by rewrite Hd).
  destruct (process_single_vote_reaches_commit net' s' req info Hs' Ha' Hd')
    as (Hres' & Hdb' & _).
  assert (Hp' : _replicate_to_replicas net' (replica_ports s') = true)
    by (by rewrite Hp).
  rewrite (commit_vote_recorded net' s' info req i _ Hfind' eq_refl Hp')
    in Hres', Hdb'.
  simpl in Hres', Hdb'. split; [done|].
  rewrite Hdb', find_voter_insert, Hfind'; simpl.
  - by rewrite decide_True.
  - intros w Hw. rewrite Hdb in Hw.
    rewrite list_lookup_insert_eq in Hw; [by injection Hw as <-|].
    by eapply lookup_lt_Some.
Qed.

(** ** [heapq]: the operations keep the elements *)

Section HeapqContents.
Context {A : Type} (lt : A → A → bool).

(** Overwriting slot [i] and putting the old content in front keeps the
    elements. *)
Lemma insert_cons_perm (l : list A) i x y :
  l !! i = Some y → y :: <[i := x]> l ≡ₚ x :: l.
Proof.
  revert i. induction l as [|a l IH]; intros i Hi; [done|].
  destruct i as [|i]; simpl in *.
  - injection Hi as ->. apply Permutation_swap.
  - transitivity (a :: y :: <[i := x]> l); [apply perm_swap|].
    rewrite (IH _ Hi). apply perm_swap.
Qed.

(** Exchanging the contents of two slots keeps the elements. *)
Lemma insert_swap_perm (l : list A) i j x y :
  l !! i = Some x → l !! j = Some y → <[i := y]> (<[j := x]> l) ≡ₚ l.
Proof.
  revert i j. induction l as [|a l IH]; intros i j Hi Hj; [done|].
  destruct i as [|i], j as [|j]; simpl in *.
  - injection Hi as ->. injection Hj as ->. done.
  - injection Hi as ->. by apply insert_cons_perm.
  - injection Hj as ->. by apply insert_cons_perm.
  - f_equiv. by apply IH.
Qed.

Lemma siftdown_loop_perm newitem startpos : ∀ fuel heap pos,
  pos < length heap →
  <[(siftdown_loop lt fuel heap startpos pos newitem).2 := newitem]>
    (siftdown_loop lt fuel heap startpos pos newitem).1
  ≡ₚ <[pos := newitem]> heap.
Proof.
  induction fuel as [|fuel IH]; intros heap pos Hpos; cbn [siftdown_loop];
    [reflexivity|].
  case_decide as Hlt; [|reflexivity].
  destruct (heap !! ((pos - 1) / 2)) as [parent|] eqn:Hparent; [|reflexivity].
  destruct (lt newitem parent); [|reflexivity].
  rewrite IH by (rewrite length_insert; lia).
  rewrite <- (list_insert_insert_eq heap pos parent newitem).
  apply insert_swap_perm.
  - rewrite list_lookup_insert_ne by lia. done.
  - by apply list_lookup_insert_eq.
Qed.

Lemma siftdown_perm heap startpos pos : _siftdown lt heap startpos pos ≡ₚ heap.
Proof.
  unfold _siftdown. destruct (heap !! pos) as [newitem|] eqn:Hpos; [|reflexivity].
  pose proof (siftdown_loop_perm newitem startpos pos heap pos
                (lookup_lt_Some _ _ _ Hpos)) as H.
  destruct (siftdown_loop _ _ _ _ _ _) as [h p]. simpl in H.
  by rewrite H, list_insert_id.
Qed.

Lemma heappush_perm heap item : heappush lt heap item ≡ₚ item :: heap.
Proof.
  unfold heappush. rewrite siftdown_perm. by rewrite Permutation_app_comm.
Qed.

Lemma smaller_child_cases heap childpos endpos :
  smaller_child lt heap childpos endpos = childpos
  ∨ (smaller_child lt heap childpos endpos = childpos + 1
     ∧ childpos + 1 < endpos).
Proof.
  unfold smaller_child. case_decide; [|by left].
  destruct (heap !! childpos), (heap !! (childpos + 1)); try by left.
  destruct (negb _); [by right|by left].
Qed.

Lemma siftup_loop_perm newitem endpos : ∀ fuel heap pos,
  length heap = endpos → pos < endpos →
  <[(siftup_loop lt fuel heap pos endpos).2 := newitem]>
    (siftup_loop lt fuel heap pos endpos).1
  ≡ₚ <[pos := newitem]> heap.
Proof.
  induction fuel as [|fuel IH]; intros heap pos Hlen Hpos; cbn [siftup_loop];
    [reflexivity|].
  case_decide as Hlt; [|reflexivity].
  destruct (heap !! smaller_child lt heap (2 * pos + 1) endpos)
    as [c|] eqn:Hc; [|reflexivity].
  pose proof (lookup_lt_Some _ _ _ Hc) as Hclt.
  assert (pos < smaller_child lt heap (2 * pos + 1) endpos) as Hgt.
  { destruct (smaller_child_cases heap (2 * pos + 1) endpos)
      as [->|[-> _]]; lia. }
  rewrite IH by (rewrite ?length_insert; lia).
  rewrite <- (list_insert_insert_eq heap pos c newitem).
  apply insert_swap_perm.
  - rewrite list_lookup_insert_ne by lia. done.
  - apply list_lookup_insert_eq. lia.
Qed.

Lemma siftup_perm heap pos : _siftup lt heap pos ≡ₚ heap.
Proof.
  unfold _siftup. destruct (heap !! pos) as [newitem|] eqn:Hpos; [|reflexivity].
  pose proof (siftup_loop_perm newitem (length heap) (length heap) heap pos
                eq_refl (lookup_lt_Some _ _ _ Hpos)) as H.
  destruct (siftup_loop _ _ _ _ _) as [h p]. simpl in H.
  by rewrite siftdown_perm, H, list_insert_id.
Qed.

Lemma list_pop_last (l : list A) x : last l = Some x → l = list_pop l ++ [x].
Proof.
  intros H. apply last_Some in H as [l' ->]. by rewrite list_pop_app.
Qed.

Lemma heappop_perm heap item heap' :
  heappop lt heap = Some (item, heap') → heap ≡ₚ item :: heap'.
Proof.
  unfold heappop. destruct (last heap) as [lastelt|] eqn:Hlast; [|done].
  rewrite (list_pop_last _ _ Hlast) at 2.
  destruct (list_pop heap !! 0) as [returnitem|] eqn:H0.
  - intros [= <- <-]. rewrite siftup_perm.
    rewrite (insert_cons_perm _ _ _ _ H0). by rewrite Permutation_app_comm.
  - intros [= <- <-]. by rewrite Permutation_app_comm.
Qed.

Lemma heappop_None heap : heappop lt heap = None ↔ heap = [].
Proof.
  unfold heappop. split.
  - destruct (last heap) eqn:Hl.
    + by destruct (list_pop heap !! 0).
    + intros _. by apply last_None.
  - by intros ->.
Qed.

End HeapqContents.

(** ** [heapq]: the operations keep the heap order

    [lt] is asymmetric and its negation is transitive, as for every total
    order and every order by a key. *)

Section HeapqOrder.
Context {A : Type} (lt : A → A → bool).
Context (lt_asym : ∀ x y, lt x y = true → lt y x = false).
Context (le_trans : ∀ x y z, lt y x = false → lt z y = false → lt z x = false).

Lemma lt_irrefl x : lt x x = false.
Proof. destruct (lt x x) eqn:H; [|done]. by rewrite (lt_asym _ _ H) in H. Qed.

Lemma lt_le_trans x y z : lt x y = true → lt z y = false → lt z x = false.
Proof. intros Hxy Hyz. eapply le_trans; [|exact Hyz]. by apply lt_asym. Qed.

(** Leaving the [_siftdown] loop: the item fits at the hole. *)
Lemma siftdown_exit_ok l pos newitem :
  hole_down_ok lt l pos newitem → pos < length l →
  (pos = 0 ∨ ∃ p, l !! ((pos - 1) / 2) = Some p ∧ lt newitem p = false) →
  heap_ok lt (<[pos := newitem]> l).
Proof.
  intros [HA HB HC] Hlen Hexit i x p Hi Hx Hp.
  destruct (decide (i = pos)) as [->|Hne].
  - rewrite list_lookup_insert_eq in Hx by done. injection Hx as <-.
    rewrite list_lookup_insert_ne in Hp by lia.
    destruct Hexit as [->|(p' & Hp' & Hle)]; [lia|]. congruence.
  - rewrite list_lookup_insert_ne in Hx by done.
    destruct (decide ((i - 1) / 2 = pos)) as [Hpar|Hpar].
    + rewrite Hpar, list_lookup_insert_eq in Hp by done. injection Hp as <-.
      by eapply HC.
    + rewrite list_lookup_insert_ne in Hp by done. by eapply HA.
Qed.

Lemma siftdown_loop_ok newitem : ∀ fuel l pos,
  pos ≤ fuel → pos < length l → hole_down_ok lt l pos newitem →
  heap_ok lt (<[(siftdown_loop lt fuel l 0 pos newitem).2 := newitem]>
                (siftdown_loop lt fuel l 0 pos newitem).1).
Proof.
  induction fuel as [|fuel IH]; intros l pos Hfuel Hlen HK; cbn [siftdown_loop].
  { apply siftdown_exit_ok; [done|done|]. left. cbn. lia. }
  case_decide as Hpos; [|apply siftdown_exit_ok; [done|done|left; cbn; lia]].
  destruct (l !! ((pos - 1) / 2)) as [parent|] eqn:Hparent.
  2:{ apply lookup_ge_None in Hparent. lia. }
  destruct (lt newitem parent) eqn:Hlt.
  2:{ apply siftdown_exit_ok; [done|done|]. right. eauto. }
  destruct HK as [HA HB HC].
  apply IH; [lia|rewrite length_insert; lia|]. split.
  - intros i x p Hi Hne Hx Hp.
    destruct (decide (i = pos)) as [->|Hipos].
    + rewrite list_lookup_insert_eq in Hx by done. injection Hx as <-.
      rewrite list_lookup_insert_ne in Hp by lia.
      rewrite Hparent in Hp. injection Hp as <-. apply lt_irrefl.
    + rewrite list_lookup_insert_ne in Hx by done.
      destruct (decide ((i - 1) / 2 = pos)) as [Hpar|Hpar].
      * rewrite Hpar, list_lookup_insert_eq in Hp by done. injection Hp as <-.
        by eapply (HB i).
      * rewrite list_lookup_insert_ne in Hp by done. by eapply HA.
  - intros c x g Hpp Hc Hpar Hx Hg.
    rewrite list_lookup_insert_ne in Hg by lia.
    assert (lt parent g = false) as Hpg by (eapply (HA ((pos - 1) / 2)); [lia|lia|done|done]).
    destruct (decide (c = pos)) as [->|Hcpos].
    + rewrite list_lookup_insert_eq in Hx by done. by injection Hx as <-.
    + rewrite list_lookup_insert_ne in Hx by done.
      eapply le_trans; [exact Hpg|]. eapply (HA c); [done|done|done|].
      by rewrite Hpar.
  - intros c x Hc Hpar Hx.
    destruct (decide (c = pos)) as [->|Hcpos].
    + rewrite list_lookup_insert_eq in Hx by done. injection Hx as <-.
      by apply lt_asym.
    + rewrite list_lookup_insert_ne in Hx by done.
      eapply lt_le_trans; [exact Hlt|]. eapply (HA c); [done|done|done|].
      by rewrite Hpar.
Qed.

Lemma siftdown_ok l pos newitem :
  l !! pos = Some newitem → hole_down_ok lt l pos newitem →
  heap_ok lt (_siftdown lt l 0 pos).
Proof.
  intros Hpos HK. unfold _siftdown. rewrite Hpos.
  pose proof (siftdown_loop_ok newitem pos l pos (le_n _)
                (lookup_lt_Some _ _ _ Hpos) HK) as H.
  by destruct (siftdown_loop _ _ _ _ _ _).
Qed.

Lemma heappush_ok heap item :
  heap_ok lt heap → heap_ok lt (heappush lt heap item).
Proof.
  intros Hok. unfold heappush. rewrite length_app. simpl.
  replace (length heap + 1 - 1) with (length heap) by lia.
  apply (siftdown_ok _ _ item).
  { rewrite lookup_app_r by lia. by rewrite Nat.sub_diag. }
  split.
  - intros i x p Hi Hne Hx Hp.
    pose proof (lookup_lt_Some _ _ _ Hx) as Hlt. rewrite length_app in Hlt.
    simpl in Hlt.
    rewrite lookup_app_l in Hx by lia. rewrite lookup_app_l in Hp by lia.
    by eapply Hok.
  - intros c x g _ Hc Hpar Hx _.
    pose proof (lookup_lt_Some _ _ _ Hx) as Hlt. rewrite length_app in Hlt.
    simpl in Hlt. lia.
  - intros c x Hc Hpar Hx.
    pose proof (lookup_lt_Some _ _ _ Hx) as Hlt. rewrite length_app in Hlt.
    simpl in Hlt. lia.
Qed.

(** The child picked by [_siftup] is not above the other child. *)
Lemma smaller_child_le l pos endpos j x c :
  length l = endpos → 0 < j → (j - 1) / 2 = pos →
  l !! j = Some x →
  l !! smaller_child lt l (2 * pos + 1) endpos = Some c →
  lt x c = false.
Proof.
  intros Hlen Hj Hpar Hx Hc.
  pose proof (lookup_lt_Some _ _ _ Hx) as Hjlt.
  unfold smaller_child in Hc.
  assert (j = 2 * pos + 1 ∨ j = 2 * pos + 1 + 1) as Hcases by lia.
  case_decide as Hr.
  - destruct (l !! (2 * pos + 1)) as [a|] eqn:Ha;
      [|apply lookup_ge_None in Ha; lia].
    destruct (l !! (2 * pos + 1 + 1)) as [b|] eqn:Hb;
      [|apply lookup_ge_None in Hb; lia].
    destruct (lt a b) eqn:Hab; cbn [negb] in Hc.
    + rewrite Ha in Hc. injection Hc as <-.
      destruct Hcases as [->| ->].
      * rewrite Ha in Hx. injection Hx as <-. apply lt_irrefl.
      * rewrite Hb in Hx. injection Hx as <-. by apply lt_asym.
    + rewrite Hb in Hc. injection Hc as <-.
      destruct Hcases as [->| ->].
      * rewrite Ha in Hx. by injection Hx as <-.
      * rewrite Hb in Hx. injection Hx as <-. apply lt_irrefl.
  - destruct Hcases as [->| ->]; [|lia].
    rewrite Hx in Hc. injection Hc as <-. apply lt_irrefl.
Qed.

Lemma siftup_loop_ok endpos : ∀ fuel l pos,
  length l = endpos → endpos ≤ pos + fuel → pos < endpos →
  hole_up_ok lt l pos →
  heap_ok lt (siftup_loop lt fuel l pos endpos).1
  ∧ (siftup_loop lt fuel l pos endpos).2 < endpos
  ∧ endpos ≤ 2 * (siftup_loop lt fuel l pos endpos).2 + 1
  ∧ length (siftup_loop lt fuel l pos endpos).1 = endpos.
Proof.
  induction fuel as [|fuel IH]; intros l pos Hlen Hfuel Hpos [HA HB];
    cbn [siftup_loop]; [lia|].
  case_decide as Hchild.
  2:{ cbn [fst snd]. split; [|lia]. intros i x p Hi Hx Hp.
      pose proof (lookup_lt_Some _ _ _ Hx). eapply HA; [done| |done|done]. lia. }
  destruct (smaller_child_cases lt l (2 * pos + 1) endpos) as [Hsc|[Hsc Hsc']].
  all: destruct (l !! smaller_child lt l (2 * pos + 1) endpos) as [c|] eqn:Hc;
    [|apply lookup_ge_None in Hc; lia].
  all: apply IH; [by rewrite length_insert|lia|lia|].
  all: split.
  all: try (intros i x p Hi Hpar Hx Hp;
    destruct (decide ((i - 1) / 2 = pos)) as [Hpp|Hpp];
    [ rewrite Hpp, list_lookup_insert_eq in Hp by lia; injection Hp as <-;
      rewrite list_lookup_insert_ne in Hx by lia;
      by eapply (smaller_child_le l pos endpos i)
    | rewrite list_lookup_insert_ne in Hp by done;
      destruct (decide (i = pos)) as [->|Hipos];
      [ rewrite list_lookup_insert_eq in Hx by lia; injection Hx as <-;
        eapply (HB (smaller_child lt l (2 * pos + 1) endpos));
          [lia|lia|lia|done|done]
      | rewrite list_lookup_insert_ne in Hx by done; by eapply HA ] ]).
  all: intros d x g _ Hd Hpar Hx Hg.
  all: rewrite list_lookup_insert_ne in Hx by lia.
  all: replace ((smaller_child lt l (2 * pos + 1) endpos - 1) / 2) with pos
         in Hg by lia.
  all: rewrite list_lookup_insert_eq in Hg by lia; injection Hg as <-.
  all: eapply (HA d); [done|lia|done|by rewrite Hpar].
Qed.

Lemma siftup_ok l newitem :
  l !! 0 = Some newitem → hole_up_ok lt l 0 → heap_ok lt (_siftup lt l 0).
Proof.
  intros H0 HL. unfold _siftup. rewrite H0.
  destruct (siftup_loop_ok (length l) (length l) l 0 eq_refl)
    as (Hok & Hp & Hleaf & Hlen); [lia|by eapply lookup_lt_Some|done|].
  destruct (siftup_loop _ _ _ _ _) as [h p]. cbn [fst snd] in *.
  apply (siftdown_ok _ _ newitem); [by apply list_lookup_insert_eq; lia|].
  split.
  - intros i x q Hi Hne Hx Hq.
    pose proof (lookup_lt_Some _ _ _ Hx) as Hilt. rewrite length_insert in Hilt.
    rewrite list_lookup_insert_ne in Hx by done.
    rewrite list_lookup_insert_ne in Hq by lia. by eapply Hok.
  - intros c x g _ Hc Hpar Hx _.
    pose proof (lookup_lt_Some _ _ _ Hx) as Hclt. rewrite length_insert in Hclt.
    lia.
  - intros c x Hc Hpar Hx.
    pose proof (lookup_lt_Some _ _ _ Hx) as Hclt. rewrite length_insert in Hclt.
    lia.
Qed.

Lemma heappop_ok heap item heap' :
  heap_ok lt heap → heappop lt heap = Some (item, heap') →
  heap !! 0 = Some item ∧ heap_ok lt heap'.
Proof.
  intros Hok. unfold heappop.
  destruct (last heap) as [lastelt|] eqn:Hlast; [|done].
  pose proof (list_pop_last _ _ Hlast) as Hheap.
  destruct (list_pop heap !! 0) as [returnitem|] eqn:H0.
  - intros [= <- <-]. split.
    { rewrite Hheap. rewrite lookup_app_l; [done|by eapply lookup_lt_Some]. }
    apply (siftup_ok _ lastelt).
    { apply list_lookup_insert_eq. by eapply lookup_lt_Some. }
    split; [|intros; lia].
    intros i x p Hi Hpar Hx Hp.
    rewrite list_lookup_insert_ne in Hx by lia.
    rewrite list_lookup_insert_ne in Hp by lia.
    apply (Hok i); [done| |].
    + rewrite Hheap. rewrite lookup_app_l; [done|by eapply lookup_lt_Some].
    + rewrite Hheap. rewrite lookup_app_l; [done|by eapply lookup_lt_Some].
  - intros [= <- <-]. destruct (list_pop heap) as [|a l] eqn:Hp; [|done].
    rewrite Hheap. split; [done|]. intros i x p _ Hx. by destruct i.
Qed.

(** In a heap-ordered list the root is at or below every element. *)
Lemma heap_root_min l r :
  heap_ok lt l → l !! 0 = Some r → ∀ i x, l !! i = Some x → lt x r = false.
Proof.
  intros Hok Hr i.
  induction i as [i IH] using (well_founded_induction Nat.lt_wf_0).
  intros x Hx. destruct (decide (i = 0)) as [->|Hi].
  - rewrite Hr in Hx. injection Hx as <-. apply lt_irrefl.
  - destruct (l !! ((i - 1) / 2)) as [p|] eqn:Hp.
    + eapply le_trans; [eapply (IH ((i - 1) / 2)); [lia|done]|].
      eapply (Hok i); [lia|done|done].
    + apply lookup_ge_None in Hp. apply lookup_lt_Some in Hx. lia.
Qed.

End HeapqOrder.

(** ** The order on heap entries *)

Section Comparisons.
Context {A B : Type}.

Lemma cmp_eq_r (cmp : A → A → comparison) (H : cmp_order cmp) x y z :
  cmp y z = Eq → cmp x y = cmp x z.
Proof.
  intros Hyz. rewrite (cmp_antisym cmp H y x), (cmp_antisym cmp H z x).
  f_equal. by apply (cmp_eq_l cmp H).
Qed.

Lemma cmp_order_on (f : B → A) (cmp : A → A → comparison) :
  cmp_order cmp → cmp_order (λ x y, cmp (f x) (f y)).
Proof.
  intros [Ha Ht He]. split; intros; eauto.
Qed.

Lemma cmp_order_lex (f : B → A) (cmpA : A → A → comparison)
    (cmpB : B → B → comparison) :
  cmp_order cmpA → cmp_order cmpB →
  cmp_order (λ x y, lex (cmpA (f x) (f y)) (cmpB x y)).
Proof.
  intros HA HB. split.
  - intros x y. rewrite (cmp_antisym cmpA HA (f x) (f y)),
      (cmp_antisym cmpB HB x y).
    by destruct (cmpA (f x) (f y)).
  - intros x y z Hxy Hyz.
    destruct (cmpA (f x) (f y)) eqn:Exy; simpl in Hxy; try done.
    + rewrite (cmp_eq_l cmpA HA _ _ (f z) Exy).
      destruct (cmpA (f y) (f z)) eqn:Eyz; simpl in *; try done.
      by eapply (cmp_lt_trans cmpB HB).
    + destruct (cmpA (f y) (f z)) eqn:Eyz; simpl in Hyz; try done.
      * by rewrite <- (cmp_eq_r cmpA HA (f x) _ _ Eyz), Exy.
      * by rewrite (cmp_lt_trans cmpA HA _ _ _ Exy Eyz).
  - intros x y z Hxy.
    destruct (cmpA (f x) (f y)) eqn:Exy; simpl in Hxy; try done.
    rewrite (cmp_eq_l cmpA HA _ _ (f z) Exy).
    by rewrite (cmp_eq_l cmpB HB _ _ z Hxy).
Qed.

(** The [<] read off a total preorder is asymmetric and its negation is
    transitive. *)
Lemma cmp_lt_asym (cmp : A → A → comparison) (H : cmp_order cmp) x y :
  cmp x y = Lt → cmp y x ≠ Lt.
Proof. intros Hxy. rewrite (cmp_antisym cmp H x y), Hxy. done. Qed.

Lemma cmp_le_trans (cmp : A → A → comparison) (H : cmp_order cmp) x y z :
  cmp y x ≠ Lt → cmp z y ≠ Lt → cmp z x ≠ Lt.
Proof.
  intros Hyx Hzy Hzx.
  destruct (cmp x y) eqn:Exy.
  - apply Hzy. by rewrite <- (cmp_eq_r cmp H z x y Exy).
  - apply Hzy. by eapply (cmp_lt_trans cmp H).
  - apply Hyx. by rewrite (cmp_antisym cmp H x y), Exy.
Qed.

End Comparisons.

Lemma Z_compare_order : cmp_order Z.compare.
Proof.
  split.
  - intros x y. apply Z.compare_antisym.
  - intros x y z. rewrite !Z.compare_lt_iff. lia.
  - intros x y z Hxy. apply Z.compare_eq in Hxy. by subst.
Qed.

Lemma string_compare_order : cmp_order String_as_OT.compare.
Proof.
  assert (Hrefl : ∀ x, String_as_OT.compare x x = Eq).
  { intros x. destruct (String_as_OT.compare_spec x x) as [?|H|H]; [done|..];
      by apply (StrictOrder_Irreflexive (R:=String_as_OT.lt)) in H. }
  split.
  - intros x y.
    destruct (String_as_OT.compare_spec x y) as [->|H|H].
    + by rewrite Hrefl.
    + destruct (String_as_OT.compare_spec y x) as [->|H'|H']; simpl; [|..|done].
      * by apply (StrictOrder_Irreflexive (R:=String_as_OT.lt)) in H.
      * pose proof (StrictOrder_Transitive (R:=String_as_OT.lt) _ _ _ H H') as Hx.
        by apply (StrictOrder_Irreflexive (R:=String_as_OT.lt)) in Hx.
    + exact H.
  - intros x y z. apply (StrictOrder_Transitive (R:=String_as_OT.lt)).
  - intros x y z Hxy.
    destruct (String_as_OT.compare_spec x y) as [->|H|H]; done.
Qed.

Lemma request_compare_order : cmp_order request_compare.
Proof.
  unfold request_compare.
  apply (cmp_order_lex session_id _ _ string_compare_order).
  apply (cmp_order_lex candidate _ _ string_compare_order).
  apply (cmp_order_lex timestamp _ _ Z_compare_order).
  apply (cmp_order_on click_time _ Z_compare_order).
Qed.

Lemma entry_compare_order : cmp_order entry_compare.
Proof.
  unfold entry_compare.
  apply (cmp_order_lex e_timestamp _ _ Z_compare_order).
  apply (cmp_order_lex e_voter_id _ _ Z_compare_order).
  apply (cmp_order_lex e_counter _ _ Z_compare_order).
  apply (cmp_order_on e_request _ request_compare_order).
Qed.

Lemma entry_lt_Lt a b : entry_lt a b = true ↔ entry_compare a b = Lt.
Proof. unfold entry_lt. by destruct (entry_compare a b). Qed.

Lemma entry_lt_not_Lt a b : entry_lt a b = false ↔ entry_compare a b ≠ Lt.
Proof. unfold entry_lt. by destruct (entry_compare a b). Qed.

Lemma entry_lt_asym a b : entry_lt a b = true → entry_lt b a = false.
Proof.
  rewrite entry_lt_Lt, entry_lt_not_Lt.
  apply (cmp_lt_asym _ entry_compare_order).
Qed.

Lemma entry_le_trans a b c :
  entry_lt b a = false → entry_lt c b = false → entry_lt c a = false.
Proof.
  rewrite !entry_lt_not_Lt. apply (cmp_le_trans _ entry_compare_order).
Qed.

(** The tuple order refines the order by (timestamp, voter id, counter). *)
Lemma entry_le_key_le a b : entry_lt b a = false → key_le a b.
Proof.
  rewrite entry_lt_not_Lt, (cmp_antisym _ entry_compare_order a b).
  unfold key_le, key_compare, entry_compare.
  destruct (e_timestamp a ?= e_timestamp b)%Z,
    (e_voter_id a ?= e_voter_id b)%Z, (e_counter a ?= e_counter b)%Z;
    simpl; try done.
  all: by destruct (request_compare _ _).
Qed.

Lemma key_compare_Eq_counter a b :
  key_compare a b = Eq → e_counter a = e_counter b.
Proof.
  unfold key_compare.
  destruct (e_timestamp a ?= e_timestamp b)%Z,
    (e_voter_id a ?= e_voter_id b)%Z; simpl; try done.
  apply Z.compare_eq.
Qed.

Lemma key_le_lt a b : key_le a b → e_counter a ≠ e_counter b → key_lt a b.
Proof.
  unfold key_le, key_lt. intros Hle Hne.
  destruct (key_compare a b) eqn:E; [|done|done].
  by apply key_compare_Eq_counter in E.
Qed.

(** [key_lt] spelled out: earlier timestamp, then lower voter id, then lower
    insertion counter. *)
Lemma key_lt_iff a b :
  key_lt a b ↔
    (e_timestamp a < e_timestamp b)%Z
    ∨ (e_timestamp a = e_timestamp b ∧ (e_voter_id a < e_voter_id b)%Z)
    ∨ (e_timestamp a = e_timestamp b ∧ e_voter_id a = e_voter_id b
       ∧ (e_counter a < e_counter b)%Z).
Proof.
  unfold key_lt, key_compare.
  destruct (Z.compare_spec (e_timestamp a) (e_timestamp b)),
    (Z.compare_spec (e_voter_id a) (e_voter_id b)),
    (Z.compare_spec (e_counter a) (e_counter b)); simpl;
    split; try done; try lia; intros; auto.
Qed.

(** ** Invariants of the running coordinator *)

Lemma queue_inv_ext s s' :
  vote_queue s' = vote_queue s → vote_counter s' = vote_counter s →
  candidates s' = candidates s → queue_inv s → queue_inv s'.
Proof. intros Hq Hc Hcand [H1 H2 H3 H4 H5]. split; rewrite ?Hq, ?Hc, ?Hcand; done. Qed.

Lemma ballots_inv_ext s s' :
  voters_db s' = voters_db s → candidates s' = candidates s →
  ballots_inv s → ballots_inv s'.
Proof. intros Hdb Hcand H. unfold ballots_inv. by rewrite Hdb, Hcand. Qed.

Lemma queue_inv_push s ts voter_id req :
  queue_inv s → ts = timestamp req → candidate req ∈ candidates s →
  queue_inv
    (set_vote_counter
       (set_vote_queue s
          (heappush entry_lt (vote_queue s)
             (Entry ts voter_id (vote_counter s) req)))
       (vote_counter s + 1)).
Proof.
  intros [H1 H2 H3 H4 H5] Hts Hcand.
  pose proof (heappush_perm entry_lt (vote_queue s)
                (Entry ts voter_id (vote_counter s) req)) as Hperm.
  split; simpl.
  - apply heappush_ok; [apply entry_lt_asym|apply entry_le_trans|done].
  - intros e. rewrite Hperm, elem_of_cons. intros [->|He]; simpl; [lia|].
    specialize (H2 _ He). lia.
  - rewrite Hperm. simpl. apply NoDup_cons. split; [|done].
    rewrite list_elem_of_fmap. intros (e & Heq & He).
    specialize (H2 _ He). lia.
  - intros e. rewrite Hperm, elem_of_cons. intros [->|He]; simpl; auto.
  - intros e. rewrite Hperm, elem_of_cons. intros [->|He]; simpl; auto.
Qed.

Lemma queue_inv_pop s e queue' :
  queue_inv s → heappop entry_lt (vote_queue s) = Some (e, queue') →
  queue_inv (set_vote_queue s queue')
  ∧ candidate (e_request e) ∈ candidates s.
Proof.
  intros [H1 H2 H3 H4 H5] Hpop.
  pose proof (heappop_perm _ _ _ _ Hpop) as Hperm.
  destruct (heappop_ok entry_lt entry_lt_asym entry_le_trans _ _ _ H1 Hpop)
    as [_ Hok].
  assert (Hsub : ∀ x, x ∈ queue' → x ∈ vote_queue s).
  { intros x Hx. rewrite Hperm. by right. }
  split; [split; simpl; auto|].
  - rewrite Hperm in H3. simpl in H3. by apply NoDup_cons in H3 as [_ ?].
  - apply H5. rewrite Hperm. by left.
Qed.

Lemma ballots_inv_commit_vote net s info req :
  ballots_inv s → candidate req ∈ candidates s →
  ballots_inv (fst (commit_vote net s info req)).
Proof.
  intros Hb Hcand. unfold commit_vote.
  destruct (find_voter _ _ _) as [[i v]|] eqn:Hf; [|done].
  destruct (has_voted v) eqn:Hv; [done|]. simpl.
  destruct (_replicate_to_replicas _ _); simpl.
  - intros w Hw Hvoted. simpl in *.
    apply list_elem_of_lookup in Hw as [j Hj].
    apply list_lookup_insert_Some in Hj as [(-> & <- & _)|[_ Hj]].
    + by exists (candidate req).
    + apply Hb; [|done]. by eapply list_elem_of_lookup_2.
  - intros w Hw Hvoted. simpl in *. rewrite list_insert_insert_eq in Hw.
    apply list_elem_of_lookup in Hw as [j Hj].
    apply list_lookup_insert_Some in Hj as [(-> & <- & _)|[_ Hj]]; [done|].
    apply Hb; [|done]. by eapply list_elem_of_lookup_2.
Qed.

Lemma ballots_inv_Register net name s :
  ballots_inv s → ballots_inv (fst (Register net name s)).
Proof.
  intros Hb. unfold Register. simpl.
  destruct (find_name _ _); [done|].
  destruct (_replicate_to_replicas _ _); simpl.
  - intros w Hw Hvoted. simpl in *.
    apply elem_of_app in Hw as [Hw|Hw]; [by apply Hb|].
    apply list_elem_of_singleton in Hw as ->. done.
  - intros w Hw Hvoted. simpl in *. rewrite list_pop_app in Hw. by apply Hb.
Qed.

Lemma task_step_frame net s t :
  vote_queue (task_step net s t).1 = vote_queue s
  ∧ vote_counter (task_step net s t).1 = vote_counter s
  ∧ candidates (task_step net s t).1 = candidates s
  ∧ t_request (task_step net s t).2 = t_request t.
Proof.
  unfold task_step. destruct (t_pc t); simpl; try done.
  - pose proof (ensure_marked_frame s (t_voter_id t)) as H.
    destruct (ensure_marked s (t_voter_id t)) as [s' m]. simpl in *.
    by rewrite H.
  - by destruct (validate _ _ _).
  - destruct (t_voter_info t) as [info|]; [|done].
    pose proof (commit_vote_frame net s info (t_request t)) as H.
    destruct (commit_vote _ _ _ _) as [s' r]. simpl in *. by rewrite H.
  - by rewrite clear_mark_frame.
Qed.

Lemma task_step_ballots net s t :
  ballots_inv s → candidate (t_request t) ∈ candidates s →
  ballots_inv (task_step net s t).1.
Proof.
  intros Hb Hcand. unfold task_step. destruct (t_pc t); simpl; try done.
  - pose proof (ensure_marked_frame s (t_voter_id t)) as H.
    destruct (ensure_marked s (t_voter_id t)) as [s' m]. simpl in *.
    rewrite H. done.
  - by destruct (validate _ _ _).
  - destruct (t_voter_info t) as [info|]; [|done].
    pose proof (ballots_inv_commit_vote net s info (t_request t) Hb Hcand) as H.
    by destruct (commit_vote _ _ _ _).
  - by rewrite clear_mark_frame.
Qed.

Lemma sched_step_frame s pc :
  voters_db (sched_step s pc).1.1 = voters_db s
  ∧ candidates (sched_step s pc).1.1 = candidates s.
Proof.
  unfold sched_step. destruct pc; simpl.
  - by destruct (_ <? _)%Z.
  - destruct (vote_queue s) as [|e0 q0]; [done|].
    by destruct (heappop _ _) as [[e q]|].
  - by destruct (_ !! _).
  - by case_bool_decide.
  - done.
Qed.

Lemma sched_step_queue s pc :
  queue_inv s →
  (∀ r, sched_request pc = Some r → candidate r ∈ candidates s) →
  queue_inv (sched_step s pc).1.1
  ∧ (∀ r, sched_request (sched_step s pc).1.2 = Some r → candidate r ∈ candidates s)
  ∧ (∀ r, (sched_step s pc).2 = Some r → candidate r ∈ candidates s).
Proof.
  intros Hq Hr. unfold sched_step. destruct pc; simpl.
  - by destruct (_ <? _)%Z.
  - destruct (vote_queue s) as [|e0 q0] eqn:Hqueue; [done|]. rewrite <- Hqueue.
    destruct (heappop _ _) as [[e q]|] eqn:Hpop; [|done]. simpl.
    destruct (queue_inv_pop s e q Hq Hpop) as [Hq' Hc].
    split; [done|]. split; [|done]. by intros r [= <-].
  - destruct (_ !! _); simpl; [|done].
    split; [done|]. split; [|done]. intros r [= <-]. by apply Hr.
  - case_bool_decide; simpl.
    + split; [|done]. apply queue_inv_push; [done|done|]. by apply Hr.
    + split; [|split; [|done]].
      * by apply (queue_inv_ext s).
      * intros r [= <-]. by apply Hr.
  - split; [done|]. split; [done|]. intros r [= <-]. by apply Hr.
Qed.

Lemma handle_frame c s :
  candidates (handle c s) = candidates s.
Proof.
  destruct c; simpl; try done.
  - unfold Register. simpl. destruct (find_name _ _); [done|].
    by destruct (_replicate_to_replicas _ _).
  - unfold Login. simpl. by destruct (find_voter _ _ _) as [[? ?]|].
  - unfold Vote. simpl. case_bool_decide; simpl; [|done].
    by destruct (_ !! _).
Qed.

Lemma handle_queue c s : queue_inv s → queue_inv (handle c s).
Proof.
  intros Hq. destruct c; simpl; try done.
  - unfold Register. simpl. destruct (find_name _ _); simpl.
    { by apply (queue_inv_ext s). }
    destruct (_replicate_to_replicas _ _); by apply (queue_inv_ext s).
  - unfold Login. simpl. destruct (find_voter _ _ _) as [[? ?]|];
      by apply (queue_inv_ext s).
  - unfold Vote. simpl. case_bool_decide as Hc; simpl.
    + destruct (active_sessions s !! sid); simpl.
      * apply (queue_inv_push (tick s)); [by apply (queue_inv_ext s)|done|done].
      * by apply (queue_inv_ext s).
    + by apply (queue_inv_ext s).
  - by apply (queue_inv_ext s).
  - by apply (queue_inv_ext s).
  - by apply (queue_inv_ext s).
Qed.

Lemma handle_ballots c s : ballots_inv s → ballots_inv (handle c s).
Proof.
  intros Hb. destruct c; simpl; try done.
  - by apply ballots_inv_Register.
  - unfold Login. simpl. by destruct (find_voter _ _ _) as [[? ?]|].
  - unfold Vote. simpl. case_bool_decide; simpl; [|done].
    by destruct (_ !! _).
Qed.

(** Every step of every thread keeps the invariant. *)
Lemma exec_inv a sys sys' :
  exec a sys = Some sys' → coordinator_inv sys → coordinator_inv sys'.
Proof.
  intros Hexec [Hq Hb [Hts Htt] Hc]. destruct a as [|i net|c]; simpl in Hexec.
  - destruct (sched_step_frame (srv sys) (sched sys)) as [Hdb Hcand].
    destruct (sched_step_queue (srv sys) (sched sys) Hq Hts) as (Hq' & Hs' & Hst).
    destruct (sched_step (srv sys) (sched sys)) as [[s' pc'] started].
    injection Hexec as <-. simpl in *. split; simpl.
    + done.
    + by apply (ballots_inv_ext (srv sys)).
    + split; simpl; rewrite Hcand; [done|].
      intros t [Ht|Ht]%elem_of_app; [by apply Htt|].
      destruct started as [r|]; [|by apply elem_of_nil in Ht].
      apply list_elem_of_singleton in Ht as ->. by apply Hst.
    + by rewrite Hcand.
  - destruct (tasks sys !! i) as [t|] eqn:Ht; [|done].
    assert (Htc : candidate (t_request t) ∈ candidates (srv sys)).
    { apply Htt. by eapply list_elem_of_lookup_2. }
    destruct (task_step_frame net (srv sys) t) as (Hvq & Hvc & Hcand & Hreq).
    pose proof (task_step_ballots net (srv sys) t Hb Htc) as Hb'.
    destruct (task_step net (srv sys) t) as [s' t'] eqn:Hstep.
    assert (sys' = System s' (sched sys) (<[i := t']> (tasks sys))) as ->.
    { destruct (t_pc t); try done; by injection Hexec as <-. }
    simpl in *. split; simpl.
    + by apply (queue_inv_ext (srv sys)).
    + done.
    + split; simpl; rewrite Hcand; [done|].
      intros u Hu. apply list_elem_of_lookup in Hu as [j Hj].
      apply list_lookup_insert_Some in Hj as [(-> & <- & _)|[_ Hj]].
      * by rewrite Hreq.
      * apply Htt. by eapply list_elem_of_lookup_2.
    + by rewrite Hcand.
  - injection Hexec as <-. split; simpl.
    + by apply handle_queue.
    + by apply handle_ballots.
    + split; simpl; rewrite handle_frame; done.
    + by rewrite handle_frame.
Qed.

Lemma init_inv : coordinator_inv init_system.
Proof.
  split; simpl.
  - split; simpl.
    + intros i x p _ Hx. by rewrite lookup_nil in Hx.
    + intros e He. by apply elem_of_nil in He.
    + constructor.
    + intros e He. by apply elem_of_nil in He.
    + intros e He. by apply elem_of_nil in He.
  - intros v Hv Hvoted. simpl in Hv.
    repeat (apply elem_of_cons in Hv as [->|Hv]; [done|]).
    by apply elem_of_nil in Hv.
  - split; [done|]. intros t Ht. by apply elem_of_nil in Ht.
  - done.
Qed.

Lemma reachable_inv sys : reachable sys → coordinator_inv sys.
Proof.
  induction 1 as [|sys sys' _ IH [a Ha]]; [apply init_inv|].
  by eapply exec_inv.
Qed.

Lemma exec_all_reachable acts : ∀ sys sys',
  reachable sys → exec_all acts sys = Some sys' → reachable sys'.
Proof.
  induction acts as [|a acts IH]; intros sys sys' Hr; simpl.
  - by intros [= <-].
  - destruct (exec a sys) as [sys1|] eqn:Ha; [|done].
    apply IH. eapply reachable_step; [done|]. by exists a.
Qed.

(** ** The scheduler pops in key order *)

Lemma heappop_is_Some {A} (lt : A → A → bool) heap :
  heap ≠ [] → ∃ item heap', heappop lt heap = Some (item, heap').
Proof.
  intros Hne. destruct (heappop lt heap) as [[item heap']|] eqn:H; [eauto|].
  by apply heappop_None in H.
Qed.

(** C1. In every reachable state the scheduler's pop takes the entry that is
    least in the lexicographic order on (timestamp, voter id, insertion
    counter): the pop succeeds on a non-empty queue, hands the popped request
    on, leaves the other entries queued, and every entry left behind has a
    later timestamp, or the same timestamp and a higher voter id, or the
    same timestamp and voter id and a higher insertion counter. Each entry
    is keyed by the timestamp of its request, and counters grow with
    insertion: every queued counter is below the one the next insertion
    gets. *)
Theorem scheduler_pops_least_entry sys :
  reachable sys →
  (vote_queue (srv sys) ≠ [] →
     ∃ e queue', heappop entry_lt (vote_queue (srv sys)) = Some (e, queue'))
  ∧ (∀ e, e ∈ vote_queue (srv sys) →
        e_timestamp e = timestamp (e_request e)
        ∧ (e_counter e < vote_counter (srv sys))%Z)
  ∧ ∀ e queue',
      heappop entry_lt (vote_queue (srv sys)) = Some (e, queue') →
      sched_step (srv sys) SPop
      = (set_vote_queue (srv sys) queue', SLookup (e_request e), None)
      ∧ vote_queue (srv sys) ≡ₚ e :: queue'
      ∧ (∀ e', e' ∈ queue' → key_lt e e')
      ∧ (∀ e', e' ∈ queue' →
           (e_timestamp e < e_timestamp e')%Z
           ∨ (e_timestamp e = e_timestamp e'
              ∧ (e_voter_id e < e_voter_id e')%Z)
           ∨ (e_timestamp e = e_timestamp e' ∧ e_voter_id e = e_voter_id e'
              ∧ (e_counter e < e_counter e')%Z)).
Proof.
  intros Hreach.
  destruct (reachable_inv sys Hreach) as [[Hheap Hctr Hnodup Hkey _] _ _ _].
  split; [apply heappop_is_Some|]. split; [by auto|].
  intros e queue' Hpop.
  pose proof (heappop_perm _ _ _ _ Hpop) as Hperm.
  destruct (heappop_ok entry_lt entry_lt_asym entry_le_trans _ _ _ Hheap Hpop)
    as [Hroot _].
  assert (Hlt : ∀ e', e' ∈ queue' → key_lt e e').
  { intros e' He'.
    assert (e' ∈ vote_queue (srv sys)) as Hin by (rewrite Hperm; by right).
    apply list_elem_of_lookup in Hin as [i Hi].
    apply key_le_lt.
    - apply entry_le_key_le.
      by eapply (heap_root_min entry_lt entry_lt_asym entry_le_trans).
    - rewrite Hperm in Hnodup. simpl in Hnodup.
      apply NoDup_cons in Hnodup as [Hnotin _]. intros Heq. apply Hnotin.
      rewrite Heq. by apply list_elem_of_fmap_2. }
  split; [|split; [done|split; [done|]]].
  - unfold sched_step. rewrite Hpop.
    destruct (vote_queue (srv sys)); [done|done].
  - intros e' He'. apply key_lt_iff. by apply Hlt.
Qed.

Lemma scheduler_pops_least_entry_witness :
  heappop entry_lt (vote_queue (srv two_votes_system))
  = Some (Entry 3 2 1 (VoteRequest "session_2_100" "Candidate B" 3 100),
          [Entry 5 1 0 (VoteRequest "session_1_100" "Candidate A" 5 100)])
  ∧ key_lt (Entry 3 2 1 (VoteRequest "session_2_100" "Candidate B" 3 100))
      (Entry 5 1 0 (VoteRequest "session_1_100" "Candidate A" 5 100)).
Proof.
  assert (Hreach : reachable two_votes_system).
  { apply (exec_all_reachable two_votes_schedule init_system);
      [apply reachable_init|]. vm_compute. reflexivity. }
  assert (Hpop : heappop entry_lt (vote_queue (srv two_votes_system))
    = Some (Entry 3 2 1 (VoteRequest "session_2_100" "Candidate B" 3 100),
            [Entry 5 1 0 (VoteRequest "session_1_100" "Candidate A" 5 100)])).
  { vm_compute. reflexivity. }
  split; [exact Hpop|].
  destruct (scheduler_pops_least_entry two_votes_system Hreach) as (_ & _ & H).
  destruct (H _ _ Hpop) as (_ & _ & Hlt & _).
  apply Hlt. left.
Defined.

(** ** Ballots and the concurrency budget *)

(** C7. In every reachable state of the coordinator every voter record with
    [has_voted = True] holds a candidate of the candidate list, which is the
    list fixed at start-up; and every step of every thread (vote submission,
    scheduling, commit, rollback, registration and the rest) keeps it so. *)
Theorem ballots_name_listed_candidates sys :
  reachable sys →
  (∀ v, v ∈ voters_db (srv sys) → has_voted v = true →
        ∃ c, vote v = Some c ∧ c ∈ candidates (srv sys))
  ∧ candidates (srv sys) = candidates init_server
  ∧ ∀ a sys', exec a sys = Some sys' →
      ∀ v, v ∈ voters_db (srv sys') → has_voted v = true →
           ∃ c, vote v = Some c ∧ c ∈ candidates (srv sys').
Proof.
  intros Hreach. pose proof (reachable_inv sys Hreach) as Hinv.
  split; [apply Hinv|]. split; [apply Hinv|].
  intros a sys' Ha. apply (exec_inv a sys sys' Ha Hinv).
Qed.

Lemma ballots_name_listed_candidates_witness :
  Voter 1 "Alice" true (Some "Candidate A") ∈ voters_db (srv one_vote_system)
  ∧ ∃ c, Some "Candidate A" = Some c ∧ c ∈ candidates (srv one_vote_system).
Proof.
  assert (Hreach : reachable one_vote_system).
  { apply (exec_all_reachable one_vote_schedule init_system);
      [apply reachable_init|]. vm_compute. reflexivity. }
  assert (Hin : Voter 1 "Alice" true (Some "Candidate A")
                ∈ voters_db (srv one_vote_system)).
  { vm_compute. left. }
  split; [exact Hin|].
  destruct (ballots_name_listed_candidates one_vote_system Hreach) as (H & _).
  exact (H _ Hin eq_refl).
Defined.

(** C4 fails on the code: the budget check reads [active_votes], which a
    started thread raises only in its own second block. From start-up, six
    logins and six votes followed by six rounds of the scheduler loop start
    six admission threads while [active_votes] is still 0; once each thread
    has run its increment, six admissions are outstanding, six voters are
    marked in progress and [active_votes] is 6, above the budget of 5. *)
Theorem budget_exceeded_when_scheduler_runs_ahead :
  reachable over_budget_system
  ∧ max_concurrent_votes (srv over_budget_system) = 5%Z
  ∧ length (outstanding over_budget_system) = 6
  ∧ active_votes (srv over_budget_system) = 6%Z
  ∧ size (in_progress_votes (srv over_budget_system)) = 6.
Proof.
  split.
  { apply (exec_all_reachable over_budget_schedule init_system);
      [apply reachable_init|]. vm_compute. reflexivity. }
  repeat split; vm_compute; reflexivity.
Qed.

(** ** At most one commit per voter *)

Lemma commit_vote_success_voted net s info req :
  snd (commit_vote net s info req) = success "Vote recorded successfully" →
  voted (fst (commit_vote net s info req)) (vi_id info) (vi_name info).
Proof.
  unfold commit_vote.
  destruct (find_voter _ _ _) as [[i v]|] eqn:Hf; [|done].
  destruct (has_voted v) eqn:Hv; [done|]. simpl.
  destruct (_replicate_to_replicas _ _); [|done]. intros _.
  unfold voted. cbn [fst voters_db set_voters_db].
  destruct (find_voter_spec _ _ _ _ _ Hf) as (Hi & _ & _).
  exists i, (record_vote v (candidate req)). split; [|done].
  rewrite find_voter_insert, Hf; simpl.
  - by rewrite decide_True.
  - intros w Hw. rewrite Hi in Hw. by injection Hw as <-.
Qed.

Lemma commit_vote_keeps_voted net s info req id name :
  voted s id name → voted (fst (commit_vote net s info req)) id name.
Proof.
  intros (i & v & Hf & Hv). unfold commit_vote.
  destruct (find_voter _ (vi_id info) _) as [[j w]|] eqn:Hfj; [|by exists i, v].
  destruct (has_voted w) eqn:Hw; [by exists i, v|]. simpl.
  destruct (find_voter_spec _ _ _ _ _ Hfj) as (Hj & _ & _).
  destruct (find_voter_spec _ _ _ _ _ Hf) as (Hi & _ & _).
  destruct (_replicate_to_replicas _ _); unfold voted;
    cbn [fst voters_db set_voters_db].
  - exists i, (if decide (i = j) then record_vote w (candidate req) else v).
    split.
    + rewrite find_voter_insert, Hf; [done|].
      intros u Hu. rewrite Hj in Hu. by injection Hu as <-.
    + by case_decide.
  - rewrite list_insert_insert_eq.
    exists i, v. split; [|done].
    rewrite find_voter_insert, Hf; simpl.
    + rewrite decide_False; [done|]. intros ->. congruence.
    + intros u Hu. rewrite Hj in Hu. by injection Hu as <-.
Qed.

Lemma Register_keeps_voted net name' s id name :
  voted s id name → voted (fst (Register net name' s)) id name.
Proof.
  intros (i & v & Hf & Hv). unfold Register. simpl.
  destruct (find_name _ _); [by exists i, v|].
  destruct (_replicate_to_replicas _ _); unfold voted;
    cbn [fst voters_db set_voters_db tick set_lamport_clock].
  - exists i, v. split; [|done]. by apply find_voter_from_app.
  - rewrite list_pop_app. by exists i, v.
Qed.

Lemma voted_ext s s' id name :
  voters_db s' = voters_db s → voted s id name → voted s' id name.
Proof. intros Hdb. unfold voted. by rewrite Hdb. Qed.

Lemma task_step_keeps_voted net s t id name :
  voted s id name → voted (task_step net s t).1 id name.
Proof.
  intros Hv. unfold task_step. destruct (t_pc t); simpl; try done.
  - pose proof (ensure_marked_frame s (t_voter_id t)) as H.
    destruct (ensure_marked s (t_voter_id t)) as [s' m]. simpl in *.
    rewrite H. by apply (voted_ext s).
  - by destruct (validate _ _ _).
  - destruct (t_voter_info t) as [info|]; [|done].
    pose proof (commit_vote_keeps_voted net s info (t_request t) id name Hv).
    by destruct (commit_vote _ _ _ _).
  - rewrite clear_mark_frame. by apply (voted_ext s).
Qed.

Lemma handle_keeps_voted c s id name :
  voted s id name → voted (handle c s) id name.
Proof.
  intros Hv. destruct c; simpl; try done.
  - by apply Register_keeps_voted.
  - unfold Login. simpl. by destruct (find_voter _ voter_id _) as [[? ?]|].
  - unfold Vote. simpl. case_bool_decide; simpl; [|done].
    by destruct (_ !! _).
Qed.

Lemma exec_keeps_voted a sys sys' id name :
  exec a sys = Some sys' → voted (srv sys) id name → voted (srv sys') id name.
Proof.
  intros Hexec Hv. destruct a as [|i net|c]; simpl in Hexec.
  - destruct (sched_step_frame (srv sys) (sched sys)) as [Hdb _].
    destruct (sched_step (srv sys) (sched sys)) as [[s' pc'] started].
    injection Hexec as <-. simpl in *. by apply (voted_ext (srv sys)).
  - destruct (tasks sys !! i) as [t|]; [|done].
    pose proof (task_step_keeps_voted net (srv sys) t id name Hv) as Hv'.
    destruct (task_step net (srv sys) t) as [s' t'].
    destruct (t_pc t); try done; by injection Hexec as <-.
  - injection Hexec as <-. by apply handle_keeps_voted.
Qed.

Lemma exec_all_keeps_voted acts id name : ∀ sys sys',
  exec_all acts sys = Some sys' → voted (srv sys) id name →
  voted (srv sys') id name.
Proof.
  induction acts as [|a acts IH]; intros sys sys'; simpl.
  - by intros [= <-].
  - destruct (exec a sys) as [sys1|] eqn:Ha; [|done].
    intros Hrest Hv. eapply IH; [done|]. by eapply exec_keeps_voted.
Qed.

(** C2. An admission that has passed the session, activity and deadline
    checks and finds the voter's [has_voted] already true answers
    "Already voted" and leaves the registry as it was; when no record matches
    the session's (id, name) it answers "Voter not found" and leaves the
    registry as it was. The check and the recording are one block under
    [db_lock]: once that block has recorded a vote for a voter, in every
    state reached afterwards by any interleaving of the scheduler, the
    admission threads and the RPC handlers, the block answers
    "Already voted" for that voter and changes nothing, so at most one
    commit for a voter is in effect. *)
Theorem vote_rejections_and_single_commit :
  (∀ net s req info i v,
      active_sessions s !! session_id req = Some info →
      voting_active s = true →
      after_deadline (voting_deadline s) (click_time req) = false →
      find_voter (voters_db s) (vi_id info) (vi_name info) = Some (i, v) →
      has_voted v = true →
      snd (_process_single_vote net s req) = Some (failure "Already voted")
      ∧ voters_db (fst (_process_single_vote net s req)) = voters_db s)
  ∧ (∀ net s req info,
      active_sessions s !! session_id req = Some info →
      voting_active s = true →
      after_deadline (voting_deadline s) (click_time req) = false →
      find_voter (voters_db s) (vi_id info) (vi_name info) = None →
      snd (_process_single_vote net s req) = Some (failure "Voter not found")
      ∧ voters_db (fst (_process_single_vote net s req)) = voters_db s)
  ∧ (∀ net s info req sys acts sys' net' info' req',
      snd (commit_vote net s info req) = success "Vote recorded successfully" →
      srv sys = fst (commit_vote net s info req) →
      exec_all acts sys = Some sys' →
      vi_id info' = vi_id info → vi_name info' = vi_name info →
      commit_vote net' (srv sys') info' req'
      = (srv sys', failure "Already voted")).
Proof.
  split; [|split].
  - intros net s req info i v Hsess Hact Hdl Hfind Hv.
    destruct (process_single_vote_reaches_commit net s req info Hsess Hact Hdl)
      as (Hres & Hdb & _).
    rewrite (commit_vote_already_voted _ _ _ _ _ _ Hfind Hv) in Hres, Hdb.
    done.
  - intros net s req info Hsess Hact Hdl Hfind.
    destruct (process_single_vote_reaches_commit net s req info Hsess Hact Hdl)
      as (Hres & Hdb & _).
    rewrite (commit_vote_not_found _ _ _ _ Hfind) in Hres, Hdb. done.
  - intros net s info req sys acts sys' net' info' req' Hok Hsrv Hacts Hid Hname.
    pose proof (commit_vote_success_voted net s info req Hok) as Hv.
    rewrite <- Hsrv in Hv.
    destruct (exec_all_keeps_voted acts _ _ sys sys' Hacts Hv)
      as (i & v & Hf & Hvoted).
    rewrite <- Hid, <- Hname in Hf.
    by apply (commit_vote_already_voted _ _ _ _ i v).
Qed.

Lemma vote_rejections_and_single_commit_witness :
  snd (_process_single_vote net_up (srv one_vote_system)
         (VoteRequest "session_1_100" "Candidate B" 7 100))
  = Some (failure "Already voted")
  ∧ voters_db (fst (_process_single_vote net_up (srv one_vote_system)
                      (VoteRequest "session_1_100" "Candidate B" 7 100)))
    = voters_db (srv one_vote_system).
Proof.
  destruct vote_rejections_and_single_commit as (H & _ & _).
  apply (H net_up (srv one_vote_system)
           (VoteRequest "session_1_100" "Candidate B" 7 100)
           (VoterInfo 1 "Alice" 100) 0
           (Voter 1 "Alice" true (Some "Candidate A")));
    vm_compute; reflexivity.
Defined.

Lemma replication_failure_rolls_back_witness :
  snd (_process_single_vote net_down open_poll_server
         (VoteRequest "session_1_100" "Candidate A" 5 100))
  = Some (failure "Replication failed")
  ∧ voters_db (fst (_process_single_vote net_down open_poll_server
                      (VoteRequest "session_1_100" "Candidate A" 5 100)))
    = <[0 := Voter 1 "Alice" false None]> (voters_db open_poll_server).
Proof.
  destruct (replication_failure_rolls_back net_down open_poll_server
              (VoteRequest "session_1_100" "Candidate A" 5 100)
              (VoterInfo 1 "Alice" 100) 0 (Voter 1 "Alice" false None))
    as (H1 & H2 & _); try (vm_compute; reflexivity).
  split; [exact H1|exact H2].
Defined.

(** ** Session identifiers *)

Lemma string_of_uint_no_underscore d :
  has_char "_" (DecimalString.NilEmpty.string_of_uint d) = false.
Proof. induction d; simpl; done. Qed.

Lemma py_str_no_underscore n : has_char "_" (py_str n) = false.
Proof.
  unfold py_str, DecimalString.NilZero.string_of_int.
  destruct (Z.to_int n) as [d|d]; destruct d; simpl;
    try done; apply string_of_uint_no_underscore.
Qed.

Lemma py_str_inj a b : py_str a = py_str b → a = b.
Proof.
  unfold py_str. intros H.
  assert (Hnz : ∀ z, Z.to_int z ≠ Decimal.Pos Decimal.Nil
                     ∧ Z.to_int z ≠ Decimal.Neg Decimal.Nil).
  { intros z. destruct z as [|p|p]; simpl; [done|..].
    - pose proof (DecimalPos.Unsigned.to_uint_nonnil p). split; congruence.
    - pose proof (DecimalPos.Unsigned.to_uint_nonnil p). split; congruence. }
  apply (f_equal DecimalString.NilZero.int_of_string) in H.
  rewrite !DecimalString.NilZero.isi in H by apply Hnz.
  injection H as H. apply (f_equal Z.of_int) in H.
  by rewrite !DecimalZ.of_to in H.
Qed.

(** Two strings without the separator, each followed by the separator and a
    rest, are equal only piecewise. *)
Lemma split_at_separator c : ∀ a a' b b',
  has_char c a = false → has_char c a' = false →
  a +:+ String c b = a' +:+ String c b' → a = a' ∧ b = b'.
Proof.
  induction a as [|x a IH]; intros [|x' a'] b b' Ha Ha' Heq; simpl in *.
  - by injection Heq as ->.
  - injection Heq as <- _. by rewrite Ascii.eqb_refl in Ha'.
  - injection Heq as -> _. by rewrite Ascii.eqb_refl in Ha.
  - injection Heq as <- Heq.
    apply orb_false_iff in Ha as [_ Ha]. apply orb_false_iff in Ha' as [_ Ha'].
    destruct (IH _ _ _ Ha Ha' Heq) as [-> ->]. done.
Qed.

Lemma make_session_id_inj v t v' t' :
  make_session_id v t = make_session_id v' t' → v = v' ∧ t = t'.
Proof.
  unfold make_session_id. intros H.
  simpl in H. injection H as H.
  destruct (split_at_separator "_" _ _ _ _
              (py_str_no_underscore v) (py_str_no_underscore v') H) as [Hv Ht].
  split; by apply py_str_inj.
Qed.

Lemma Login_session_id now now' name voter_id s sid :
  dict_get "session_id" (snd (Login now now' name voter_id s)) = Some (VStr sid) →
  sid = make_session_id voter_id now
  ∧ dict_get "success" (snd (Login now now' name voter_id s)) = Some (VBool true)
  ∧ active_sessions (fst (Login now now' name voter_id s)) !! sid
    = Some (VoterInfo voter_id name now').
Proof.
  unfold Login. destruct (find_voter _ _ _) as [[i v]|]; simpl; [|done].
  intros [= <-]. split; [done|]. split; [done|]. apply lookup_insert_eq.
Qed.

(** C8, as amended. The session id returned by a successful [Login] is
    determined by the voter id and the whole second of the clock at which
    the session is created, and by nothing else: two successful logins
    return the same id exactly when they are for the same voter id within
    the same second, and distinct ids whenever the voter ids or the seconds
    differ. *)
Theorem session_ids_distinct_across_voters_and_seconds
    now1 t1 name1 id1 s1 now2 t2 name2 id2 s2 sid1 sid2 :
  dict_get "session_id" (snd (Login now1 t1 name1 id1 s1)) = Some (VStr sid1) →
  dict_get "session_id" (snd (Login now2 t2 name2 id2 s2)) = Some (VStr sid2) →
  (sid1 = sid2 ↔ id1 = id2 ∧ now1 = now2)
  ∧ (id1 ≠ id2 ∨ now1 ≠ now2 → sid1 ≠ sid2).
Proof.
  intros (-> & _)%Login_session_id (-> & _)%Login_session_id.
  assert (Hiff : make_session_id id1 now1 = make_session_id id2 now2
                 ↔ id1 = id2 ∧ now1 = now2).
  { split; [apply make_session_id_inj|]. by intros [-> ->]. }
  split; [done|]. rewrite Hiff. intros [?|?] [? ?]; done.
Qed.

Lemma session_ids_distinct_across_voters_and_seconds_witness :
  "session_1_100" ≠ "session_2_100" ∧ "session_1_100" ≠ "session_1_101".
Proof.
  split.
  - apply (session_ids_distinct_across_voters_and_seconds
             100 100 "Alice" 1 init_server 100 100 "Bob" 2 init_server
             "session_1_100" "session_2_100");
      [vm_compute; reflexivity|vm_compute; reflexivity|left; done].
  - apply (session_ids_distinct_across_voters_and_seconds
             100 100 "Alice" 1 init_server 101 101 "Alice" 1 init_server
             "session_1_100" "session_1_101");
      [vm_compute; reflexivity|vm_compute; reflexivity|right; done].
Defined.

(** C8 as stated fails: Alice logs in twice within the same second; both
    calls succeed and return the same session id. *)
Lemma same_second_logins_share_session_id :
  dict_get "success" (snd (Login 100 100200 "Alice" 1 init_server))
  = Some (VBool true)
  ∧ dict_get "success"
      (snd (Login 100 100700 "Alice" 1
              (fst (Login 100 100200 "Alice" 1 init_server))))
    = Some (VBool true)
  ∧ dict_get "session_id" (snd (Login 100 100200 "Alice" 1 init_server))
    = Some (VStr "session_1_100")
  ∧ dict_get "session_id"
      (snd (Login 100 100700 "Alice" 1
              (fst (Login 100 100200 "Alice" 1 init_server))))
    = Some (VStr "session_1_100").
Proof. repeat split; vm_compute; reflexivity. Qed.

(** ** Vote submission *)

(** X1. [Vote] checks the candidate before the session. A call with an
    unlisted candidate or an unknown session is refused and changes nothing
    but the clock tick; an accepted call adds exactly one entry to the heap,
    keyed by the given timestamp, the session's voter id and the current
    counter, advances the counter by one and answers "queued". *)
Theorem vote_enqueues_one_entry_or_nothing sid cand ts click s :
  (cand ∉ candidates s →
     Vote sid cand ts click s = (tick s, failure "Invalid candidate"))
  ∧ (cand ∈ candidates s → active_sessions s !! sid = None →
     Vote sid cand ts click s = (tick s, failure "Invalid session"))
  ∧ (∀ info, cand ∈ candidates s → active_sessions s !! sid = Some info →
     snd (Vote sid cand ts click s)
     = [("success", VBool true); ("message", VStr "Vote queued for processing");
        ("queued", VBool true)]
     ∧ vote_queue (fst (Vote sid cand ts click s))
       ≡ₚ Entry ts (vi_id info) (vote_counter s) (VoteRequest sid cand ts click)
          :: vote_queue s
     ∧ vote_counter (fst (Vote sid cand ts click s)) = (vote_counter s + 1)%Z
     ∧ lamport_clock (fst (Vote sid cand ts click s)) = (lamport_clock s + 1)%Z
     ∧ voters_db (fst (Vote sid cand ts click s)) = voters_db s
     ∧ active_sessions (fst (Vote sid cand ts click s)) = active_sessions s
     ∧ in_progress_votes (fst (Vote sid cand ts click s)) = in_progress_votes s).
Proof.
  unfold Vote. cbn [candidates tick set_lamport_clock active_sessions].
  split; [|split].
  - intros Hc. by rewrite bool_decide_eq_false_2.
  - intros Hc Hs. rewrite bool_decide_eq_true_2 by done. cbn [negb].
    by rewrite Hs.
  - intros info Hc Hs. rewrite bool_decide_eq_true_2 by done. cbn [negb].
    rewrite Hs. cbn. split; [done|]. split; [apply heappush_perm|done].
Qed.

Lemma vote_enqueues_one_entry_or_nothing_witness :
  Vote "session_1_100" "Nobody" 5 100 open_poll_server
  = (tick open_poll_server, failure "Invalid candidate")
  ∧ Vote "session_9_100" "Candidate A" 5 100 open_poll_server
    = (tick open_poll_server, failure "Invalid session")
  ∧ vote_counter (fst (Vote "session_1_100" "Candidate A" 5 100 open_poll_server))
    = 1%Z.
Proof.
  destruct (vote_enqueues_one_entry_or_nothing "session_1_100" "Nobody" 5 100
              open_poll_server) as (H1 & _).
  destruct (vote_enqueues_one_entry_or_nothing "session_9_100" "Candidate A"
              5 100 open_poll_server) as (_ & H2 & _).
  destruct (vote_enqueues_one_entry_or_nothing "session_1_100" "Candidate A"
              5 100 open_poll_server) as (_ & _ & H3).
  split; [apply H1; vm_compute|]. 
  { intros H. repeat (apply elem_of_cons in H as [H|H]; [discriminate H|]).
    by apply elem_of_nil in H. }
  split; [apply H2; [vm_compute; repeat constructor|vm_compute; reflexivity]|].
  destruct (H3 (VoterInfo 1 "Alice" 100)) as (_ & _ & Hc & _);
    [vm_compute; repeat constructor|vm_compute; reflexivity|exact Hc].
Defined.

(** ** Registration, login and sessions *)

Lemma find_name_find_voter db name v :
  find_name db name = Some v →
  ∃ i w, find_voter db (v_id v) name = Some (i, w).
Proof.
  unfold find_voter. generalize 0.
  induction db as [|u db IH]; intros n; simpl; [done|].
  destruct (String.eqb (v_name u) name) eqn:Hn.
  - intros [= <-]. rewrite Z.eqb_refl. simpl. eauto.
  - intros H. rewrite andb_false_r. by apply IH.
Qed.

(** X2. Register then Login: whenever [Register(name)] reports success, a
    [Login] with that name and the id it returned succeeds in the state
    [Register] leaves, whether the voter was new or already registered. *)
Theorem register_then_login_succeeds net name s id now now' :
  dict_get "success" (snd (Register net name s)) = Some (VBool true) →
  dict_get "id" (snd (Register net name s)) = Some (VInt id) →
  dict_get "success" (snd (Login now now' name id (fst (Register net name s))))
  = Some (VBool true)
  ∧ dict_get "session_id"
      (snd (Login now now' name id (fst (Register net name s))))
    = Some (VStr (make_session_id id now)).
Proof.
  unfold Register. simpl.
  destruct (find_name (voters_db s) name) as [v|] eqn:Hf; simpl.
  - intros _ [= <-]. unfold Login. simpl.
    destruct (find_name_find_voter _ _ _ Hf) as (i & w & ->). done.
  - destruct (_replicate_to_replicas _ _); simpl; [|done].
    intros _ [= <-]. unfold Login. simpl.
    set (v := Voter _ name false None).
    destruct (find_name_find_voter (voters_db s ++ [v]) name v) as (i & w & Hw).
    { by apply find_name_app_new. }
    simpl in Hw. by rewrite Hw.
Qed.

Lemma register_then_login_succeeds_witness :
  dict_get "success"
    (snd (Login 100 100 "Bob" 2 (fst (Register net_down "Bob" init_server))))
  = Some (VBool true)
  ∧ dict_get "session_id"
      (snd (Login 100 100 "Bob" 2 (fst (Register net_down "Bob" init_server))))
    = Some (VStr (make_session_id 2 100)).
Proof.
  apply (register_then_login_succeeds net_down "Bob" init_server 2 100 100);
    vm_compute; reflexivity.
Defined.

(** No step of any thread removes a session or changes the voter id stored
    under a session id that names it. *)
Lemma handle_keeps_session c s sid :
  is_Some (active_sessions s !! sid) → is_Some (active_sessions (handle c s) !! sid).
Proof.
  intros Hs. destruct c; simpl; try done.
  - unfold Register. simpl. destruct (find_name _ _); [done|].
    by destruct (_replicate_to_replicas _ _).
  - unfold Login. simpl. destruct (find_voter _ _ _) as [[? ?]|]; [|done].
    simpl. rewrite lookup_insert. by case_decide.
  - unfold Vote. simpl. case_bool_decide; simpl; [|done].
    by destruct (active_sessions s !! sid0).
Qed.

Lemma task_step_sessions net s t :
  active_sessions (task_step net s t).1 = active_sessions s.
Proof.
  unfold task_step. destruct (t_pc t); simpl; try done.
  - pose proof (ensure_marked_frame s (t_voter_id t)) as H.
    destruct (ensure_marked s (t_voter_id t)) as [s' m]. simpl in *.
    by rewrite H.
  - by destruct (validate _ _ _).
  - destruct (t_voter_info t) as [info|]; [|done].
    pose proof (commit_vote_frame net s info (t_request t)) as H.
    destruct (commit_vote _ _ _ _) as [s' r]. simpl in *. by rewrite H.
  - by rewrite clear_mark_frame.
Qed.

Lemma sched_step_sessions s pc :
  active_sessions (sched_step s pc).1.1 = active_sessions s.
Proof.
  unfold sched_step. destruct pc; simpl.
  - by destruct (_ <? _)%Z.
  - destruct (vote_queue s) as [|e0 q0]; [done|].
    by destruct (heappop _ _) as [[e q]|].
  - by destruct (_ !! _).
  - by case_bool_decide.
  - done.
Qed.

Lemma exec_keeps_session a sys sys' sid :
  exec a sys = Some sys' →
  is_Some (active_sessions (srv sys) !! sid) →
  is_Some (active_sessions (srv sys') !! sid).
Proof.
  intros Hexec Hs. destruct a as [|i net|c]; simpl in Hexec.
  - pose proof (sched_step_sessions (srv sys) (sched sys)) as H.
    destruct (sched_step (srv sys) (sched sys)) as [[s' pc'] started].
    injection Hexec as <-. simpl in *. by rewrite H.
  - destruct (tasks sys !! i) as [t|]; [|done].
    pose proof (task_step_sessions net (srv sys) t) as H.
    destruct (task_step net (srv sys) t) as [s' t'].
    destruct (t_pc t); try done; injection Hexec as <-; simpl in *;
      by rewrite H.
  - injection Hexec as <-. by apply handle_keeps_session.
Qed.

Lemma exec_all_keeps_session acts sid : ∀ sys sys',
  exec_all acts sys = Some sys' →
  is_Some (active_sessions (srv sys) !! sid) →
  is_Some (active_sessions (srv sys') !! sid).
Proof.
  induction acts as [|a acts IH]; intros sys sys'; simpl.
  - by intros [= <-].
  - destruct (exec a sys) as [sys1|] eqn:Ha; [|done].
    intros Hrest Hs. eapply IH; [done|]. by eapply exec_keeps_session.
Qed.

Lemma exec_all_candidates acts : ∀ sys sys',
  exec_all acts sys = Some sys' → candidates (srv sys') = candidates (srv sys).
Proof.
  induction acts as [|a acts IH]; intros sys sys'; simpl.
  - by intros [= <-].
  - destruct (exec a sys) as [sys1|] eqn:Ha; [|done].
    intros Hrest. rewrite (IH _ _ Hrest).
    destruct a as [|i net|c]; simpl in Ha.
    + destruct (sched_step_frame (srv sys) (sched sys)) as [_ H].
      destruct (sched_step (srv sys) (sched sys)) as [[s' pc'] started].
      by injection Ha as <-.
    + destruct (tasks sys !! i) as [t|]; [|done].
      destruct (task_step_frame net (srv sys) t) as (_ & _ & H & _).
      destruct (task_step net (srv sys) t) as [s' t'].
      destruct (t_pc t); try done; by injection Ha as <-.
    + injection Ha as <-. apply handle_frame.
Qed.

(** X3. Sessions never expire: a session id returned by a successful [Login]
    is accepted by [Vote], with any listed candidate, in the state [Login]
    leaves and in every state reached from it by any steps of the scheduler,
    the admission threads and the RPC handlers. *)
Theorem login_session_accepted_ever_after
    now now' name voter_id s sid sys acts sys' cand ts click :
  dict_get "session_id" (snd (Login now now' name voter_id s)) = Some (VStr sid) →
  srv sys = fst (Login now now' name voter_id s) →
  exec_all acts sys = Some sys' →
  cand ∈ candidates s →
  snd (Vote sid cand ts click (srv sys'))
  = [("success", VBool true); ("message", VStr "Vote queued for processing");
     ("queued", VBool true)].
Proof.
  intros (-> & _ & Hs)%Login_session_id Hsrv Hacts Hcand.
  rewrite <- Hsrv in Hs.
  destruct (exec_all_keeps_session acts _ sys sys' Hacts (mk_is_Some _ _ Hs))
    as [info Hinfo].
  assert (Hc : cand ∈ candidates (srv sys')).
  { rewrite (exec_all_candidates acts sys sys' Hacts), Hsrv.
    unfold Login. simpl. by destruct (find_voter _ _ _) as [[? ?]|]. }
  unfold Vote. cbn [candidates tick set_lamport_clock active_sessions].
  rewrite bool_decide_eq_true_2 by done. cbn [negb]. by rewrite Hinfo.
Qed.

Lemma login_session_accepted_ever_after_witness :
  snd (Vote "session_1_100" "Candidate B" 9 100 (srv one_vote_system))
  = [("success", VBool true); ("message", VStr "Vote queued for processing");
     ("queued", VBool true)].
Proof.
  apply (login_session_accepted_ever_after 100 100 "Alice" 1 init_server
           "session_1_100"
           (System (fst (Login 100 100 "Alice" 1 init_server)) SCheck [])
           (tail one_vote_schedule) one_vote_system "Candidate B" 9 100).
  - vm_compute; reflexivity.
  - reflexivity.
  - vm_compute; reflexivity.
  - vm_compute. repeat constructor.
Defined.

(** ** The admission thread, start to end *)

Lemma validate_reads s1 s2 vi req :
  voting_active s1 = voting_active s2 →
  voting_deadline s1 = voting_deadline s2 →
  validate s1 vi req = validate s2 vi req.
Proof. intros Ha Hd. unfold validate. by rewrite Ha, Hd. Qed.

(** Every component of the state after [_process_single_vote], and its
    answer, in terms of the checks and of the block under [db_lock]. *)
Lemma process_single_vote_spec net s req :
  let vi := active_sessions s !! session_id req in
  snd (_process_single_vote net s req)
  = match validate s vi req, vi with
    | Some r, _ => Some r
    | None, Some info => Some (snd (commit_vote net s info req))
    | None, None => None
    end
  ∧ voters_db (fst (_process_single_vote net s req))
    = match validate s vi req, vi with
      | None, Some info => voters_db (fst (commit_vote net s info req))
      | _, _ => voters_db s
      end
  ∧ lamport_clock (fst (_process_single_vote net s req))
    = match validate s vi req with
      | None => (Z.max (lamport_clock s) (timestamp req) + 1)%Z
      | Some _ => lamport_clock s
      end
  ∧ active_votes (fst (_process_single_vote net s req)) = active_votes s
  ∧ in_progress_votes (fst (_process_single_vote net s req))
    = match vi with
      | Some info => in_progress_votes s ∖ {[vi_id info]}
      | None => in_progress_votes s
      end
  ∧ vote_queue (fst (_process_single_vote net s req)) = vote_queue s
  ∧ vote_counter (fst (_process_single_vote net s req)) = vote_counter s
  ∧ active_sessions (fst (_process_single_vote net s req)) = active_sessions s
  ∧ voting_active (fst (_process_single_vote net s req)) = voting_active s
  ∧ voting_deadline (fst (_process_single_vote net s req)) = voting_deadline s.
Proof.
  intros vi. unfold _process_single_vote. fold vi.
  set (s1 := set_active_votes s (active_votes s + 1)%Z).
  pose proof (ensure_marked_frame s1 (vi_id <$> vi)) as Hm.
  assert (Hin : in_progress_votes (ensure_marked s1 (vi_id <$> vi)).1
                = match vi with
                  | Some info => {[vi_id info]} ∪ in_progress_votes s
                  | None => in_progress_votes s
                  end).
  { unfold ensure_marked. destruct vi as [info|]; [|done]. simpl.
    case_bool_decide; simpl; [done|]. set_solver. }
  destruct (ensure_marked s1 (vi_id <$> vi)) as [s2 m]. cbn [fst] in Hm, Hin.
  rewrite (validate_reads s2 s vi req) by (by rewrite Hm).
  assert (Hclear : ∀ s3, in_progress_votes s3 = in_progress_votes s2 →
            in_progress_votes (clear_mark s3 (vi_id <$> vi))
            = match vi with
              | Some info => in_progress_votes s ∖ {[vi_id info]}
              | None => in_progress_votes s
              end).
  { intros s3 H3. unfold clear_mark. destruct vi as [info|]; simpl.
    - rewrite H3, Hin. rewrite bool_decide_eq_true_2 by set_solver.
      simpl. set_solver.
    - by rewrite H3, Hin. }
  destruct (validate s vi req) as [r|] eqn:Hv.
  - cbn [fst snd]. rewrite clear_mark_frame.
    rewrite Hclear by done. rewrite Hm. cbn.
    repeat split; try done; lia.
  - destruct vi as [info|] eqn:Hvi.
    + match goal with |- context [commit_vote net ?sx info req] =>
        destruct (commit_vote_reads net sx s info req) as [Hdb Hres];
          [by rewrite Hm|by rewrite Hm|];
        pose proof (commit_vote_frame net sx info req) as Hframe
      end.
      destruct (commit_vote net _ info req) as [s' r]. cbn [fst snd] in *.
      rewrite clear_mark_frame.
      rewrite Hclear by (by rewrite Hframe).
      rewrite Hframe, Hm. cbn.
      rewrite Hdb, Hres. repeat split; try done; lia.
    + cbn [fst snd]. rewrite clear_mark_frame.
      rewrite Hclear by done. rewrite Hm. cbn.
      repeat split; try done; lia.
Qed.

(** X4. The [finally] block undoes the bookkeeping on every path through
    [_process_single_vote]: whatever the request, the state and the replicas
    do, [active_votes] is back at its value before the call, the voter's
    in-progress mark is gone and no other mark is touched, and the queue,
    its counter and the sessions are as before. *)
Theorem admission_releases_mark_and_counter net s req :
  active_votes (fst (_process_single_vote net s req)) = active_votes s
  ∧ in_progress_votes (fst (_process_single_vote net s req))
    = match active_sessions s !! session_id req with
      | Some info => in_progress_votes s ∖ {[vi_id info]}
      | None => in_progress_votes s
      end
  ∧ vote_queue (fst (_process_single_vote net s req)) = vote_queue s
  ∧ vote_counter (fst (_process_single_vote net s req)) = vote_counter s
  ∧ active_sessions (fst (_process_single_vote net s req)) = active_sessions s.
Proof.
  destruct (process_single_vote_spec net s req)
    as (_ & _ & _ & H1 & H2 & H3 & H4 & H5 & _).
  done.
Qed.

(** X5. The checks before the commit, in the order the code makes them: an
    unknown session is refused as "Invalid session"; a known session while
    voting is off as "Voting is not active"; a click time strictly after a
    set, non-zero deadline as "Vote submitted after deadline". A refused
    request leaves the registry and the Lamport clock untouched. A deadline
    of [None] or [0] counts as no deadline, and a click exactly at the
    deadline is not late. *)
Theorem admission_checks_before_commit net s req :
  (active_sessions s !! session_id req = None →
     snd (_process_single_vote net s req) = Some (failure "Invalid session"))
  ∧ (is_Some (active_sessions s !! session_id req) →
     voting_active s = false →
     snd (_process_single_vote net s req)
     = Some (failure "Voting is not active"))
  ∧ (∀ d, is_Some (active_sessions s !! session_id req) →
     voting_active s = true → voting_deadline s = Some d →
     d ≠ 0%Z → (d < click_time req)%Z →
     snd (_process_single_vote net s req)
     = Some (failure "Vote submitted after deadline"))
  ∧ (validate s (active_sessions s !! session_id req) req ≠ None →
     voters_db (fst (_process_single_vote net s req)) = voters_db s
     ∧ lamport_clock (fst (_process_single_vote net s req)) = lamport_clock s)
  ∧ (voting_deadline s = None ∨ voting_deadline s = Some 0%Z
     ∨ (∃ d, voting_deadline s = Some d ∧ (click_time req ≤ d)%Z) →
     snd (_process_single_vote net s req)
     ≠ Some (failure "Vote submitted after deadline")).
Proof.
  destruct (process_single_vote_spec net s req) as (Hres & Hdb & Hclk & _).
  cbn zeta in *. rewrite Hres, Hdb, Hclk.
  split; [|split; [|split; [|split]]].
  - by intros ->.
  - intros [info ->] Ha. unfold validate. by rewrite Ha.
  - intros d [info ->] Ha Hd Hnz Hlt. unfold validate, after_deadline.
    rewrite Ha, Hd. simpl.
    destruct (Z.eqb_spec d 0); [done|]. simpl.
    by rewrite (proj2 (Z.ltb_lt d (click_time req)) Hlt).
  - by destruct (validate s _ req).
  - intros Hd.
    assert (after_deadline (voting_deadline s) (click_time req) = false) as Hnot.
    { unfold after_deadline. destruct Hd as [->|[->|(d & -> & Hle)]]; [done..|].
      apply andb_false_iff. right. by apply Z.ltb_ge. }
    unfold validate. rewrite Hnot.
    destruct (active_sessions s !! session_id req) as [info|]; [|done].
    destruct (voting_active s); simpl; [|done].
    unfold commit_vote. destruct (find_voter _ _ _) as [[i v]|]; [|done].
    destruct (has_voted v); [done|]. simpl.
    by destruct (_replicate_to_replicas _ _).
Qed.

Lemma admission_checks_before_commit_witness :
  snd (_process_single_vote net_up open_poll_server
         (VoteRequest "session_7_100" "Candidate A" 5 100))
  = Some (failure "Invalid session")
  ∧ snd (_process_single_vote net_up
           (fst (SetTimer net_up 50 open_poll_server))
           (VoteRequest "session_1_100" "Candidate A" 5 100))
    = Some (failure "Vote submitted after deadline")
  ∧ snd (_process_single_vote net_up
           (fst (SetTimer net_up 0 open_poll_server))
           (VoteRequest "session_1_100" "Candidate A" 5 100))
    ≠ Some (failure "Vote submitted after deadline").
Proof.
  split; [|split].
  - apply (admission_checks_before_commit net_up open_poll_server
             (VoteRequest "session_7_100" "Candidate A" 5 100)).
    vm_compute. reflexivity.
  - eapply (admission_checks_before_commit net_up
              (fst (SetTimer net_up 50 open_poll_server))
              (VoteRequest "session_1_100" "Candidate A" 5 100)).
    + exists (VoterInfo 1 "Alice" 100). vm_compute. reflexivity.
    + reflexivity.
    + reflexivity.
    + done.
    + simpl. lia.
  - apply (admission_checks_before_commit net_up
             (fst (SetTimer net_up 0 open_poll_server))
             (VoteRequest "session_1_100" "Candidate A" 5 100)).
    right. left. reflexivity.
Defined.

(** X6. A committed admission: when the checks pass, the voter is found and
    has not voted, and replication succeeds, the thread answers
    "Vote recorded successfully", the voter's record (and no other) now
    reads [has_voted = True] with the request's candidate, and the Lamport
    clock stands at [max(clock, timestamp) + 1], above the request's
    timestamp. *)
Theorem admission_commits_vote net s req info i v :
  active_sessions s !! session_id req = Some info →
  voting_active s = true →
  after_deadline (voting_deadline s) (click_time req) = false →
  find_voter (voters_db s) (vi_id info) (vi_name info) = Some (i, v) →
  has_voted v = false →
  _replicate_to_replicas net (replica_ports s) = true →
  snd (_process_single_vote net s req)
  = Some (success "Vote recorded successfully")
  ∧ voters_db (fst (_process_single_vote net s req))
    = <[i := Voter (v_id v) (v_name v) true (Some (candidate req))]> (voters_db s)
  ∧ (∀ j, j ≠ i →
       voters_db (fst (_process_single_vote net s req)) !! j = voters_db s !! j)
  ∧ lamport_clock (fst (_process_single_vote net s req))
    = (Z.max (lamport_clock s) (timestamp req) + 1)%Z
  ∧ (timestamp req < lamport_clock (fst (_process_single_vote net s req)))%Z.
Proof.
  intros Hs Ha Hd Hf Hv Hr.
  destruct (process_single_vote_spec net s req) as (Hres & Hdb & Hclk & _).
  cbn zeta in *. rewrite Hs in Hres, Hdb, Hclk. unfold validate in *.
  rewrite Ha, Hd in *. cbn [negb] in *.
  rewrite (commit_vote_recorded _ _ _ _ _ _ Hf Hv Hr) in Hres, Hdb.
  cbn in Hres, Hdb. rewrite Hres, Hdb, Hclk.
  repeat split; try done.
  - intros j Hj. by rewrite list_lookup_insert_ne.
  - lia.
Qed.

Lemma admission_commits_vote_witness :
  snd (_process_single_vote net_up open_poll_server
         (VoteRequest "session_1_100" "Candidate A" 5 100))
  = Some (success "Vote recorded successfully")
  ∧ lamport_clock (fst (_process_single_vote net_up open_poll_server
                          (VoteRequest "session_1_100" "Candidate A" 5 100)))
    = 6%Z.
Proof.
  destruct (admission_commits_vote net_up open_poll_server
              (VoteRequest "session_1_100" "Candidate A" 5 100)
              (VoterInfo 1 "Alice" 100) 0 (Voter 1 "Alice" false None))
    as (H1 & _ & _ & H4 & _); try (vm_compute; reflexivity).
  split; [exact H1|exact H4].
Defined.

(** ** One round of the scheduler loop *)

(** X7. One round of the scheduler loop, from the budget check. With the
    budget saturated, or with an empty queue, the scheduler changes nothing
    however often it runs. Otherwise it pops the root entry and then: drops
    the request if its session is unknown; puts the request back (same
    request, keyed by its timestamp and voter id, with the current counter,
    which is then advanced) if the voter is marked in progress; or else
    marks the voter and starts one admission thread for the request. *)
Theorem scheduler_round sys :
  sched sys = SCheck →
  ((max_concurrent_votes (srv sys) ≤ active_votes (srv sys))%Z →
     ∀ n, exec_all (repeat ASched n) sys = Some sys)
  ∧ ((active_votes (srv sys) < max_concurrent_votes (srv sys))%Z →
     vote_queue (srv sys) = [] →
     exec_all (repeat ASched 2) sys = Some sys)
  ∧ (∀ e queue',
     (active_votes (srv sys) < max_concurrent_votes (srv sys))%Z →
     heappop entry_lt (vote_queue (srv sys)) = Some (e, queue') →
     match active_sessions (srv sys) !! session_id (e_request e) with
     | None =>
         exec_all (repeat ASched 3) sys
         = Some (System (set_vote_queue (srv sys) queue') SCheck (tasks sys))
     | Some info =>
         if bool_decide (vi_id info ∈ in_progress_votes (srv sys)) then
           exec_all (repeat ASched 4) sys
           = Some (System
                     (set_vote_counter
                        (set_vote_queue (srv sys)
                           (heappush entry_lt queue'
                              (Entry (timestamp (e_request e)) (vi_id info)
                                 (vote_counter (srv sys)) (e_request e))))
                        (vote_counter (srv sys) + 1)%Z)
                     SCheck (tasks sys))
         else
           exec_all (repeat ASched 5) sys
           = Some (System
                     (set_in_progress_votes
                        (set_vote_queue (srv sys) queue')
                        ({[vi_id info]} ∪ in_progress_votes (srv sys)))
                     SCheck (tasks sys ++ [new_task (e_request e)]))
     end).
Proof.
  destruct sys as [s pc ts]. cbn [sched srv tasks]. intros ->.
  assert (Hstep : ∀ s0 pc0 s' pc' rest sys',
            sched_step s0 pc0 = (s', pc', None) →
            exec_all rest (System s' pc' ts) = sys' →
            exec_all (ASched :: rest) (System s0 pc0 ts) = sys').
  { intros s0 pc0 s' pc' rest sys' H Hrest. cbn [exec_all exec srv sched tasks].
    rewrite H. by rewrite app_nil_r. }
  split; [|split].
  - intros Hsat n. induction n as [|n IH]; [done|]. cbn [repeat].
    apply (Hstep s SCheck s SCheck); [|done]. cbn [sched_step].
    by rewrite (proj2 (Z.ltb_ge _ _) Hsat).
  - intros Hlt Hq. cbn [repeat].
    apply (Hstep s SCheck s SPop).
    { cbn [sched_step]. by rewrite (proj2 (Z.ltb_lt _ _) Hlt). }
    apply (Hstep s SPop s SCheck); [|done]. cbn [sched_step]. by rewrite Hq.
  - intros e queue' Hlt Hpop.
    assert (Hcheck : sched_step s SCheck = (s, SPop, None)).
    { cbn [sched_step]. by rewrite (proj2 (Z.ltb_lt _ _) Hlt). }
    assert (Hpop' : sched_step s SPop
                    = (set_vote_queue s queue', SLookup (e_request e), None)).
    { unfold sched_step. rewrite Hpop. destruct (vote_queue s); [done|done]. }
    set (s1 := set_vote_queue s queue') in *.
    destruct (active_sessions s !! session_id (e_request e)) as [info|] eqn:Hs.
    + assert (Hlook : sched_step s1 (SLookup (e_request e))
                      = (s1, SGuard (e_request e) (vi_id info), None)).
      { cbn [sched_step s1 active_sessions set_vote_queue]. by rewrite Hs. }
      case_bool_decide as Hin; cbn [repeat].
      * apply (Hstep _ _ _ _ _ _ Hcheck), (Hstep _ _ _ _ _ _ Hpop'),
          (Hstep _ _ _ _ _ _ Hlook).
        eapply Hstep; [|done].
        cbn [sched_step s1 in_progress_votes set_vote_queue].
        by rewrite bool_decide_eq_true_2 by done.
      * apply (Hstep _ _ _ _ _ _ Hcheck), (Hstep _ _ _ _ _ _ Hpop'),
          (Hstep _ _ _ _ _ _ Hlook).
        eapply Hstep.
        { cbn [sched_step s1 in_progress_votes set_vote_queue].
          by rewrite bool_decide_eq_false_2 by done. }
        done.
    + cbn [repeat].
      apply (Hstep _ _ _ _ _ _ Hcheck), (Hstep _ _ _ _ _ _ Hpop').
      eapply Hstep; [|done].
      cbn [sched_step s1 active_sessions set_vote_queue]. by rewrite Hs.
Qed.

Lemma scheduler_round_witness :
  ∃ sys', exec_all (repeat ASched 5) one_queued_system = Some sys'
          ∧ sched sys' = SCheck
          ∧ tasks sys'
            = [new_task (VoteRequest "session_1_100" "Candidate A" 5 100)]
          ∧ vote_queue (srv sys') = [].
Proof.
  destruct (scheduler_round one_queued_system eq_refl) as (_ & _ & H).
  specialize (H (Entry 5 1 0 (VoteRequest "session_1_100" "Candidate A" 5 100))
                []).
  assert (Hs : active_sessions (srv one_queued_system) !! "session_1_100"
               = Some (VoterInfo 1 "Alice" 100)) by (vm_compute; reflexivity).
  cbn [e_request session_id] in H. rewrite Hs in H.
  rewrite bool_decide_eq_false_2 in H by (vm_compute; set_solver).
  eexists. split; [apply H; vm_compute; reflexivity|].
  split; [reflexivity|]. split; vm_compute; reflexivity.
Defined.

(** ** The registry keeps its shape *)

(** The only steps that write the voter table are the block under [db_lock]
    of an admission thread and [Register]. *)
Lemma exec_voters_db a sys sys' :
  exec a sys = Some sys' →
  voters_db (srv sys') = voters_db (srv sys)
  ∨ (∃ net info req,
       voters_db (srv sys') = voters_db (fst (commit_vote net (srv sys) info req)))
  ∨ (∃ net name,
       voters_db (srv sys') = voters_db (fst (Register net name (srv sys)))).
Proof.
  intros Hexec. destruct a as [|i net|c]; simpl in Hexec.
  - destruct (sched_step_frame (srv sys) (sched sys)) as [Hdb _].
    destruct (sched_step (srv sys) (sched sys)) as [[s' pc'] started].
    injection Hexec as <-. by left.
  - destruct (tasks sys !! i) as [t|]; [|done].
    assert (Hdb : voters_db (task_step net (srv sys) t).1 = voters_db (srv sys)
                  ∨ ∃ info req, voters_db (task_step net (srv sys) t).1
                      = voters_db (fst (commit_vote net (srv sys) info req))).
    { unfold task_step. destruct (t_pc t); simpl; try by left.
      - pose proof (ensure_marked_frame (srv sys) (t_voter_id t)) as H.
        destruct (ensure_marked _ _) as [s' m]. simpl in *. rewrite H. by left.
      - destruct (validate _ _ _); by left.
      - destruct (t_voter_info t) as [info|]; [|by left].
        right. exists info, (t_request t). by destruct (commit_vote _ _ _ _).
      - rewrite clear_mark_frame. by left. }
    destruct (task_step net (srv sys) t) as [s' t'].
    assert (srv sys' = s') as ->.
    { destruct (t_pc t); try done; by injection Hexec as <-. }
    destruct Hdb as [?|(info & req & ?)]; [by left|right; left; eauto].
  - injection Hexec as <-. destruct c; simpl; try by left.
    + right. right. eauto.
    + left. unfold Login. simpl. by destruct (find_voter _ _ _) as [[? ?]|].
    + left. unfold Vote. simpl. case_bool_decide; simpl; [|done].
      by destruct (_ !! _).
Qed.

Lemma find_name_None db name : find_name db name = None → name ∉ v_name <$> db.
Proof.
  induction db as [|v db IH]; simpl; [intros _; apply not_elem_of_nil|].
  destruct (String.eqb (v_name v) name) eqn:Hn; [done|].
  intros H. apply not_elem_of_cons. split; [|by apply IH].
  apply String.eqb_neq in Hn. congruence.
Qed.

Lemma registry_inv_insert db i v v' :
  db !! i = Some v → v_id v' = v_id v → v_name v' = v_name v →
  registry_inv db → registry_inv (<[i := v']> db).
Proof.
  intros Hi Hid Hname [Hids Hnames]. split.
  - intros j w Hj.
    apply list_lookup_insert_Some in Hj as [(-> & <- & _)|[_ Hj]]; [|by apply Hids].
    rewrite Hid. by apply Hids.
  - rewrite list_fmap_insert, Hname. rewrite list_insert_id; [done|].
    by rewrite list_lookup_fmap, Hi.
Qed.

Lemma registry_inv_commit_vote net s info req :
  registry_inv (voters_db s) →
  registry_inv (voters_db (fst (commit_vote net s info req))).
Proof.
  intros Hinv. unfold commit_vote.
  destruct (find_voter _ _ _) as [[i v]|] eqn:Hf; [|done].
  destruct (find_voter_spec _ _ _ _ _ Hf) as (Hi & _ & _).
  destruct (has_voted v); [done|]. simpl.
  destruct (_replicate_to_replicas _ _); simpl.
  - by apply (registry_inv_insert _ _ v).
  - rewrite list_insert_insert_eq. by apply (registry_inv_insert _ _ v).
Qed.

Lemma registry_inv_Register net name s :
  registry_inv (voters_db s) →
  registry_inv (voters_db (fst (Register net name s))).
Proof.
  intros [Hids Hnames]. unfold Register. simpl.
  destruct (find_name _ _) eqn:Hf; [done|].
  destruct (_replicate_to_replicas _ _); simpl; [|by rewrite list_pop_app].
  split.
  - intros i v Hi. apply lookup_app_Some in Hi as [Hi|[Hle Hi]]; [by apply Hids|].
    apply list_lookup_singleton_Some in Hi as [Hz <-]. simpl. lia.
  - rewrite fmap_app. apply NoDup_app. split; [done|]. split.
    + intros x Hx [->|[]%elem_of_nil]%elem_of_cons.
      by apply find_name_None in Hf.
    + simpl. apply NoDup_singleton.
Qed.

Lemma exec_registry_inv a sys sys' :
  exec a sys = Some sys' →
  registry_inv (voters_db (srv sys)) ∧ 10 ≤ length (voters_db (srv sys)) →
  registry_inv (voters_db (srv sys')) ∧ 10 ≤ length (voters_db (srv sys')).
Proof.
  intros Hexec [Hinv Hlen].
  destruct (exec_voters_db a sys sys' Hexec)
    as [->|[(net & info & req & ->)|(net & name & ->)]]; [done|..].
  - split; [by apply registry_inv_commit_vote|].
    unfold commit_vote. destruct (find_voter _ _ _) as [[i v]|]; [|done].
    destruct (has_voted v); [done|]. simpl.
    destruct (_replicate_to_replicas _ _); simpl; by rewrite !length_insert.
  - split; [by apply registry_inv_Register|].
    unfold Register. simpl. destruct (find_name _ _); [done|].
    destruct (_replicate_to_replicas _ _); simpl.
    + rewrite length_app. lia.
    + by rewrite list_pop_app.
Qed.

Lemma registry_inv_find_voter db id name i v :
  registry_inv db → find_voter db id name = Some (i, v) →
  id = (Z.of_nat i + 1)%Z.
Proof.
  intros [Hids _] (Hi & <- & _)%find_voter_spec. by apply Hids.
Qed.

(** X8. In every reachable state the voter table has the shape that
    [Register] and the vote commit rely on: the record at index [i] carries
    id [i + 1], so ids are unique and sequential; names are pairwise
    distinct; the ten initial voters are never removed; and a lookup by
    (id, name) can only succeed at index [id - 1]. *)
Theorem registry_ids_sequential_names_unique sys :
  reachable sys →
  (∀ i v, voters_db (srv sys) !! i = Some v → v_id v = (Z.of_nat i + 1)%Z)
  ∧ NoDup (v_id <$> voters_db (srv sys))
  ∧ NoDup (v_name <$> voters_db (srv sys))
  ∧ 10 ≤ length (voters_db (srv sys))
  ∧ (∀ id name i v, find_voter (voters_db (srv sys)) id name = Some (i, v) →
       id = (Z.of_nat i + 1)%Z).
Proof.
  intros Hreach.
  assert (H : registry_inv (voters_db (srv sys))
              ∧ 10 ≤ length (voters_db (srv sys))).
  { induction Hreach as [|sys sys' _ IH [a Ha]]; [|by eapply exec_registry_inv].
    split; [|simpl; lia]. split.
    - intros i v Hi. simpl in Hi.
      do 10 (destruct i as [|i]; [by injection Hi as <-|]). done.
    - simpl. repeat (apply NoDup_cons; split; [vm_compute; set_solver|]).
      apply NoDup_nil_2. }
  destruct H as [[Hids Hnames] Hlen].
  split; [done|]. split; [|split; [done|split; [done|]]].
  - apply NoDup_alt. intros i j x Hi Hj.
    apply list_lookup_fmap_Some in Hi as (v & -> & Hv).
    apply list_lookup_fmap_Some in Hj as (w & Hvw & Hw).
    apply Hids in Hv, Hw. lia.
  - intros id name i v Hf. by eapply registry_inv_find_voter.
Qed.

Lemma registry_ids_sequential_names_unique_witness :
  NoDup (v_id <$> voters_db (srv one_vote_system))
  ∧ 10 ≤ length (voters_db (srv one_vote_system)).
Proof.
  assert (Hreach : reachable one_vote_system).
  { apply (exec_all_reachable one_vote_schedule init_system);
      [apply reachable_init|]. vm_compute. reflexivity. }
  destruct (registry_ids_sequential_names_unique one_vote_system Hreach)
    as (_ & H1 & _ & H2 & _).
  split; [exact H1|exact H2].
Defined.

(** ** [active_votes] counts the threads between increment and decrement *)

Lemma length_filter_insert {A} (P : A → Prop) `{∀ x, Decision (P x)}
    (l : list A) i x y :
  l !! i = Some x →
  length (filter P (<[i := y]> l)) + (if decide (P x) then 1 else 0)
  = length (filter P l) + (if decide (P y) then 1 else 0).
Proof.
  revert i. induction l as [|a l IH]; intros i Hi; [done|].
  destruct i as [|i]; simpl in *.
  - injection Hi as ->. rewrite !filter_cons.
    repeat case_decide; simpl; lia.
  - specialize (IH i Hi). rewrite !filter_cons.
    repeat case_decide; simpl in *; lia.
Qed.

Lemma length_filter_le {A} (P Q : A → Prop) `{∀ x, Decision (P x)}
    `{∀ x, Decision (Q x)} (l : list A) :
  (∀ x, P x → Q x) → length (filter P l) ≤ length (filter Q l).
Proof.
  intros HPQ. induction l as [|a l IH]; [done|]. rewrite !filter_cons.
  repeat case_decide; simpl; try lia. exfalso. auto.
Qed.

Lemma task_step_window net s t :
  (active_votes (task_step net s t).1
   + (if in_budget_window (t_pc t) then 1 else 0)
   = active_votes s
     + (if in_budget_window (t_pc (task_step net s t).2) then 1 else 0))%Z.
Proof.
  unfold task_step. destruct (t_pc t) eqn:Hpc; simpl; rewrite ?Hpc; try lia.
  - pose proof (ensure_marked_frame s (t_voter_id t)) as H.
    destruct (ensure_marked s (t_voter_id t)) as [s' m]. simpl in *.
    rewrite H. simpl. lia.
  - destruct (validate _ _ _); simpl; lia.
  - destruct (t_voter_info t) as [info|]; simpl; [|lia].
    pose proof (commit_vote_frame net s info (t_request t)) as H.
    destruct (commit_vote _ _ _ _) as [s' r]. simpl in *. rewrite H. simpl. lia.
  - rewrite clear_mark_frame. simpl. lia.
  - simpl. lia.
Qed.

Lemma sched_step_active_votes s pc :
  active_votes (sched_step s pc).1.1 = active_votes s.
Proof.
  unfold sched_step. destruct pc; simpl.
  - by destruct (_ <? _)%Z.
  - destruct (vote_queue s) as [|e0 q0]; [done|].
    by destruct (heappop _ _) as [[e q]|].
  - by destruct (_ !! _).
  - by case_bool_decide.
  - done.
Qed.

Lemma handle_active_votes c s : active_votes (handle c s) = active_votes s.
Proof.
  destruct c; simpl; try done.
  - unfold Register. simpl. destruct (find_name _ _); [done|].
    by destruct (_replicate_to_replicas _ _).
  - unfold Login. simpl. by destruct (find_voter _ _ _) as [[? ?]|].
  - unfold Vote. simpl. case_bool_decide; simpl; [|done].
    by destruct (_ !! _).
Qed.

Lemma exec_active_votes a sys sys' :
  exec a sys = Some sys' →
  active_votes (srv sys) = Z.of_nat (length (counted sys)) →
  active_votes (srv sys') = Z.of_nat (length (counted sys')).
Proof.
  unfold counted. intros Hexec Hinv. destruct a as [|i net|c]; simpl in Hexec.
  - pose proof (sched_step_active_votes (srv sys) (sched sys)) as Hav.
    destruct (sched_step (srv sys) (sched sys)) as [[s' pc'] started].
    injection Hexec as <-. simpl in *. rewrite Hav, Hinv, filter_app.
    rewrite length_app. destruct started as [r|].
    + rewrite filter_cons_False by done. simpl. lia.
    + simpl. lia.
  - destruct (tasks sys !! i) as [t|] eqn:Ht; [|done].
    pose proof (task_step_window net (srv sys) t) as Hw.
    destruct (task_step net (srv sys) t) as [s' t'].
    assert (sys' = System s' (sched sys) (<[i := t']> (tasks sys))) as ->.
    { destruct (t_pc t); try done; by injection Hexec as <-. }
    simpl in *.
    pose proof (length_filter_insert (λ t, in_budget_window (t_pc t) = true)
                  (tasks sys) i t t' Ht) as Hlen.
    cbn beta in Hlen.
    destruct (in_budget_window (t_pc t)), (in_budget_window (t_pc t'));
      repeat case_decide; try done; lia.
  - injection Hexec as <-. simpl. by rewrite handle_active_votes.
Qed.

(** X9. In every reachable state [active_votes] is exactly the number of
    admission threads that have run their increment and not yet their
    decrement. Hence it is never negative, never above the number of
    unfinished threads, and back at 0 whenever no thread is unfinished. *)
Theorem active_votes_counts_threads_in_window sys :
  reachable sys →
  active_votes (srv sys) = Z.of_nat (length (counted sys))
  ∧ (0 ≤ active_votes (srv sys) ≤ Z.of_nat (length (outstanding sys)))%Z
  ∧ (outstanding sys = [] → active_votes (srv sys) = 0%Z).
Proof.
  intros Hreach.
  assert (H : active_votes (srv sys) = Z.of_nat (length (counted sys))).
  { induction Hreach as [|sys sys' _ IH [a Ha]]; [done|].
    by eapply exec_active_votes. }
  assert (Hle : length (counted sys) ≤ length (outstanding sys)).
  { unfold counted, outstanding. apply length_filter_le.
    intros t Ht Heq. rewrite Heq in Ht. done. }
  split; [done|]. split; [lia|].
  intros Hout. rewrite Hout in Hle. simpl in Hle. lia.
Qed.

Lemma active_votes_counts_threads_in_window_witness :
  active_votes (srv over_budget_system) = 6%Z
  ∧ length (counted over_budget_system) = 6.
Proof.
  assert (Hreach : reachable over_budget_system).
  { apply (exec_all_reachable over_budget_schedule init_system);
      [apply reachable_init|]. vm_compute. reflexivity. }
  destruct (active_votes_counts_threads_in_window over_budget_system Hreach)
    as (H & _).
  split; [vm_compute; reflexivity|].
  apply Nat2Z.inj. rewrite <- H. vm_compute. reflexivity.
Defined.

(** ** The Lamport clock of the running coordinator *)

Lemma exec_clock_le a sys sys' :
  exec a sys = Some sys' →
  (lamport_clock (srv sys) ≤ lamport_clock (srv sys'))%Z.
Proof.
  intros Hexec. destruct a as [|i net|c]; simpl in Hexec.
  - assert (H : lamport_clock (sched_step (srv sys) (sched sys)).1.1
                = lamport_clock (srv sys)).
    { unfold sched_step. destruct (sched sys); simpl.
      - by destruct (_ <? _)%Z.
      - destruct (vote_queue _) as [|e0 q0]; [done|].
        by destruct (heappop _ _) as [[e q]|].
      - by destruct (_ !! _).
      - by case_bool_decide.
      - done. }
    destruct (sched_step (srv sys) (sched sys)) as [[s' pc'] started].
    injection Hexec as <-. simpl in *. lia.
  - destruct (tasks sys !! i) as [t|]; [|done].
    assert (H : (lamport_clock (srv sys)
                 ≤ lamport_clock (task_step net (srv sys) t).1)%Z).
    { unfold task_step. destruct (t_pc t); simpl; try lia.
      - pose proof (ensure_marked_frame (srv sys) (t_voter_id t)) as H.
        destruct (ensure_marked _ _) as [s' m]. simpl in *. rewrite H.
        simpl. lia.
      - destruct (validate _ _ _); simpl; lia.
      - destruct (t_voter_info t) as [info|]; simpl; [|lia].
        pose proof (commit_vote_frame net (srv sys) info (t_request t)) as H.
        destruct (commit_vote _ _ _ _) as [s' r]. simpl in *. rewrite H.
        simpl. lia.
      - rewrite clear_mark_frame. simpl. lia. }
    destruct (task_step net (srv sys) t) as [s' t'].
    destruct (t_pc t); try done; injection Hexec as <-; simpl in *; lia.
  - injection Hexec as <-. destruct c; simpl; try lia.
    + unfold Register. simpl. destruct (find_name _ _); simpl; [lia|].
      destruct (_replicate_to_replicas _ _); simpl; lia.
    + unfold Login. simpl. destruct (find_voter _ _ _) as [[? ?]|]; simpl; lia.
    + unfold Vote. simpl. case_bool_decide; simpl; [|lia].
      destruct (_ !! _); simpl; lia.
Qed.

(** X10. Under every interleaving of the scheduler, the admission threads
    and the RPC handlers the Lamport clock never goes back; it is never
    negative in a reachable state; each of [Register], [Login] and [Vote]
    advances it by exactly one, whatever the outcome of the call. *)
Theorem lamport_clock_never_goes_back :
  (∀ acts sys sys', exec_all acts sys = Some sys' →
      (lamport_clock (srv sys) ≤ lamport_clock (srv sys'))%Z)
  ∧ (∀ sys, reachable sys → (0 ≤ lamport_clock (srv sys))%Z)
  ∧ (∀ net name s,
      lamport_clock (fst (Register net name s)) = (lamport_clock s + 1)%Z)
  ∧ (∀ now now' name voter_id s,
      lamport_clock (fst (Login now now' name voter_id s))
      = (lamport_clock s + 1)%Z)
  ∧ (∀ sid cand ts click s,
      lamport_clock (fst (Vote sid cand ts click s)) = (lamport_clock s + 1)%Z).
Proof.
  split; [|split; [|split; [|split]]].
  - induction acts as [|a acts IH]; intros sys sys'; simpl.
    + intros [= <-]. lia.
    + destruct (exec a sys) as [sys1|] eqn:Ha; [|done].
      intros Hrest. pose proof (exec_clock_le _ _ _ Ha).
      pose proof (IH _ _ Hrest). lia.
  - induction 1 as [|sys sys' _ IH [a Ha]]; [done|].
    pose proof (exec_clock_le _ _ _ Ha). lia.
  - intros net name s. unfold Register. simpl.
    destruct (find_name _ _); [done|].
    by destruct (_replicate_to_replicas _ _).
  - intros now now' name voter_id s. unfold Login. simpl.
    by destruct (find_voter _ _ _) as [[? ?]|].
  - intros sid cand ts click s. unfold Vote. simpl.
    case_bool_decide; simpl; [|done]. by destruct (_ !! _).
Qed.

Lemma lamport_clock_never_goes_back_witness :
  (lamport_clock (srv init_system) ≤ lamport_clock (srv one_vote_system))%Z.
Proof.
  destruct lamport_clock_never_goes_back as (H & _).
  apply (H one_vote_schedule). vm_compute. reflexivity.
Defined.

(** ** Queued and admitted requests always resolve *)

Lemma registered_commit_vote net s info req id name :
  registered s id name → registered (fst (commit_vote net s info req)) id name.
Proof.
  intros (i & v & Hf). unfold commit_vote.
  destruct (find_voter _ (vi_id info) _) as [[j w]|] eqn:Hfj; [|by exists i, v].
  destruct (has_voted w) eqn:Hw; [by exists i, v|]. simpl.
  destruct (find_voter_spec _ _ _ _ _ Hfj) as (Hj & _ & _).
  destruct (_replicate_to_replicas _ _); unfold registered;
    cbn [fst voters_db set_voters_db]; rewrite ?list_insert_insert_eq.
  - rewrite find_voter_insert, Hf; [simpl; eauto|].
    intros u Hu. rewrite Hj in Hu. by injection Hu as <-.
  - rewrite find_voter_insert, Hf; [simpl; eauto|].
    intros u Hu. rewrite Hj in Hu. by injection Hu as <-.
Qed.

Lemma registered_Register net name' s id name :
  registered s id name → registered (fst (Register net name' s)) id name.
Proof.
  intros (i & v & Hf). unfold Register. simpl.
  destruct (find_name _ _); [by exists i, v|].
  destruct (_replicate_to_replicas _ _); unfold registered;
    cbn [fst voters_db set_voters_db tick set_lamport_clock].
  - exists i, v. by apply find_voter_from_app.
  - rewrite list_pop_app. by exists i, v.
Qed.

Lemma exec_registered a sys sys' id name :
  exec a sys = Some sys' →
  registered (srv sys) id name → registered (srv sys') id name.
Proof.
  intros Hexec Hr. unfold registered.
  destruct (exec_voters_db a sys sys' Hexec)
    as [->|[(net & info & req & ->)|(net & name' & ->)]]; [done|..].
  - by apply registered_commit_vote.
  - by apply registered_Register.
Qed.

(** The only step that writes the session store is a successful [Login]. *)
Lemma exec_sessions a sys sys' :
  exec a sys = Some sys' →
  active_sessions (srv sys') = active_sessions (srv sys)
  ∨ ∃ now now' name voter_id,
      registered (srv sys) voter_id name
      ∧ voters_db (srv sys') = voters_db (srv sys)
      ∧ active_sessions (srv sys')
        = <[make_session_id voter_id now := VoterInfo voter_id name now']>
            (active_sessions (srv sys)).
Proof.
  intros Hexec. destruct a as [|i net|c]; simpl in Hexec.
  - pose proof (sched_step_sessions (srv sys) (sched sys)) as H.
    destruct (sched_step (srv sys) (sched sys)) as [[s' pc'] started].
    injection Hexec as <-. by left.
  - destruct (tasks sys !! i) as [t|]; [|done].
    pose proof (task_step_sessions net (srv sys) t) as H.
    destruct (task_step net (srv sys) t) as [s' t'].
    destruct (t_pc t); try done; injection Hexec as <-; by left.
  - injection Hexec as <-. destruct c; simpl; try by left.
    + left. unfold Register. simpl. destruct (find_name _ _); [done|].
      by destruct (_replicate_to_replicas _ _).
    + unfold Login. simpl.
      destruct (find_voter _ _ _) as [[j v]|] eqn:Hf; [|by left].
      right. exists now, now', name, voter_id. simpl.
      split; [by exists j, v|done].
    + left. unfold Vote. simpl. case_bool_decide; simpl; [|done].
      by destruct (_ !! _).
Qed.

Lemma exec_extends a sys sys' :
  session_inv (srv sys) → exec a sys = Some sys' →
  extends (srv sys) (srv sys').
Proof.
  intros Hinv Hexec. split; [|intros id name; by apply (exec_registered a)].
  intros req v. unfold request_voter.
  destruct (exec_sessions a sys sys' Hexec)
    as [->|(now & now' & name & voter_id & _ & _ & ->)]; [done|].
  destruct (active_sessions (srv sys) !! session_id req) as [info|] eqn:Hs;
    [|done].
  simpl. intros [= <-]. rewrite lookup_insert. case_decide as Hk; [|by rewrite Hs].
  simpl. f_equal. destruct (Hinv _ _ Hs) as [[now0 Hkey] _].
  rewrite Hkey in Hk. by apply make_session_id_inj in Hk as [-> _].
Qed.

Lemma exec_session_inv a sys sys' :
  session_inv (srv sys) → exec a sys = Some sys' → session_inv (srv sys').
Proof.
  intros Hinv Hexec sid info Hs.
  destruct (exec_sessions a sys sys' Hexec)
    as [Heq|(now & now' & name & voter_id & Hreg & Hdb & Heq)];
    rewrite Heq in Hs.
  - destruct (Hinv _ _ Hs) as [Hkey Hreg]. split; [done|].
    by apply (exec_registered a sys).
  - apply lookup_insert_Some in Hs as [[<- <-]|[_ Hs]].
    + simpl. split; [eauto|]. unfold registered. by rewrite Hdb.
    + destruct (Hinv _ _ Hs) as [Hkey Hreg']. split; [done|].
      by apply (exec_registered a sys).
Qed.

Lemma task_resolves_extends s s' t :
  extends s s' → task_resolves s t → task_resolves s' t.
Proof.
  intros [Hv Hr] [[v H1] H2 H3]. split; [|intros Hpc|done].
  - exists v. by apply Hv.
  - destruct (H2 Hpc) as (info & ? & ? & ? & ?). exists info. auto.
Qed.

Lemma sched_resolves_extends s s' pc :
  extends s s' → sched_resolves s pc → sched_resolves s' pc.
Proof.
  intros [Hv _]. destruct pc; simpl; try done; try by apply Hv.
  all: intros [v H]; exists v; by apply Hv.
Qed.

Lemma validate_not_invalid_session s info req r :
  validate s (Some info) req = Some r →
  r ≠ failure "Invalid session" ∧ r ≠ failure "Voter not found".
Proof.
  unfold validate. destruct (negb _); [by intros [= <-]|].
  destruct (after_deadline _ _); [by intros [= <-]|done].
Qed.

Lemma commit_vote_found net s info req :
  registered s (vi_id info) (vi_name info) →
  snd (commit_vote net s info req) ≠ failure "Invalid session"
  ∧ snd (commit_vote net s info req) ≠ failure "Voter not found".
Proof.
  intros (i & v & Hf). unfold commit_vote. rewrite Hf.
  destruct (has_voted v); [done|]. simpl.
  by destruct (_replicate_to_replicas _ _).
Qed.

(** The thread that takes the step still resolves afterwards. *)
Lemma task_step_resolves net s t :
  session_inv s → task_resolves s t →
  task_resolves s (task_step net s t).2.
Proof.
  intros Hinv [[v Hv] Hloc Hres]. unfold task_step.
  destruct (t_pc t) eqn:Hpc.
  - simpl. unfold request_voter in Hv.
    destruct (active_sessions s !! session_id (t_request t)) as [info|] eqn:Hs;
      [|done].
    split; simpl; [by exists v; unfold request_voter; rewrite Hs| |done].
    intros _. exists info. unfold request_voter. rewrite Hs.
    repeat split; try done. by apply (Hinv _ _ Hs).
  - split; simpl; [by exists v|intros _; by apply Hloc|done].
  - destruct (ensure_marked s (t_voter_id t)) as [s' m]. simpl.
    split; simpl; [by exists v|intros _; by apply Hloc|done].
  - destruct (Hloc ltac:(done)) as (info & Hi & ? & ? & ?). rewrite Hi.
    destruct (validate s (Some info) (t_request t)) as [r|] eqn:Hval; simpl.
    + split; simpl; [by exists v|intros _; by apply Hloc|].
      destruct (validate_not_invalid_session _ _ _ _ Hval).
      split; congruence.
    + split; simpl; [by exists v|intros _; by apply Hloc|done].
  - split; simpl; [by exists v|intros _; by apply Hloc|done].
  - destruct (Hloc ltac:(done)) as (info & Hi & ? & ? & Hreg). rewrite Hi.
    pose proof (commit_vote_found net s info (t_request t) Hreg) as [Hr1 Hr2].
    destruct (commit_vote net s info (t_request t)) as [s' r]. simpl in *.
    split; simpl; [by exists v|intros _; by apply Hloc|].
    split; congruence.
  - split; simpl; [by exists v|intros _; by apply Hloc|done].
  - split; simpl; [by exists v|intros _; by apply Hloc|done].
  - simpl. split; [by exists v|intros _; by apply Hloc|exact Hres].
Qed.

Lemma sched_step_resolution s pc :
  (∀ e, e ∈ vote_queue s → request_voter s (e_request e) = Some (e_voter_id e)) →
  sched_resolves s pc →
  (∀ e, e ∈ vote_queue (sched_step s pc).1.1 →
        request_voter s (e_request e) = Some (e_voter_id e))
  ∧ sched_resolves s (sched_step s pc).1.2
  ∧ (∀ r, (sched_step s pc).2 = Some r → is_Some (request_voter s r)).
Proof.
  intros Hq Hpc. unfold sched_step. destruct pc as [| |req|req vid|req]; simpl.
  - by destruct (_ <? _)%Z.
  - destruct (vote_queue s) as [|e0 q0] eqn:Hqueue.
    { simpl. rewrite Hqueue. split; [|done]. intros e He.
      by apply elem_of_nil in He. }
    rewrite <- Hqueue.
    rewrite <- Hqueue in Hq.
    destruct (heappop _ _) as [[e q]|] eqn:Hpop.
    2:{ apply heappop_None in Hpop. congruence. }
    simpl.
    pose proof (heappop_perm _ _ _ _ Hpop) as Hperm.
    split; [|split; [|done]].
    + intros x Hx. apply Hq. rewrite Hperm. by right.
    + rewrite (Hq e); [done|]. rewrite Hperm. by left.
  - unfold request_voter.
    destruct (active_sessions s !! session_id req) as [info|] eqn:Hs; simpl;
      [|done].
    split; [done|]. split; [|done]. unfold request_voter. by rewrite Hs.
  - simpl in Hpc. case_bool_decide; simpl.
    + split; [|done]. intros e.
      rewrite heappush_perm, elem_of_cons. intros [->|He]; [done|by apply Hq].
    + split; [done|]. split; [by rewrite Hpc|done].
  - split; [done|]. split; [done|]. by intros r [= <-].
Qed.

Lemma handle_queue_resolves c s :
  (∀ e, e ∈ vote_queue s → request_voter s (e_request e) = Some (e_voter_id e)) →
  ∀ e, e ∈ vote_queue (handle c s) →
       request_voter s (e_request e) = Some (e_voter_id e).
Proof.
  intros Hq e. destruct c; simpl; try by apply Hq.
  - unfold Register. simpl. destruct (find_name _ _); [by apply Hq|].
    destruct (_replicate_to_replicas _ _); by apply Hq.
  - unfold Login. simpl. destruct (find_voter _ _ _) as [[? ?]|]; by apply Hq.
  - unfold Vote. simpl. case_bool_decide; simpl; [|by apply Hq].
    destruct (active_sessions s !! sid) as [info|] eqn:Hs; simpl;
      [|by apply Hq].
    rewrite heappush_perm, elem_of_cons. intros [->|He]; [|by apply Hq].
    unfold request_voter. simpl. by rewrite Hs.
Qed.

Lemma exec_resolution_inv a sys sys' :
  resolution_inv sys → exec a sys = Some sys' → resolution_inv sys'.
Proof.
  intros [Hsess Hq Hsched Htasks] Hexec.
  pose proof (exec_extends a sys sys' Hsess Hexec) as Hext.
  pose proof (exec_session_inv a sys sys' Hsess Hexec) as Hsess'.
  destruct a as [|i net|c]; simpl in Hexec.
  - destruct (sched_step_resolution (srv sys) (sched sys) Hq Hsched)
      as (Hq' & Hpc' & Hst).
    destruct (sched_step (srv sys) (sched sys)) as [[s' pc'] started].
    injection Hexec as <-. simpl in *. split; simpl; [done|..].
    + intros e He. apply Hext. by apply Hq'.
    + by apply (sched_resolves_extends (srv sys)).
    + intros t [Ht|Ht]%elem_of_app.
      * apply (task_resolves_extends (srv sys)); [done|by apply Htasks].
      * destruct started as [r|]; [|by apply elem_of_nil in Ht].
        apply list_elem_of_singleton in Ht as ->.
        destruct (Hst r eq_refl) as [v Hv].
        split; simpl; [exists v; by apply Hext|done|done].
  - destruct (tasks sys !! i) as [t|] eqn:Ht; [|done].
    assert (Hres : task_resolves (srv sys) t).
    { apply Htasks. by eapply list_elem_of_lookup_2. }
    pose proof (task_step_resolves net (srv sys) t Hsess Hres) as Hres'.
    destruct (task_step_frame net (srv sys) t) as (Hvq & _).
    destruct (task_step net (srv sys) t) as [s' t'].
    assert (sys' = System s' (sched sys) (<[i := t']> (tasks sys))) as ->.
    { destruct (t_pc t); try done; by injection Hexec as <-. }
    simpl in *. split; simpl; [done|..].
    + rewrite Hvq. intros e He. apply Hext. by apply Hq.
    + by apply (sched_resolves_extends (srv sys)).
    + intros u Hu. apply list_elem_of_lookup in Hu as [j Hj].
      apply (task_resolves_extends (srv sys)); [done|].
      apply list_lookup_insert_Some in Hj as [(-> & <- & _)|[_ Hj]]; [done|].
      apply Htasks. by eapply list_elem_of_lookup_2.
  - injection Hexec as <-. simpl in *. split; simpl; [done|..].
    + intros e He. apply Hext. by apply (handle_queue_resolves c).
    + by apply (sched_resolves_extends (srv sys)).
    + intros t Ht. apply (task_resolves_extends (srv sys)); [done|].
      by apply Htasks.
Qed.

Lemma reachable_resolution_inv sys : reachable sys → resolution_inv sys.
Proof.
  induction 1 as [|sys sys' _ IH [a Ha]]; [|by eapply exec_resolution_inv].
  split; simpl; [|intros e He; by apply elem_of_nil in He|done
                 |intros t Ht; by apply elem_of_nil in Ht].
  intros sid info Hs. unfold init_server in Hs. cbn [active_sessions] in Hs.
  by rewrite lookup_empty in Hs.
Qed.

(** X11. Sessions are never removed and always name a registered voter, so
    in every reachable state: each queued entry is keyed by the voter id its
    session resolves to; the scheduler, having popped a request, always
    finds its session and goes on to the in-progress check (it never drops
    a queued vote); and no admission thread has answered "Invalid session"
    or "Voter not found". *)
Theorem queued_votes_always_resolve sys :
  reachable sys →
  (∀ sid info, active_sessions (srv sys) !! sid = Some info →
       ∃ i v, find_voter (voters_db (srv sys)) (vi_id info) (vi_name info)
              = Some (i, v))
  ∧ (∀ e, e ∈ vote_queue (srv sys) →
       ∃ info, active_sessions (srv sys) !! session_id (e_request e) = Some info
               ∧ vi_id info = e_voter_id e)
  ∧ (∀ req, sched sys = SLookup req →
       ∃ info, sched_step (srv sys) (SLookup req)
               = (srv sys, SGuard req (vi_id info), None))
  ∧ (∀ t, t ∈ tasks sys →
       t_result t ≠ Some (failure "Invalid session")
       ∧ t_result t ≠ Some (failure "Voter not found")).
Proof.
  intros Hreach.
  destruct (reachable_resolution_inv sys Hreach) as [Hsess Hq Hsched Htasks].
  split; [|split; [|split]].
  - intros sid info Hs. by apply (Hsess _ _ Hs).
  - intros e He. specialize (Hq e He). unfold request_voter in Hq.
    destruct (active_sessions (srv sys) !! session_id (e_request e))
      as [info|]; [|done].
    exists info. split; [done|]. by injection Hq.
  - intros req Hpc. rewrite Hpc in Hsched. destruct Hsched as [v Hv].
    unfold request_voter in Hv. simpl.
    destruct (active_sessions (srv sys) !! session_id req) as [info|]; [|done].
    by exists info.
  - intros t Ht. by apply (Htasks t Ht).
Qed.

Lemma queued_votes_always_resolve_witness :
  ∃ info, active_sessions (srv two_votes_system) !! "session_2_100" = Some info
          ∧ vi_id info = 2%Z.
Proof.
  assert (Hreach : reachable two_votes_system).
  { apply (exec_all_reachable two_votes_schedule init_system);
      [apply reachable_init|]. vm_compute. reflexivity. }
  destruct (queued_votes_always_resolve two_votes_system Hreach)
    as (_ & H & _).
  apply (H (Entry 3 2 1 (VoteRequest "session_2_100" "Candidate B" 3 100))).
  vm_compute. left.
Defined.

(** ** The in-progress guard *)

Lemma omap_cons {A B} (f : A → option B) a (l : list A) :
  omap f (a :: l)
  = match f a with Some b => b :: omap f l | None => omap f l end.
Proof. done. Qed.

Lemma omap_insert_same {A B} (f : A → option B) (l : list A) i x y :
  l !! i = Some x → f y = f x → omap f (<[i := y]> l) = omap f l.
Proof.
  revert i. induction l as [|a l IH]; intros i Hi Hf; [done|].
  destruct i as [|i]; simpl in Hi.
  - injection Hi as ->. change (<[0 := y]> (x :: l)) with (y :: l).
    by rewrite !omap_cons, Hf.
  - change (<[S i := y]> (a :: l)) with (a :: <[i := y]> l).
    by rewrite !omap_cons, (IH i Hi Hf).
Qed.

Lemma omap_insert_drop {A B} (f : A → option B) (l : list A) i x y v :
  l !! i = Some x → f x = Some v → f y = None →
  omap f l ≡ₚ v :: omap f (<[i := y]> l).
Proof.
  revert i. induction l as [|a l IH]; intros i Hi Hx Hy; [done|].
  destruct i as [|i]; simpl in Hi.
  - injection Hi as ->. change (<[0 := y]> (x :: l)) with (y :: l).
    by rewrite !omap_cons, Hx, Hy.
  - change (<[S i := y]> (a :: l)) with (a :: <[i := y]> l).
    rewrite !omap_cons. destruct (f a) as [b|].
    + rewrite (IH i Hi Hx Hy). apply perm_swap.
    + by apply IH.
Qed.

Lemma omap_NoDup_lookup {A B} (f : A → option B) (l : list A) i j x y v :
  NoDup (omap f l) → l !! i = Some x → l !! j = Some y →
  f x = Some v → f y = Some v → i = j.
Proof.
  revert i j. induction l as [|a l IH]; intros i j Hnd Hi Hj Hx Hy; [done|].
  assert (Hin : ∀ k z, l !! k = Some z → f z = Some v → v ∈ omap f l).
  { intros k z Hk Hz. apply list_elem_of_omap. exists z.
    split; [by eapply list_elem_of_lookup_2|done]. }
  rewrite omap_cons in Hnd.
  destruct i as [|i], j as [|j]; simpl in Hi, Hj; [done|..].
  - injection Hi as ->. rewrite Hx in Hnd. apply NoDup_cons in Hnd as [Hn _].
    exfalso. apply Hn. by eapply Hin.
  - injection Hj as ->. rewrite Hy in Hnd. apply NoDup_cons in Hnd as [Hn _].
    exfalso. apply Hn. by eapply Hin.
  - f_equal. apply IH; try done.
    destruct (f a); [by apply NoDup_cons in Hnd as [_ ?]|done].
Qed.

Lemma holder_of_extends s s' t :
  extends s s' → is_Some (request_voter s (t_request t)) →
  holder_of s' t = holder_of s t.
Proof.
  intros [Hv _] [v H]. unfold holder_of. case_decide; [done|].
  by rewrite H, (Hv _ _ H).
Qed.

Lemma omap_holder_of_extends s s' (ts : list task) :
  extends s s' → (∀ t, t ∈ ts → task_resolves s t) →
  omap (holder_of s') ts = omap (holder_of s) ts.
Proof.
  intros Hext Hts. induction ts as [|t ts IH]; [done|]. rewrite !omap_cons.
  rewrite (holder_of_extends s s' t Hext).
  - rewrite IH; [done|]. intros u Hu. apply Hts. by right.
  - apply Hts. by left.
Qed.

Lemma task_step_in_progress net s t :
  in_progress_votes (task_step net s t).1
  = match t_pc t, t_voter_id t with
    | TMark, Some v => {[v]} ∪ in_progress_votes s
    | TClearMark, Some v => in_progress_votes s ∖ {[v]}
    | _, _ => in_progress_votes s
    end.
Proof.
  unfold task_step. destruct (t_pc t); simpl; try done.
  - unfold ensure_marked. destruct (t_voter_id t) as [v|]; [|done].
    case_bool_decide as Hin; simpl; [done|].
    apply set_eq. intros x.
    rewrite elem_of_union, elem_of_singleton. naive_solver.
  - by destruct (validate _ _ _).
  - destruct (t_voter_info t) as [info|]; simpl; [|done].
    pose proof (commit_vote_frame net s info (t_request t)) as H.
    destruct (commit_vote _ _ _ _) as [s' r]. simpl in *. by rewrite H.
  - unfold clear_mark. destruct (t_voter_id t) as [v|]; [|done].
    case_bool_decide as Hin; simpl; [done|].
    apply set_eq. intros x.
    rewrite elem_of_difference, elem_of_singleton. naive_solver.
Qed.

Lemma task_step_pc net s t :
  t_pc t ≠ TDone →
  (t_pc (task_step net s t).2 = TDone ↔ t_pc t = TClearMark).
Proof.
  intros Hpc. unfold task_step. destruct (t_pc t); simpl; try done.
  - by destruct (ensure_marked _ _).
  - by destruct (validate _ _ _).
  - destruct (t_voter_info t); [|done]. by destruct (commit_vote _ _ _ _).
Qed.

Lemma sched_step_in_progress s pc :
  in_progress_votes (sched_step s pc).1.1
  = match pc with
    | SGuard req voter_id =>
        if bool_decide (voter_id ∈ in_progress_votes s)
        then in_progress_votes s
        else {[voter_id]} ∪ in_progress_votes s
    | _ => in_progress_votes s
    end.
Proof.
  unfold sched_step. destruct pc; simpl.
  - by destruct (_ <? _)%Z.
  - destruct (vote_queue s) as [|e0 q0]; [done|].
    by destruct (heappop _ _) as [[e q]|].
  - by destruct (_ !! _).
  - by case_bool_decide.
  - done.
Qed.

Lemma handle_in_progress c s :
  in_progress_votes (handle c s) = in_progress_votes s.
Proof.
  destruct c; simpl; try done.
  - unfold Register. simpl. destruct (find_name _ _); [done|].
    by destruct (_replicate_to_replicas _ _).
  - unfold Login. simpl. by destruct (find_voter _ _ _) as [[? ?]|].
  - unfold Vote. simpl. case_bool_decide; simpl; [|done].
    by destruct (_ !! _).
Qed.

Lemma guard_inv_same sys sys' :
  holders sys' = holders sys →
  (∀ v, v ∈ in_progress_votes (srv sys') ↔ v ∈ in_progress_votes (srv sys)) →
  guard_inv sys → guard_inv sys'.
Proof.
  intros Hh Hin [Hnd Hiff]. split; rewrite Hh; [done|].
  intros v. by rewrite Hin.
Qed.

Lemma request_voter_sessions s s' req :
  active_sessions s' = active_sessions s →
  request_voter s' req = request_voter s req.
Proof. intros H. unfold request_voter. by rewrite H. Qed.

Lemma holder_of_sessions s s' t :
  active_sessions s' = active_sessions s → holder_of s' t = holder_of s t.
Proof.
  intros H. unfold holder_of. by rewrite (request_voter_sessions s s').
Qed.

Lemma omap_holder_of_sessions s s' (ts : list task) :
  active_sessions s' = active_sessions s →
  omap (holder_of s') ts = omap (holder_of s) ts.
Proof.
  intros H. apply list_omap_ext.
  apply Forall2_same_length_lookup. split; [done|].
  intros i t u Ht Hu. rewrite Ht in Hu. injection Hu as <-.
  by apply holder_of_sessions.
Qed.

(** The scheduler's steps keep the guard invariant. *)
Lemma sched_guard_inv sys sys' :
  resolution_inv sys → guard_inv sys → exec ASched sys = Some sys' →
  guard_inv sys'.
Proof.
  intros [_ _ Hsched _] Hg Hexec. simpl in Hexec.
  pose proof (sched_step_sessions (srv sys) (sched sys)) as Hs.
  pose proof (sched_step_in_progress (srv sys) (sched sys)) as Hin.
  destruct sys as [s pc ts]. simpl in *.
  destruct pc as [| |req|req vid|req]; simpl in Hexec, Hin.
  - destruct (_ <? _)%Z; injection Hexec as <-;
      (apply (guard_inv_same (System s SCheck ts) _); [|done|done]);
      unfold holders; cbn [srv sched tasks]; by rewrite !app_nil_r.
  - destruct (vote_queue s) as [|e0 q0] eqn:Hq.
    { injection Hexec as <-.
      apply (guard_inv_same (System s SPop ts) _); [|done|done].
      unfold holders; cbn [srv sched tasks]; by rewrite !app_nil_r. }
    rewrite <- Hq in *. destruct (heappop entry_lt (vote_queue s)) as [[e q]|].
    + injection Hexec as <-.
      apply (guard_inv_same (System s SPop ts) _); [|done|done].
      unfold holders; cbn [srv sched tasks]; by rewrite !app_nil_r.
    + injection Hexec as <-.
      apply (guard_inv_same (System s SPop ts) _); [|done|done].
      unfold holders; cbn [srv sched tasks]; by rewrite !app_nil_r.
  - destruct (active_sessions s !! session_id req); injection Hexec as <-;
      (apply (guard_inv_same (System s (SLookup req) ts) _); [|done|done]);
      unfold holders; cbn [srv sched tasks]; by rewrite !app_nil_r.
  - simpl in Hsched. case_bool_decide as Hmarked; injection Hexec as <-.
    + apply (guard_inv_same (System s (SGuard req vid) ts) _); [|done|done].
      unfold holders; cbn [srv sched tasks]; by rewrite !app_nil_r.
    + destruct Hg as [Hnd Hiff]. unfold guard_inv, holders in *.
      cbn [srv sched tasks] in *. rewrite !app_nil_r in *.
      rewrite (request_voter_sessions s) by done. rewrite Hsched.
      rewrite (omap_holder_of_sessions s _ ts) by done.
      cbn [in_progress_votes set_in_progress_votes].
      change (option_list (Some vid)) with [vid].
      split.
      * apply NoDup_app. split; [done|]. split; [|apply NoDup_singleton].
        intros x Hx ->%list_elem_of_singleton. apply Hmarked. by apply Hiff.
      * intros v. rewrite elem_of_union, elem_of_app, <- Hiff.
        rewrite elem_of_singleton, elem_of_cons.
        split; [intros [->|?]; auto|intros [?|[->|?%elem_of_nil]]; auto; done].
  - injection Hexec as <-. simpl in Hsched. destruct Hsched as [v Hv].
    apply (guard_inv_same (System s (SSpawn req) ts) _); [|done|done].
    unfold holders. cbn [srv sched tasks]. rewrite omap_app, app_nil_r.
    f_equal.
Qed.

(** The steps of an admission thread keep the guard invariant. *)
Lemma task_guard_inv i net sys sys' :
  resolution_inv sys → guard_inv sys → exec (ATask i net) sys = Some sys' →
  guard_inv sys'.
Proof.
  intros [_ _ _ Htasks] [Hnd Hiff] Hexec. simpl in Hexec.
  destruct (tasks sys !! i) as [t|] eqn:Ht; [|done].
  assert (Hpc : t_pc t ≠ TDone) by (intros Hd; by rewrite Hd in Hexec).
  destruct (Htasks t (list_elem_of_lookup_2 _ _ _ Ht)) as [[v Hv] Hloc _].
  pose proof (task_step_sessions net (srv sys) t) as Hs.
  pose proof (task_step_in_progress net (srv sys) t) as Hin.
  pose proof (task_step_pc net (srv sys) t Hpc) as Hdone.
  destruct (task_step_frame net (srv sys) t) as (_ & _ & _ & Hreq).
  destruct (task_step net (srv sys) t) as [s' t'].
  assert (sys' = System s' (sched sys) (<[i := t']> (tasks sys))) as ->.
  { destruct (t_pc t); try done; by injection Hexec as <-. }
  clear Hexec. simpl in *.
  assert (Hholder : holder_of (srv sys) t = Some v).
  { unfold holder_of. by rewrite decide_False. }
  assert (Hvin : v ∈ in_progress_votes (srv sys)).
  { apply Hiff. unfold holders. apply elem_of_app. left.
    apply list_elem_of_omap. exists t.
    split; [by eapply list_elem_of_lookup_2|done]. }
  assert (Hid : t_pc t ≠ TLookup → t_voter_id t = Some v).
  { intros Hl. destruct (Hloc Hl) as (info & _ & Hid & Hrv & _). congruence. }
  assert (Hsched : match sched sys with
                   | SSpawn req => option_list (request_voter s' req)
                   | _ => []
                   end
                   = match sched sys with
                     | SSpawn req => option_list (request_voter (srv sys) req)
                     | _ => []
                     end).
  { destruct (sched sys); try done. by rewrite (request_voter_sessions (srv sys)). }
  unfold guard_inv, holders in *. simpl. rewrite Hsched.
  rewrite (omap_holder_of_sessions (srv sys) s') by done.
  destruct (decide (t_pc t = TClearMark)) as [Hclear|Hclear].
  - assert (Hnone : holder_of (srv sys) t' = None).
    { unfold holder_of. rewrite decide_True; [done|]. by apply Hdone. }
    pose proof (omap_insert_drop _ _ _ _ _ _ Ht Hholder Hnone) as Hperm.
    rewrite Hperm in Hnd. simpl in Hnd.
    apply NoDup_cons in Hnd as [Hnotin Hnd]. split; [done|].
    intros x. rewrite Hin, Hclear, (Hid ltac:(by rewrite Hclear)).
    rewrite elem_of_difference, elem_of_singleton, Hiff, Hperm. simpl.
    rewrite elem_of_cons. split; [tauto|]. intros Hx. split; [by right|].
    intros ->. done.
  - assert (Hsame : holder_of (srv sys) t' = holder_of (srv sys) t).
    { unfold holder_of. rewrite Hreq. rewrite !decide_False; [done|done|].
      intros Hd. by apply Hdone in Hd. }
    rewrite (omap_insert_same _ _ _ _ _ Ht Hsame). split; [done|].
    intros x. rewrite <- Hiff, Hin.
    destruct (t_pc t) eqn:Epc; try done.
    rewrite (Hid ltac:(done)). rewrite elem_of_union, elem_of_singleton.
    split; [intros [->|]; done|tauto].
Qed.

(** The RPC handlers keep the guard invariant. *)
Lemma rpc_guard_inv c sys sys' :
  resolution_inv sys → guard_inv sys → exec (ARpc c) sys = Some sys' →
  guard_inv sys'.
Proof.
  intros Hres Hg Hexec.
  pose proof (exec_extends _ _ _ (ri_sessions _ Hres) Hexec) as Hext.
  destruct Hres as [_ _ Hsched Htasks].
  simpl in Hexec. injection Hexec as <-.
  apply (guard_inv_same sys _);
    [|intros v; cbn [srv]; by rewrite handle_in_progress|done].
  unfold holders. simpl.
  rewrite (omap_holder_of_extends (srv sys)) by done. f_equal.
  destruct (sched sys) as [| |req|req vid|req]; try done.
  simpl in Hsched. destruct Hsched as [v Hv]. cbn [srv] in Hext.
  by rewrite (proj1 Hext _ _ Hv), Hv.
Qed.

Lemma reachable_guard_inv sys : reachable sys → guard_inv sys.
Proof.
  induction 1 as [|sys sys' Hreach IH [a Ha]].
  - split; [apply NoDup_nil_2|]. intros v. unfold holders. simpl.
    unfold init_server. simpl. set_solver.
  - pose proof (reachable_resolution_inv sys Hreach) as Hres.
    destruct a as [|i net|c].
    + by apply (sched_guard_inv sys).
    + by apply (task_guard_inv i net sys).
    + by apply (rpc_guard_inv c sys).
Qed.

Lemma length_omap_filter {A B} (f : A → option B) (P : A → Prop)
    `{∀ x, Decision (P x)} (l : list A) :
  (∀ x, x ∈ l → (P x ↔ is_Some (f x))) →
  length (omap f l) = length (filter P l).
Proof.
  induction l as [|a l IH]; intros Hl; [done|].
  rewrite omap_cons, filter_cons.
  assert (Ha : P a ↔ is_Some (f a)) by (apply Hl; by left).
  assert (IH' : length (omap f l) = length (filter P l)).
  { apply IH. intros x Hx. apply Hl. by right. }
  destruct (f a) as [b|]; case_decide as HP; simpl; rewrite ?IH'; try done.
  - exfalso. apply HP, Ha. by eexists.
  - apply Ha in HP. by destruct HP.
Qed.

(** X12. The in-progress guard. In every reachable state no two unfinished
    admission threads work for the same voter; the in-progress marks are
    exactly the voters with an admission in flight (an unfinished thread, or
    the request the scheduler has marked and is about to start a thread
    for), so a mark is never left behind: with no thread unfinished and no
    start pending the set is empty, and its size is the number of unfinished
    threads plus the pending start. *)
Theorem in_progress_guard_one_admission_per_voter sys :
  reachable sys →
  (∀ i j ti tj v,
      tasks sys !! i = Some ti → tasks sys !! j = Some tj →
      t_pc ti ≠ TDone → t_pc tj ≠ TDone →
      request_voter (srv sys) (t_request ti) = Some v →
      request_voter (srv sys) (t_request tj) = Some v → i = j)
  ∧ (∀ t v, t ∈ tasks sys → t_pc t ≠ TDone →
      request_voter (srv sys) (t_request t) = Some v →
      v ∈ in_progress_votes (srv sys))
  ∧ (∀ v, v ∈ in_progress_votes (srv sys) →
      (∃ t, t ∈ tasks sys ∧ t_pc t ≠ TDone
            ∧ request_voter (srv sys) (t_request t) = Some v)
      ∨ (∃ req, sched sys = SSpawn req
                ∧ request_voter (srv sys) req = Some v))
  ∧ (outstanding sys = [] → (∀ req, sched sys ≠ SSpawn req) →
      in_progress_votes (srv sys) = ∅)
  ∧ size (in_progress_votes (srv sys))
    = length (outstanding sys)
      + match sched sys with SSpawn _ => 1 | _ => 0 end.
Proof.
  intros Hreach.
  destruct (reachable_guard_inv sys Hreach) as [Hnd Hiff].
  destruct (reachable_resolution_inv sys Hreach) as [_ _ Hsched Htasks].
  assert (Hholder : ∀ t v, t_pc t ≠ TDone →
            request_voter (srv sys) (t_request t) = Some v →
            holder_of (srv sys) t = Some v).
  { intros t v Hpc Hv. unfold holder_of. by rewrite decide_False. }
  assert (Hheld : ∀ v, v ∈ in_progress_votes (srv sys) →
      (∃ t, t ∈ tasks sys ∧ t_pc t ≠ TDone
            ∧ request_voter (srv sys) (t_request t) = Some v)
      ∨ (∃ req, sched sys = SSpawn req
                ∧ request_voter (srv sys) req = Some v)).
  { intros v Hv. apply Hiff in Hv. unfold holders in Hv.
    apply elem_of_app in Hv as [Hv|Hv].
    - left. apply list_elem_of_omap in Hv as (t & Ht & Hh). exists t.
      unfold holder_of in Hh. case_decide; [done|]. done.
    - right. destruct (sched sys) as [| |req|req vid|req];
        try by apply elem_of_nil in Hv.
      exists req. split; [done|].
      destruct (request_voter (srv sys) req) as [w|]; simpl in Hv;
        [|by apply elem_of_nil in Hv].
      by apply list_elem_of_singleton in Hv as ->. }
  split; [|split; [|split; [done|split]]].
  - intros i j ti tj v Hi Hj Hpi Hpj Hvi Hvj.
    unfold holders in Hnd. apply NoDup_app in Hnd as (Hnd & _ & _).
    eapply (omap_NoDup_lookup (holder_of (srv sys))); eauto.
  - intros t v Ht Hpc Hv. apply Hiff. unfold holders. apply elem_of_app. left.
    apply list_elem_of_omap. exists t. split; [done|]. by apply Hholder.
  - intros Hout Hnospawn. apply set_eq. intros v. split; [|set_solver].
    intros Hv. destruct (Hheld v Hv) as [(t & Ht & Hpc & _)|(req & Hs & _)].
    + assert (t ∈ outstanding sys) as Hin
        by (unfold outstanding; by apply list_elem_of_filter).
      rewrite Hout in Hin. by apply elem_of_nil in Hin.
    + by destruct (Hnospawn req).
  - assert (Hset : in_progress_votes (srv sys) = list_to_set (holders sys)).
    { apply set_eq. intros v. rewrite elem_of_list_to_set. apply Hiff. }
    rewrite Hset, size_list_to_set by done. unfold holders.
    rewrite length_app. f_equal.
    + unfold outstanding. apply length_omap_filter. intros t Ht.
      destruct (Htasks t Ht) as [[v Hv] _ _]. unfold holder_of.
      case_decide as Hd; [split; [done|by intros [? ?]]|].
      rewrite Hv. split; [by eexists|done].
    + destruct (sched sys) as [| |req|req vid|req]; try done.
      simpl in Hsched. by destruct Hsched as [v ->].
Qed.

Lemma in_progress_guard_one_admission_per_voter_witness :
  size (in_progress_votes (srv over_budget_system)) = 6
  ∧ 1%Z ∈ in_progress_votes (srv over_budget_system).
Proof.
  assert (Hreach : reachable over_budget_system).
  { apply (exec_all_reachable over_budget_schedule init_system);
      [apply reachable_init|]. vm_compute. reflexivity. }
  destruct (in_progress_guard_one_admission_per_voter over_budget_system Hreach)
    as (_ & Hmarked & _ & _ & Hsize).
  split; [rewrite Hsize; vm_compute; reflexivity|].
  apply (Hmarked (Task (VoteRequest "session_1_100" "Candidate A" 1 100)
                    (Some (VoterInfo 1 "Alice" 100)) (Some 1%Z) false None TMark)).
  - vm_compute. left.
  - done.
  - vm_compute. reflexivity.
Defined.

(** ** The replica *)

Lemma dict_get_set_eq k v d : dict_get k (dict_set k v d) = Some v.
Proof.
  induction d as [|[k' v'] d IH]; simpl.
  - by rewrite String.eqb_refl.
  - destruct (String.eqb k k') eqn:Hk; simpl; by rewrite Hk.
Qed.

Lemma dict_get_set_ne k k' v d :
  k ≠ k' → dict_get k (dict_set k' v d) = dict_get k d.
Proof.
  intros Hne. induction d as [|[k'' v''] d IH]; simpl.
  - apply String.eqb_neq in Hne. by rewrite Hne.
  - destruct (String.eqb k' k'') eqn:Hk; simpl; [|by rewrite IH].
    apply String.eqb_eq in Hk as <-. apply String.eqb_neq in Hne.
    by rewrite Hne.
Qed.

Lemma dict_set_same k v d : dict_get k d = Some v → dict_set k v d = d.
Proof.
  induction d as [|[k' v'] d IH]; simpl; [done|].
  destruct (String.eqb k k') eqn:Hk; [by intros [= ->]|].
  intros Hd. by rewrite IH.
Qed.

Lemma py_eq_refl a : py_eq a a = true.
Proof.
  destruct a as [|b|z|s|l|l]; simpl; try done.
  - by destruct b.
  - apply Z.eqb_refl.
  - apply String.eqb_refl.
  - by apply bool_decide_eq_true.
  - by apply bool_decide_eq_true.
Qed.

Lemma vote_loop_length db voter_id candidate db' :
  Replica.vote_loop db voter_id candidate = Some db' → length db' = length db.
Proof.
  revert db'. induction db as [|voter rest IH]; intros db'; simpl.
  - by intros [= <-].
  - destruct (dict_get "id" voter) as [id|]; [|done].
    destruct (py_eq id voter_id); [by intros [= <-]|].
    destruct (Replica.vote_loop rest voter_id candidate) as [rest'|];
      [|done].
    simpl. intros [= <-]. simpl. f_equal. by apply IH.
Qed.

Lemma vote_loop_idem db voter_id candidate db' :
  Replica.vote_loop db voter_id candidate = Some db' →
  Replica.vote_loop db' voter_id candidate = Some db'.
Proof.
  revert db'. induction db as [|voter rest IH]; intros db'; simpl.
  - by intros [= <-].
  - destruct (dict_get "id" voter) as [id|] eqn:Hid; [|done].
    destruct (py_eq id voter_id) eqn:Heq.
    + intros [= <-]. simpl.
      rewrite !dict_get_set_ne, Hid, Heq by done. do 2 f_equal.
      rewrite (dict_set_same "has_voted");
        [|rewrite dict_get_set_ne by done; apply dict_get_set_eq].
      apply dict_set_same, dict_get_set_eq.
    + destruct (Replica.vote_loop rest voter_id candidate) as [rest'|];
        [|done].
      simpl. intros [= <-]. simpl. rewrite Hid, Heq.
      by rewrite (IH rest').
Qed.

Lemma exists_loop_app db new_voter voter :
  Replica.exists_loop db new_voter = Some false →
  Replica.exists_loop (db ++ [voter]) new_voter
  = Replica.exists_loop [voter] new_voter.
Proof.
  induction db as [|v rest IH]; [done|].
  intros Hloop. simpl in Hloop.
  change ((v :: rest) ++ [voter]) with (v :: (rest ++ [voter])).
  change (Replica.exists_loop (v :: rest ++ [voter]) new_voter)
    with (match dict_get "id" v, dict_get "id" new_voter with
          | Some a, Some b =>
              if py_eq a b then Some true
              else Replica.exists_loop (rest ++ [voter]) new_voter
          | _, _ => None
          end).
  destruct (dict_get "id" v) as [a|]; [|done].
  destruct (dict_get "id" new_voter) as [b|]; [|done].
  destruct (py_eq a b); [done|]. by apply IH.
Qed.

(** The effect of the ["vote"] loop on a database whose records all carry an
    id: nothing when no id equals [voter_id], and otherwise one record, the
    first with an equal id. *)
Lemma vote_loop_spec db voter_id candidate :
  (∀ voter, voter ∈ db → is_Some (dict_get "id" voter)) →
  ∃ db', Replica.vote_loop db voter_id candidate = Some db'
    ∧ ((∀ voter id, voter ∈ db → dict_get "id" voter = Some id →
          py_eq id voter_id = false) → db' = db)
    ∧ (∀ i voter id,
          db !! i = Some voter → dict_get "id" voter = Some id →
          py_eq id voter_id = true →
          (∀ j voter' id', j < i → db !! j = Some voter' →
             dict_get "id" voter' = Some id' → py_eq id' voter_id = false) →
          db' = <[i := dict_set "vote" candidate
                          (dict_set "has_voted" (VBool true) voter)]> db).
Proof.
  induction db as [|v rest IH]; intros Hids.
  - exists []. split; [done|]. split; [done|]. by intros i voter id Hi.
  - destruct (Hids v) as [a Ha]; [by left|].
    destruct IH as (rest' & Hloop & Hnone & Hfirst).
    { intros voter Hv. apply Hids. by right. }
    simpl. rewrite Ha. destruct (py_eq a voter_id) eqn:Heq.
    + eexists. split; [done|]. split.
      * intros Hno. rewrite (Hno v a) in Heq; [done|by left|done].
      * intros [|i] voter id Hi Hid Hmatch Hbefore.
        -- simpl in Hi. by injection Hi as ->.
        -- rewrite (Hbefore 0 v a) in Heq; [done|lia|done|done].
    + rewrite Hloop. simpl. eexists. split; [done|]. split.
      * intros Hno. f_equal. apply Hnone. intros voter id Hv.
        apply Hno. by right.
      * intros [|i] voter id Hi Hid Hmatch Hbefore.
        -- simpl in Hi. injection Hi as ->. congruence.
        -- simpl. f_equal. apply (Hfirst i voter id); try done.
           intros j voter' id' Hj. apply (Hbefore (S j)). lia.
Qed.

Section replica_properties.

Variable timestamp_in_range : Z → bool.

(** X13. Replication updates whose values are [None], booleans, integers,
    strings or lists of strings (the values of [pyval], which cover every
    payload the primary builds; floating-point values, among them the NaN
    that is unequal to itself, are not among them) are idempotent on a
    replica holding such values: whatever the operation, delivering the
    same update a second time leaves the state as the first delivery left
    it. *)
Theorem replica_update_idempotent operation data r :
  let r1 := fst (Replica.ReplicateUpdate timestamp_in_range operation data r) in
  fst (Replica.ReplicateUpdate timestamp_in_range operation data r1) = r1.
Proof.
  unfold Replica.ReplicateUpdate.
  destruct (String.eqb operation "vote").
  { destruct (dict_get "voter_id" data) as [voter_id|]; [|done].
    destruct (dict_get "candidate" data) as [candidate|]; [|done].
    destruct (Replica.vote_loop (Replica.voters_db r) voter_id candidate)
      as [db|] eqn:Hloop; cbn [fst]; [|by rewrite Hloop].
    cbn [Replica.voters_db Replica.set_voters_db].
    by rewrite (vote_loop_idem _ _ _ _ Hloop). }
  destruct (String.eqb operation "register").
  { destruct (Replica.exists_loop (Replica.voters_db r) data)
      as [[|]|] eqn:Hloop; cbn zeta.
    - cbn [fst]. by rewrite Hloop.
    - set (r1 := Replica.set_voters_db r (Replica.voters_db r ++ [data])).
      assert (Hsecond :
        Replica.exists_loop (Replica.voters_db r1) data = Some true
        ∨ Replica.exists_loop (Replica.voters_db r1) data = None).
      { subst r1. cbn [Replica.voters_db Replica.set_voters_db].
        rewrite (exists_loop_app _ _ _ Hloop). simpl.
        destruct (dict_get "id" data) as [b|]; [|by right].
        rewrite py_eq_refl. by left. }
      destruct (dict_get "name" data), (dict_get "id" data); cbn [fst];
        by destruct Hsecond as [-> | ->].
    - cbn [fst]. by rewrite Hloop. }
  destruct (String.eqb operation "set_timer").
  { destruct (dict_get "end_time" data) as [end_time|]; done. }
  destruct (String.eqb operation "start_vote"); [done|].
  destruct (String.eqb operation "stop_vote"); [done|].
  destruct (String.eqb operation "publish_results"); done.
Qed.

(** X14. A replicated vote is acknowledged whether or not the replica knows
    the voter. On a database whose records all carry an id the reply is
    [True]; when no record has the voter id nothing changes, and otherwise
    the first record with that id, and no other, is marked as having voted
    for the candidate. *)
Theorem replica_vote_marks_first_match data r voter_id candidate :
  (∀ voter, voter ∈ Replica.voters_db r → is_Some (dict_get "id" voter)) →
  dict_get "voter_id" data = Some voter_id →
  dict_get "candidate" data = Some candidate →
  ∃ db', Replica.ReplicateUpdate timestamp_in_range "vote" data r
         = (Replica.set_voters_db r db', true)
    ∧ ((∀ voter id, voter ∈ Replica.voters_db r →
          dict_get "id" voter = Some id → py_eq id voter_id = false) →
        db' = Replica.voters_db r)
    ∧ (∀ i voter id,
          Replica.voters_db r !! i = Some voter →
          dict_get "id" voter = Some id → py_eq id voter_id = true →
          (∀ j voter' id', j < i → Replica.voters_db r !! j = Some voter' →
             dict_get "id" voter' = Some id' → py_eq id' voter_id = false) →
          db' = <[i := dict_set "vote" candidate
                          (dict_set "has_voted" (VBool true) voter)]>
                  (Replica.voters_db r)).
Proof.
  intros Hids Hvid Hcand.
  destruct (vote_loop_spec (Replica.voters_db r) voter_id candidate Hids)
    as (db' & Hloop & Hnone & Hfirst).
  exists db'. split; [|done].
  unfold Replica.ReplicateUpdate. simpl. by rewrite Hvid, Hcand, Hloop.
Qed.

(** X15. What a [False] reply of the replica means. An operation that is not
    one of the six known ones is refused and changes nothing. After any
    [False] reply the state is unchanged, with two exceptions: a registered
    record that lacks a name or an id has been appended all the same, and a
    deadline that [datetime.fromtimestamp] rejects has been stored all the
    same. *)
Theorem replica_false_reply_cases operation data r :
  (operation ∉ ["vote"; "register"; "set_timer"; "start_vote"; "stop_vote";
                "publish_results"] →
   Replica.ReplicateUpdate timestamp_in_range operation data r = (r, false))
  ∧ ∀ r',
    Replica.ReplicateUpdate timestamp_in_range operation data r = (r', false) →
    r' = r
    ∨ (operation = "register"
       ∧ r' = Replica.set_voters_db r (Replica.voters_db r ++ [data])
       ∧ (dict_get "name" data = None ∨ dict_get "id" data = None))
    ∨ (operation = "set_timer"
       ∧ ∃ end_time, dict_get "end_time" data = Some end_time
           ∧ Replica.fromtimestamp_ok timestamp_in_range end_time = false
           ∧ r' = Replica.set_voting_deadline r end_time).
Proof.
  unfold Replica.ReplicateUpdate. split.
  { intros Hop.
    repeat (destruct (String.eqb operation _) eqn:?Hop';
            [apply String.eqb_eq in Hop'; subst operation; set_solver
            |clear Hop']).
    done. }
  intros r'.
  destruct (String.eqb operation "vote").
  { destruct (dict_get "voter_id" data) as [voter_id|];
      [|intros [= <-]; by left].
    destruct (dict_get "candidate" data) as [candidate|];
      [|intros [= <-]; by left].
    destruct (Replica.vote_loop _ _ _); [done|]. intros [= <-]. by left. }
  destruct (String.eqb operation "register") eqn:Hop.
  { apply String.eqb_eq in Hop as ->.
    destruct (Replica.exists_loop _ _) as [[|]|]; cbn zeta;
      [done| |intros [= <-]; by left].
    destruct (dict_get "name" data) as [name|];
      [destruct (dict_get "id" data) as [id|]; [done|]|];
      intros [= <-]; right; left; eauto. }
  destruct (String.eqb operation "set_timer") eqn:Hop'.
  { apply String.eqb_eq in Hop' as ->.
    destruct (dict_get "end_time" data) as [end_time|];
      [|intros [= <-]; by left].
    intros [= <- Hok]. right. right. split; [done|]. by exists end_time. }
  destruct (String.eqb operation "start_vote"); [done|].
  destruct (String.eqb operation "stop_vote"); [done|].
  destruct (String.eqb operation "publish_results"); [done|].
  intros [= <-]. by left.
Qed.

Lemma vote_loop_voter_dict db i v candidate :
  (∀ j w, db !! j = Some w → v_id w = v_id v → j = i) →
  db !! i = Some v →
  Replica.vote_loop (voter_dict <$> db) (VInt (v_id v)) (VStr candidate)
  = Some (voter_dict <$> <[i := record_vote v candidate]> db).
Proof.
  revert i. induction db as [|w rest IH]; intros i Hfirst Hi; [done|].
  destruct i as [|i].
  - simpl in Hi. injection Hi as ->.
    cbn [fmap list_fmap Replica.vote_loop voter_dict dict_get String.eqb
         Ascii.eqb Bool.eqb py_eq].
    by rewrite Z.eqb_refl.
  - cbn [fmap list_fmap Replica.vote_loop voter_dict dict_get String.eqb
         Ascii.eqb Bool.eqb py_eq].
    destruct (v_id w =? v_id v)%Z eqn:Heq.
    + apply Z.eqb_eq in Heq. by specialize (Hfirst 0 w eq_refl Heq).
    + change (list_fmap voter pydict voter_dict rest)
        with (voter_dict <$> rest).
      rewrite (IH i); [done| |done].
      intros j u Hj Hu. by specialize (Hfirst (S j) u Hj Hu) as [= ->].
Qed.

Lemma exists_loop_voter_dict db new_voter :
  (∀ w, w ∈ db → v_id w ≠ v_id new_voter) →
  Replica.exists_loop (voter_dict <$> db) (voter_dict new_voter) = Some false.
Proof.
  induction db as [|w rest IH]; intros Hne; [done|].
  cbn [fmap list_fmap Replica.exists_loop voter_dict dict_get String.eqb
       Ascii.eqb Bool.eqb py_eq].
  destruct (v_id w =? v_id new_voter)%Z eqn:Heq.
  - apply Z.eqb_eq in Heq. destruct (Hne w); [by left|done].
  - apply IH. intros u Hu. apply Hne. by right.
Qed.

(** X16. A replica whose database holds the primary's records stays in step
    with it. When the primary's table has its ids in sequence, the vote
    payload built for the record that [_process_single_vote] found by id and
    name makes the replica, which looks by id alone, mark the record at the
    same index; and the record [Register] appends is appended by the replica
    as well. Both updates are acknowledged. *)
Theorem replica_follows_primary db r :
  registry_inv db →
  Replica.voters_db r = voter_dict <$> db →
  (∀ id name i v candidate timestamp,
      find_voter db id name = Some (i, v) →
      Replica.ReplicateUpdate timestamp_in_range "vote"
        (vote_payload v candidate timestamp) r
      = (Replica.set_voters_db r
           (voter_dict <$> <[i := record_vote v candidate]> db), true))
  ∧ (∀ name,
      let new_voter := Voter (Z.of_nat (length db) + 1) name false None in
      Replica.ReplicateUpdate timestamp_in_range "register"
        (voter_dict new_voter) r
      = (Replica.set_voters_db r (voter_dict <$> (db ++ [new_voter])), true)).
Proof.
  intros [Hids _] Hsync. split.
  - intros id name i v candidate timestamp (Hi & _ & _)%find_voter_spec.
    unfold Replica.ReplicateUpdate, vote_payload. simpl. rewrite Hsync.
    rewrite (vote_loop_voter_dict db i v candidate); [done| |done].
    intros j w Hj Hw. apply Hids in Hj, Hi. lia.
  - intros name new_voter.
    unfold Replica.ReplicateUpdate. simpl. rewrite Hsync.
    rewrite exists_loop_voter_dict.
    + by rewrite fmap_app.
    + intros w (j & Hj)%list_elem_of_lookup.
      pose proof (lookup_lt_Some _ _ _ Hj) as Hlt.
      apply Hids in Hj. simpl. lia.
Qed.

End replica_properties.

Lemma registry_inv_init : registry_inv (voters_db init_server).
Proof.
  split.
  - intros i v Hi. simpl in Hi.
    do 10 (destruct i as [|i]; [by injection Hi as <-|]). done.
  - simpl. repeat (apply NoDup_cons; split; [vm_compute; set_solver|]).
    apply NoDup_nil_2.
Qed.

Lemma replica_vote_marks_first_match_witness :
  Replica.ReplicateUpdate (λ _, true) "vote"
    [("voter_id", VInt 42); ("candidate", VStr "Candidate A")] Replica.init
  = (Replica.init, true).
Proof.
  destruct (replica_vote_marks_first_match (λ _, true)
              [("voter_id", VInt 42); ("candidate", VStr "Candidate A")]
              Replica.init (VInt 42) (VStr "Candidate A"))
    as (db' & -> & Hnone & _).
  - intros voter Hv. vm_compute in Hv.
    repeat (apply elem_of_cons in Hv as [->|Hv]; [by eexists|]).
    by apply elem_of_nil in Hv.
  - reflexivity.
  - reflexivity.
  - rewrite Hnone; [done|]. intros voter id Hv. vm_compute in Hv.
    repeat (apply elem_of_cons in Hv as [->|Hv]; [by intros [= <-]|]).
    by apply elem_of_nil in Hv.
Defined.

Lemma replica_false_reply_cases_witness :
  Replica.ReplicateUpdate (λ _, true) "unregister" [] Replica.init
  = (Replica.init, false)
  ∧ Replica.voting_deadline
      (fst (Replica.ReplicateUpdate (λ _, true) "set_timer"
              [("end_time", VStr "soon")] Replica.init))
    = VStr "soon".
Proof.
  split.
  - apply (proj1 (replica_false_reply_cases (λ _, true) "unregister" []
                    Replica.init)).
    vm_compute. set_solver.
  - destruct (proj2 (replica_false_reply_cases (λ _, true) "set_timer"
                       [("end_time", VStr "soon")] Replica.init)
                (Replica.set_voting_deadline Replica.init (VStr "soon")))
      as [H|[[H _]|(_ & v & Hv & _ & H)]].
    + vm_compute. reflexivity.
    + discriminate H.
    + discriminate H.
    + reflexivity.
Defined.

Lemma replica_follows_primary_witness :
  Replica.ReplicateUpdate (λ _, true) "vote"
    (vote_payload (Voter 2 "Bob" false None) "Candidate C" 7) Replica.init
  = (Replica.set_voters_db Replica.init
       (voter_dict <$> <[1 := Voter 2 "Bob" true (Some "Candidate C")]>
                         (voters_db init_server)), true).
Proof.
  apply (proj1 (replica_follows_primary (λ _, true) (voters_db init_server)
                  Replica.init registry_inv_init eq_refl) 2%Z "Bob").
  vm_compute. reflexivity.
Defined.

(** ** A vote from submission to commit *)

Lemma exec_all_app acts1 acts2 sys :
  exec_all (acts1 ++ acts2) sys
  = match exec_all acts1 sys with
    | Some sys1 => exec_all acts2 sys1
    | None => None
    end.
Proof.
  revert sys. induction acts1 as [|a acts1 IH]; intros sys; [done|].
  simpl. by destruct (exec a sys).
Qed.

Lemma run_task_done n net s t : t_pc t = TDone → run_task n net s t = (s, t).
Proof.
  intros Hpc. induction n as [|n IH]; [done|].
  simpl. unfold task_step. by rewrite Hpc.
Qed.

(** A thread that is given the processor until it finishes: if [n] blocks
    bring it to its end, the system gets there in at most [n] steps of that
    thread. *)
Lemma exec_all_run_task net pc i n : ∀ s t (ts : list task),
  ts !! i = Some t →
  t_pc (run_task n net s t).2 = TDone →
  ∃ k, k ≤ n
    ∧ exec_all (repeat (ATask i net) k) (System s pc ts)
      = Some (System (run_task n net s t).1 pc
                (<[i := (run_task n net s t).2]> ts)).
Proof.
  induction n as [|n IH]; intros s t ts Hi Hdone.
  - exists 0. split; [done|]. simpl. by rewrite list_insert_id.
  - destruct (decide (t_pc t = TDone)) as [Hpc|Hpc].
    + exists 0. split; [lia|]. rewrite run_task_done by done.
      simpl. by rewrite list_insert_id.
    + cbn [run_task] in *.
      destruct (task_step net s t) as [s' t'] eqn:Hstep.
      destruct (IH s' t' (<[i := t']> ts)) as (k & Hk & Hrun); [|done|].
      { apply list_lookup_insert_eq. by eapply lookup_lt_Some. }
      exists (S k). split; [lia|].
      cbn [repeat exec_all exec srv sched tasks]. rewrite Hi.
      rewrite list_insert_insert_eq in Hrun.
      destruct (t_pc t); try done; by rewrite Hstep.
Qed.

(** The scheduler's round for a request whose voter is not marked. *)
Lemma sched_round_spawn s ts e queue' info :
  (active_votes s < max_concurrent_votes s)%Z →
  heappop entry_lt (vote_queue s) = Some (e, queue') →
  active_sessions s !! session_id (e_request e) = Some info →
  vi_id info ∉ in_progress_votes s →
  exec_all (repeat ASched 5) (System s SCheck ts)
  = Some (System
            (set_in_progress_votes (set_vote_queue s queue')
               ({[vi_id info]} ∪ in_progress_votes s))
            SCheck (ts ++ [new_task (e_request e)])).
Proof.
  intros Hlt Hpop Hs Hin.
  assert (Hstep : ∀ s0 pc0 s' pc' rest sys',
            sched_step s0 pc0 = (s', pc', None) →
            exec_all rest (System s' pc' ts) = sys' →
            exec_all (ASched :: rest) (System s0 pc0 ts) = sys').
  { intros s0 pc0 s' pc' rest sys' H Hrest. cbn [exec_all exec srv sched tasks].
    rewrite H. by rewrite app_nil_r. }
  cbn [repeat].
  apply (Hstep s SCheck s SPop).
  { cbn [sched_step]. by rewrite (proj2 (Z.ltb_lt _ _) Hlt). }
  apply (Hstep s SPop (set_vote_queue s queue') (SLookup (e_request e))).
  { unfold sched_step. rewrite Hpop. by destruct (vote_queue s). }
  eapply Hstep.
  { cbn [sched_step active_sessions set_vote_queue]. by rewrite Hs. }
  eapply Hstep.
  { cbn [sched_step in_progress_votes set_vote_queue].
    by rewrite bool_decide_eq_false_2 by done. }
  done.
Qed.

(** X17. A vote from the RPC to the voter table. On a coordinator whose
    scheduler is at its budget check with an empty queue and a free slot, a
    [Vote] call with a listed candidate and a live session, followed by one
    round of the scheduler and the run of the thread it starts, ends with
    the thread finished and its answer that of the checks and of the commit
    block on the state the call found; the voter table is changed by the
    commit block alone, and the queue, the in-progress marks and the count
    of active votes are as before the call. *)
Theorem vote_on_idle_coordinator_is_processed net sys sid cand ts click info :
  sched sys = SCheck →
  vote_queue (srv sys) = [] →
  (active_votes (srv sys) < max_concurrent_votes (srv sys))%Z →
  cand ∈ candidates (srv sys) →
  active_sessions (srv sys) !! sid = Some info →
  vi_id info ∉ in_progress_votes (srv sys) →
  let req := VoteRequest sid cand ts click in
  ∃ n sys' t,
    n ≤ 8
    ∧ exec_all (ARpc (CallVote sid cand ts click) :: repeat ASched 5
                ++ repeat (ATask (length (tasks sys)) net) n) sys
      = Some sys'
    ∧ sched sys' = SCheck
    ∧ tasks sys' = tasks sys ++ [t]
    ∧ t_request t = req ∧ t_pc t = TDone
    ∧ t_result t
      = Some match validate (srv sys) (Some info) req with
             | Some r => r
             | None => snd (commit_vote net (srv sys) info req)
             end
    ∧ voters_db (srv sys')
      = match validate (srv sys) (Some info) req with
        | Some _ => voters_db (srv sys)
        | None => voters_db (fst (commit_vote net (srv sys) info req))
        end
    ∧ vote_queue (srv sys') = []
    ∧ in_progress_votes (srv sys') = in_progress_votes (srv sys)
    ∧ active_votes (srv sys') = active_votes (srv sys).
Proof.
  intros Hsched Hq Hlt Hcand Hs Hin req.
  destruct sys as [s pc tasks0]. cbn [sched srv tasks] in *. subst pc.
  set (e := Entry ts (vi_id info) (vote_counter s) req).
  set (s1 := fst (Vote sid cand ts click s)).
  assert (Hs1 : s1 = set_vote_counter (set_vote_queue (tick s) [e])
                       (vote_counter s + 1)%Z).
  { unfold s1, Vote. cbn [candidates tick set_lamport_clock active_sessions].
    rewrite bool_decide_eq_true_2 by done. cbn [negb]. rewrite Hs.
    cbn [fst].
    change (vote_queue (tick s)) with (vote_queue s).
    change (vote_counter (tick s)) with (vote_counter s).
    by rewrite Hq. }
  set (s2 := set_in_progress_votes (set_vote_queue s1 [])
               ({[vi_id info]} ∪ in_progress_votes s1)).
  assert (Hround : exec_all (repeat ASched 5) (System s1 SCheck tasks0)
                   = Some (System s2 SCheck (tasks0 ++ [new_task req]))).
  { apply (sched_round_spawn s1 tasks0 e [] info).
    - by rewrite Hs1.
    - by rewrite Hs1.
    - by rewrite Hs1.
    - by rewrite Hs1. }
  destruct (exec_all_run_task net SCheck (length tasks0) 8 s2 (new_task req)
              (tasks0 ++ [new_task req])) as (n & Hn & Hrun).
  { by rewrite lookup_app_r, Nat.sub_diag by lia. }
  { by rewrite run_task_process_single_vote. }
  rewrite run_task_process_single_vote in Hrun. cbn [fst snd] in Hrun.
  rewrite insert_app_r_alt, Nat.sub_diag in Hrun by lia.
  cbn [insert list_insert] in Hrun.
  eexists n, _, _. split; [done|]. split.
  { change (exec_all (ARpc (CallVote sid cand ts click) :: ?rest) _)
      with (exec_all rest (System s1 SCheck tasks0)).
    rewrite exec_all_app, Hround. exact Hrun. }
  cbn [sched srv tasks t_request t_pc t_result].
  destruct (process_single_vote_spec net s2 req)
    as (Hres & Hdb & _ & Hact & Hip & Hqueue & _).
  assert (Hs2 : active_sessions s2 !! session_id req = Some info)
    by (unfold s2; by rewrite Hs1).
  rewrite Hs2 in Hres, Hdb, Hip.
  assert (Hval : validate s2 (Some info) req = validate s (Some info) req)
    by (apply validate_reads; unfold s2; by rewrite Hs1).
  destruct (commit_vote_reads net s2 s info req) as [Hcdb Hcres];
    [unfold s2; by rewrite Hs1..|].
  rewrite Hval in Hres, Hdb.
  split; [done|]. split; [done|]. split; [done|]. split; [done|]. split.
  { rewrite Hres. destruct (validate s (Some info) req); [done|].
    by rewrite Hcres. }
  split.
  { rewrite Hdb. destruct (validate s (Some info) req).
    - unfold s2. by rewrite Hs1.
    - done. }
  split; [rewrite Hqueue; done|]. split.
  - rewrite Hip. unfold s2. rewrite Hs1.
    cbn [in_progress_votes set_in_progress_votes set_vote_queue
         set_vote_counter tick set_lamport_clock]. set_solver.
  - rewrite Hact. unfold s2. by rewrite Hs1.
Qed.

Lemma vote_on_idle_coordinator_is_processed_witness :
  ∃ n sys',
    n ≤ 8
    ∧ exec_all (ARpc (CallVote "session_1_100" "Candidate A" 5 100)
                :: repeat ASched 5 ++ repeat (ATask 0 net_up) n)
        (System open_poll_server SCheck [])
      = Some sys'
    ∧ voters_db (srv sys') !! 0 = Some (Voter 1 "Alice" true (Some "Candidate A")).
Proof.
  destruct (vote_on_idle_coordinator_is_processed net_up
              (System open_poll_server SCheck []) "session_1_100"
              "Candidate A" 5 100 (VoterInfo 1 "Alice" 100))
    as (n & sys' & t & Hn & Hrun & _ & _ & _ & _ & _ & Hdb & _).
  - reflexivity.
  - vm_compute. reflexivity.
  - vm_compute. reflexivity.
  - vm_compute. set_solver.
  - vm_compute. reflexivity.
  - vm_compute. set_solver.
  - exists n, sys'. split; [exact Hn|]. split; [exact Hrun|].
    rewrite Hdb. vm_compute. reflexivity.
Defined.

(** ** The tally loop of [PublishResults] *)

Lemma collect_votes_acc db : ∀ votes,
  collect_votes db votes = votes ++ collect_votes db [].
Proof.
  induction db as [|v db IH]; intros votes; simpl; [by rewrite app_nil_r|].
  destruct (vote v) as [c|]; [|apply IH].
  destruct (has_voted v && negb (String.eqb c "")); [|apply IH].
  rewrite (IH (votes ++ [c])), (IH [c]). by rewrite <- app_assoc.
Qed.

Lemma collect_votes_voted db (cands : list string) :
  "" ∉ cands →
  (∀ v, v ∈ db → has_voted v = true → ∃ c, vote v = Some c ∧ c ∈ cands) →
  collect_votes db [] = omap vote (filter (λ v, has_voted v = true) db).
Proof.
  intros Hne. induction db as [|v db IH]; intros Hb; [done|].
  assert (IH' : collect_votes db []
                = omap vote (filter (λ v, has_voted v = true) db)).
  { apply IH. intros w Hw. apply Hb. by right. }
  rewrite filter_cons. cbn [collect_votes].
  destruct (has_voted v) eqn:Hv.
  - destruct (Hb v) as (c & Hc & Hin); [by left|done|].
    rewrite decide_True by done. rewrite omap_cons, Hc.
    assert (String.eqb c "" = false) as ->.
    { apply String.eqb_neq. intros ->. done. }
    cbn [andb negb app]. by rewrite collect_votes_acc, IH'.
  - rewrite decide_False by done.
    destruct (vote v) as [c|]; [|done]. done.
Qed.

Lemma length_omap_total {A B} (f : A → option B) (l : list A) :
  (∀ x, x ∈ l → is_Some (f x)) → length (omap f l) = length l.
Proof.
  induction l as [|a l IH]; intros Hl; [done|].
  rewrite omap_cons. destruct (Hl a) as [b ->]; [by left|].
  simpl. f_equal. apply IH. intros x Hx. apply Hl. by right.
Qed.

(** X18. The tally loop of [PublishResults] neither loses nor doubles a
    ballot: in every reachable state the votes it collects are the recorded
    choices of the voters marked as having voted, in the order of the voter
    table, one for each such voter, and each names a listed candidate. *)
Theorem tally_has_one_ballot_per_voter_who_voted sys :
  reachable sys →
  let db := voters_db (srv sys) in
  collect_votes db [] = omap vote (filter (λ v, has_voted v = true) db)
  ∧ length (collect_votes db []) = length (filter (λ v, has_voted v = true) db)
  ∧ ∀ c, c ∈ collect_votes db [] → c ∈ candidates (srv sys).
Proof.
  intros Hreach db.
  destruct (reachable_inv sys Hreach) as [_ Hb _ Hc].
  assert (Hne : "" ∉ candidates (srv sys)).
  { rewrite Hc. vm_compute. set_solver. }
  pose proof (collect_votes_voted db _ Hne Hb) as Heq.
  split; [done|]. rewrite Heq. split.
  - apply length_omap_total.
    intros v [Hvoted Hin]%list_elem_of_filter.
    destruct (Hb v Hin Hvoted) as (c & -> & _). by eexists.
  - intros c (v & [Hvoted Hin]%list_elem_of_filter & Hvote)%list_elem_of_omap.
    destruct (Hb v Hin Hvoted) as (c' & Hc' & Hcand). congruence.
Qed.

Lemma tally_has_one_ballot_per_voter_who_voted_witness :
  collect_votes (voters_db (srv one_vote_system)) [] = ["Candidate A"].
Proof.
  assert (Hreach : reachable one_vote_system).
  { apply (exec_all_reachable one_vote_schedule init_system);
      [apply reachable_init|]. vm_compute. reflexivity. }
  destruct (tally_has_one_ballot_per_voter_who_voted one_vote_system Hreach)
    as (Heq & _).
  rewrite Heq. vm_compute. reflexivity.
Defined.

(** ** Publishing results *)

(** C10. When voting is not active [PublishResults] collects the committed
    votes (in every reachable state: the recorded choice of each voter
    marked as having voted, in the order of the voter table) and then falls
    off the end of its body, returning [None]; a structured response is
    produced only while voting is active, it is the failure response, and
    it is returned before any vote is collected. *)
Theorem publish_results_returns_none_when_inactive sys :
  (reachable sys → voting_active (srv sys) = false →
     PublishResults (srv sys)
     = (Some (omap vote (filter (λ v, has_voted v = true)
                           (voters_db (srv sys)))), None))
  ∧ (voting_active (srv sys) = false →
     PublishResults (srv sys)
     = (Some (collect_votes (voters_db (srv sys)) []), None))
  ∧ (voting_active (srv sys) = true →
     PublishResults (srv sys)
     = (None, Some (failure "Cannot publish results while voting is active")))
  ∧ (snd (PublishResults (srv sys)) = None ↔ voting_active (srv sys) = false)
  ∧ (∀ r, snd (PublishResults (srv sys)) = Some r ↔
          voting_active (srv sys) = true
          ∧ r = failure "Cannot publish results while voting is active").
Proof.
  unfold PublishResults. split.
  { intros Hreach ->. destruct (reachable_inv sys Hreach) as [_ Hb _ Hc].
    rewrite (collect_votes_voted (voters_db (srv sys)) (candidates (srv sys)));
      [done| |done].
    rewrite Hc. vm_compute. set_solver. }
  destruct (voting_active (srv sys)); cbn [snd].
  - split; [done|]. split; [done|]. split; [done|].
    intros r. split; [by intros [= <-]|]. by intros [_ ->].
  - split; [done|]. split; [done|]. split; [done|].
    intros r. split; [done|]. by intros [? _].
Qed.

Lemma publish_results_returns_none_when_inactive_witness :
  PublishResults (srv closed_poll_system) = (Some ["Candidate A"], None)
  ∧ PublishResults (srv one_vote_system)
    = (None, Some (failure "Cannot publish results while voting is active")).
Proof.
  assert (Hreach : reachable closed_poll_system).
  { apply (exec_all_reachable (one_vote_schedule ++ [ARpc (CallStopVote net_up)])
             init_system); [apply reachable_init|]. vm_compute. reflexivity. }
  destruct (publish_results_returns_none_when_inactive closed_poll_system)
    as (H1 & _).
  destruct (publish_results_returns_none_when_inactive one_vote_system)
    as (_ & _ & H3 & _).
  split; [|apply H3; vm_compute; reflexivity].
  rewrite (H1 Hreach); [|vm_compute; reflexivity].
  vm_compute. reflexivity.
Defined.
